(** * The view-selection and point-filtering heuristic of heuristic.cpp

    A shallow embedding of [Heuristic::filterPoints], [filterCameras],
    [chooseMain], [chooseSide], [Heuristic::chooseCameras], the
    bundle-table cursor ([beginMain], [nextMain], [beginSide], [nextSide])
    and the iteration controller ([notHappy], [tessellate]) of
    heuristic.cpp, and of [filterFinest] of pcl.cpp, together with the
    properties the specification states about them and further properties
    that the code shows.

    Conventions.
    - C++ [int] and [unsigned] values are integers in [Z]; the truncation
      that [compact] performs on its [unsigned short] arguments is written
      out.  Positions inside a vector are natural numbers.
    - C++ [float] and [double] arithmetic is kept abstract behind the
      interface [Floating].  Two implementations are given: IEEE-754
      binary32/binary64 (through the Standard Library's [SpecFloat]), which
      is what the compiled program computes with, and exact rationals.
    - A failed [assert], an access outside a vector and a float-to-int
      conversion of a value that does not fit are the three ways in which
      the modelled code can go wrong; they are the faults of [result].
    - Calls of [cv::randu<float>()] are inputs: every function that draws
      takes the drawn value as an argument. *)

From Stdlib Require Import ZArith QArith Floats.SpecFloat.
From stdpp Require Import gmap list sorting.

Close Scope Q_scope.
Local Open Scope Z_scope.

(** ** Faults and the result monad *)

Inductive Fault : Type :=
| AssertionFailed      (* an [assert] of the source does not hold *)
| OutOfBounds          (* a vector or matrix is accessed outside its range *)
| UndefinedConversion. (* a float is converted to an int it does not fit *)

Inductive result (A : Type) : Type :=
| Ok (a : A)
| Abort (f : Fault).
Arguments Ok {A} a.
Arguments Abort {A} f.

#[global] Instance result_ret : MRet result := fun A a => Ok a.
#[global] Instance result_bind : MBind result := fun A B k r =>
  match r with
  | Ok a => k a
  | Abort f => Abort f
  end.

Definition assert (b : bool) : result unit :=
  if b then Ok tt else Abort AssertionFailed.

(** [v[i]] for a C++ vector [v] and an [int] index [i]. *)
Definition at_ {A} (v : list A) (i : Z) : result A :=
  if (i <? 0) then Abort OutOfBounds
  else match v !! Z.to_nat i with
       | Some a => Ok a
       | None => Abort OutOfBounds
       end.

(** [v[i] = a]. *)
Definition set_at {A} (v : list A) (i : Z) (a : A) : result (list A) :=
  if (i <? 0) || (Z.of_nat (length v) <=? i) then Abort OutOfBounds
  else Ok (<[Z.to_nat i := a]> v).

(** ** Floating-point arithmetic *)

(** The operations of C++ [float] and [double] that the source uses.
    Comparisons are boolean and follow C++: [a > b] is [f_ltb b a],
    [a >= b] is [f_leb b a], [a != b] is [negb (f_eqb a b)].
    [f_to_int] is the implicit conversion to [int]; it is [None] where
    C++ leaves the conversion undefined. *)
Class Floating : Type := {
  float : Type;
  double : Type;
  f_of_int : Z -> float;
  f_add : float -> float -> float;
  f_sub : float -> float -> float;
  f_mul : float -> float -> float;
  f_div : float -> float -> float;
  f_sqrt : float -> float;
  f_ltb : float -> float -> bool;
  f_leb : float -> float -> bool;
  f_eqb : float -> float -> bool;
  f_to_int : float -> option Z;
  d_of_int : Z -> double;
  d_add : double -> double -> double;
  d_sub : double -> double -> double;
  d_mul : double -> double -> double;
  d_div : double -> double -> double;
  d_sqrt : double -> double;
  d_ltb : double -> double -> bool;
  f2d : float -> double;
  d2f : double -> float
}.

#[global] Instance float_inhabited `{Floating} : Inhabited float :=
  populate (f_of_int 0).

(** *** IEEE-754 binary32 and binary64 *)

Module IEEE.

Definition int_min : Z := - 2 ^ 31.
Definition int_max : Z := 2 ^ 31 - 1.

Section Format.
Variables prec emax : Z.

Definition of_int (z : Z) : spec_float :=
  binary_normalize prec emax z 0 false.

(** Rounding of a value of another format into this one. *)
Definition convert (x : spec_float) : spec_float :=
  match x with
  | S754_finite s m e =>
      binary_normalize prec emax (cond_Zopp s (Zpos m)) e s
  | _ => x
  end.
End Format.

(** Truncation toward zero; undefined outside the range of [int]. *)
Definition truncate (x : spec_float) : option Z :=
  match x with
  | S754_zero _ => Some 0
  | S754_finite s m e =>
      let t := if 0 <=? e then Zpos m * 2 ^ e else Zpos m / 2 ^ (- e) in
      let v := cond_Zopp s t in
      if (int_min <=? v) && (v <=? int_max) then Some v else None
  | _ => None
  end.

#[export] Instance binary : Floating := {|
  float := spec_float;
  double := spec_float;
  f_of_int := of_int 24 128;
  f_add := SFadd 24 128;
  f_sub := SFsub 24 128;
  f_mul := SFmul 24 128;
  f_div := SFdiv 24 128;
  f_sqrt := SFsqrt 24 128;
  f_ltb := SFltb;
  f_leb := SFleb;
  f_eqb := SFeqb;
  f_to_int := truncate;
  d_of_int := of_int 53 1024;
  d_add := SFadd 53 1024;
  d_sub := SFsub 53 1024;
  d_mul := SFmul 53 1024;
  d_div := SFdiv 53 1024;
  d_sqrt := SFsqrt 53 1024;
  d_ltb := SFltb;
  f2d := convert 53 1024;
  d2f := convert 24 128
|}.

End IEEE.

(** *** Exact rational arithmetic *)

Module Exact.

Definition q_ltb (a b : Q) : bool := negb (Qle_bool b a).

(** A rational lower approximation of the square root, to 2^-32. *)
Definition q_sqrt (a : Q) : Q :=
  Qred (Z.sqrt (Qnum a * Zpos (Qden a) * 2 ^ 64) # (Qden a * 2 ^ 32)).

Definition q_truncate (a : Q) : option Z :=
  let v := Z.quot (Qnum a) (Zpos (Qden a)) in
  if (IEEE.int_min <=? v) && (v <=? IEEE.int_max) then Some v else None.

(** Sums, products and quotients are kept in lowest terms. *)
Definition q_add (a b : Q) : Q := Qred (a + b).
Definition q_sub (a b : Q) : Q := Qred (a - b).
Definition q_mul (a b : Q) : Q := Qred (a * b).
Definition q_div (a b : Q) : Q := Qred (a / b).

#[export] Instance rational : Floating := {|
  float := Q;
  double := Q;
  f_of_int := inject_Z;
  f_add := q_add;
  f_sub := q_sub;
  f_mul := q_mul;
  f_div := q_div;
  f_sqrt := q_sqrt;
  f_ltb := q_ltb;
  f_leb := Qle_bool;
  f_eqb := Qeq_bool;
  f_to_int := q_truncate;
  d_of_int := inject_Z;
  d_add := q_add;
  d_sub := q_sub;
  d_mul := q_mul;
  d_div := q_div;
  d_sqrt := q_sqrt;
  d_ltb := q_ltb;
  f2d := fun a => a;
  d2f := fun a => a
|}.

End Exact.

(** ** What the source takes from the rest of the repository *)

(** [recon.hpp] and the utility code behind it are not part of the
    verified sources.  The model is parametric in what is used from them:
    the matrix type [Mat] of cameras, [extractCameraCenter] (homogeneous
    optical center of a camera), the product of a camera matrix with a
    homogeneous point, the constant [backgroundDepth] of the renderer and
    the cursor's [Heuristic::sentinel]. *)
Class Externals `{Floating} : Type := {
  Mat : Type;
  vec4 : Type := (float * float * float * float)%type;
  extractCameraCenter : Mat -> vec4;
  mat_vec : Mat -> vec4 -> vec4;
  backgroundDepth : float;
  sentinel : Z
}.

Section Heuristic.
Context `{Fl : Floating} `{Ex : !Externals}.

Definition f_zero : float := f_of_int 0.
Definition f_one : float := f_of_int 1.

(** [const float focal = 0.5] *)
Definition focal : float := d2f (d_div (d_of_int 1) (d_of_int 2)).

Definition pow2 (x : float) : float := f_mul x x.

(** *** [compact] *)

(** Width of [short] in bits, [sizeof(short)*CHAR_BIT]. *)
Definition short_bits : Z := 16.

(** Conversion of an [int] argument to [unsigned short]. *)
Definition to_ushort (i : Z) : Z := i mod 2 ^ short_bits.

(** [(unsigned(i) << sizeof(short)*CHAR_BIT) + unsigned(j)], in 32-bit
    unsigned arithmetic. *)
Definition compact (i j : Z) : Z :=
  ((Z.shiftl (to_ushort i) short_bits) mod 2 ^ 32 + to_ushort j) mod 2 ^ 32.

(** *** [CameraLabel] *)

Record CameraLabel : Type := mkLabel {
  index : Z;
  cosFromViewer : float;
  distance : float;
  viewX : float;
  viewY : float
}.

(** [const CameraLabel dummyLabel = {-1, 0, 0}]; the members that the
    initialiser leaves out are zero. *)
Definition dummyLabel : CameraLabel := mkLabel (-1) f_zero f_zero f_zero f_zero.

Definition LabelledCameras : Type := list (CameraLabel * Mat).

(** *** [bisect] and [myFind] *)

(** The scan of [bisect], started at position [i]. *)
Fixpoint bisect_from (i : Z) (l : list float) (choice : float) : Z :=
  match l with
  | [] => i
  | x :: l' => if f_ltb choice x then i - 1 else bisect_from (i + 1) l' choice
  end.

Definition bisect (l : list float) (choice : float) : Z :=
  bisect_from 0 l choice.

Fixpoint myFind_from {A} (i : Z) (l : list (Z * A)) (idx : Z) : Z :=
  match l with
  | [] => -1
  | x :: l' => if x.1 =? idx then i else myFind_from (i + 1) l' idx
  end.

(** [myFind(std::vector<numberedVector>, int)] *)
Definition myFind (l : list (Z * list Z)) (idx : Z) : Z := myFind_from 0 l idx.

Fixpoint myFind_int_from (i : Z) (l : list Z) (idx : Z) : Z :=
  match l with
  | [] => -1
  | x :: l' => if x =? idx then i else myFind_int_from (i + 1) l' idx
  end.

(** [myFind(std::vector<int>, int)] *)
Definition myFind_int (l : list Z) (idx : Z) : Z := myFind_int_from 0 l idx.

(** *** [filterCameras] *)

(** The depth buffer: a [rows] x [cols] matrix of [float]. *)
Record DepthBuffer : Type := mkDepth {
  depth_rows : Z;
  depth_cols : Z;
  depth_data : Z -> Z -> float
}.

(** [depth.at<float>(row, col)] *)
Definition depth_at (d : DepthBuffer) (row col : Z) : result float :=
  if (0 <=? row) && (row <? depth_rows d) && (0 <=? col) && (col <? depth_cols d)
  then Ok (depth_data d row col)
  else Abort OutOfBounds.

(** [v /= s] on a 4x1 matrix (OpenCV scales by the reciprocal, which
    has the same sign and the same infinite and NaN cases). *)
Definition vec_div (v : vec4) (s : float) : vec4 :=
  let '(a, b, c, d) := v in (f_div a s, f_div b s, f_div c s, f_div d s).

Definition c0 (v : vec4) : float := let '(a, _, _, _) := v in a.
Definition c1 (v : vec4) : float := let '(_, b, _, _) := v in b.
Definition c2 (v : vec4) : float := let '(_, _, c, _) := v in c.
Definition c3 (v : vec4) : float := let '(_, _, _, d) := v in d.

(** The implicit conversion in [int row = ...]. *)
Definition to_int (x : float) : result Z :=
  match f_to_int x with
  | Some z => Ok z
  | None => Abort UndefinedConversion
  end.

(** [(c + 1) * size / 2], converted to [int]. *)
Definition pixel (c : float) (size : Z) : result Z :=
  to_int (f_div (f_mul (f_add c f_one) (f_of_int size)) (f_of_int 2)).

(** The body of the loop of [filterCameras] for camera number [i]:
    [None] stands for [continue], [Some] for [push_back]. *)
Definition visible (viewer : Mat) (depth : DepthBuffer) (i : Z) (camera : Mat)
  : result (option (CameraLabel * Mat)) :=
  let cameraFromViewer := mat_vec viewer (extractCameraCenter camera) in
  let cfv := vec_div cameraFromViewer (c3 cameraFromViewer) in
  if f_ltb f_one (c2 cfv) || f_ltb (c2 cfv) (f_of_int (-1)) then Ok None else
  row ← pixel (c1 cfv) (depth_rows depth);
  col ← pixel (c0 cfv) (depth_cols depth);
  if (row <? 0) || (depth_rows depth <=? row) || (col <? 0) || (depth_cols depth <? col)
  then Ok None else
  obstacleDepth ← depth_at depth row col;
  if negb (f_eqb obstacleDepth backgroundDepth) && f_leb obstacleDepth (c2 cfv)
  then Ok None else
  let viewerCenter := extractCameraCenter viewer in
  let viewerFromCamera := mat_vec camera viewerCenter in
  let dist := f_div (c3 viewerFromCamera) (c3 viewerCenter) in
  if f_ltb dist f_zero then Ok None else
  let vfc := vec_div viewerFromCamera (c3 viewerFromCamera) in
  if f_ltb (c0 vfc) (f_of_int (-1)) || f_ltb f_one (c0 vfc)
     || f_ltb (c1 vfc) (f_of_int (-1)) || f_ltb f_one (c1 vfc)
  then Ok None else
  let cosv :=
    f_sqrt (f_div f_one
              (f_add f_one
                 (f_div (f_add (f_mul (c0 cfv) (c0 cfv)) (f_mul (c1 cfv) (c1 cfv)))
                        (f_mul focal focal)))) in
  Ok (Some (mkLabel i cosv dist (c0 cfv) (c1 cfv), camera)).

Fixpoint filterCameras_from (viewer : Mat) (depth : DepthBuffer) (i : Z)
    (cameras : list Mat) (filtered : LabelledCameras) : result LabelledCameras :=
  match cameras with
  | [] => Ok filtered
  | camera :: rest =>
      v ← visible viewer depth i camera;
      filterCameras_from viewer depth (i + 1) rest
        (match v with Some p => filtered ++ [p] | None => filtered end)
  end.

Definition filterCameras (viewer : Mat) (depth : DepthBuffer) (cameras : list Mat)
  : result LabelledCameras :=
  filterCameras_from viewer depth 0 cameras [].


(** *** The vote table *)

(** The table is a [std::map<unsigned, float>], keyed by [compact]: a
    [gmap Z float]. *)

(** [weights.count(k)] *)
Definition count (weights : gmap Z float) (k : Z) : bool :=
  bool_decide (is_Some (weights !! k)).

(** [weights[k]]: a missing key is first inserted with value 0. *)
Definition subscript (weights : gmap Z float) (k : Z) : float * gmap Z float :=
  match weights !! k with
  | Some v => (v, weights)
  | None => (f_zero, <[k := f_zero]> weights)
  end.

(** The value [weights[k]] would read, without the insertion. *)
Definition vote (weights : gmap Z float) (k : Z) : float :=
  default f_zero (weights !! k).

(** *** [chooseMain] *)

(** The loop that fills [weightSum] and [*outWeightSum]; [i] is the loop
    counter and [n] is [filteredCameras.size()]. *)
Fixpoint chooseMain_weights (weights : gmap Z float) (boostFactor : float) (n : Z)
    (cameras : LabelledCameras) (i : Z) (weightSum : list float)
    (outWeightSum : float) : result (list float * float) :=
  match cameras with
  | [] => Ok (weightSum, outWeightSum)
  | (label, _) :: rest =>
      let weight := f_div (cosFromViewer label) (pow2 (distance label)) in
      let outWeightSum := f_add outWeightSum weight in
      let weight :=
        if count weights (compact (index label) (index label))
        then f_add weight (f_mul (f_mul weight boostFactor) (f_of_int n))
        else weight in
      prev ← at_ weightSum i;
      weightSum ← set_at weightSum (i + 1) (f_add prev weight);
      chooseMain_weights weights boostFactor n rest (i + 1) weightSum outWeightSum
  end.

(** [weightSum.back()] *)
Definition back (v : list float) : result float :=
  at_ v (Z.of_nat (length v) - 1).

(** The drawn main camera and the sum of the unmodified weights;
    [r] is the value of [cv::randu<float>()]. *)
Definition chooseMain (weights : gmap Z float) (filteredCameras : LabelledCameras)
    (boostFactor : float) (r : float) : result (CameraLabel * float) :=
  let n := Z.of_nat (length filteredCameras) in
  _ ← assert (0 <? n);
  '(weightSum, outWeightSum) ←
    chooseMain_weights weights boostFactor n filteredCameras 0
      (replicate (Z.to_nat (n + 1)) f_zero) f_zero;
  total ← back weightSum;
  let choice := f_mul r total in
  let idx := bisect weightSum choice in
  chosen ← at_ filteredCameras idx;
  Ok (chosen.1, outWeightSum).

(** *** [chooseSide] *)

(** What the weight loop of [chooseSide] leaves behind. *)
Record SideWeights : Type := mkSide {
  side_weightSum : list float;
  side_labels : list CameraLabel;
  side_actualWeightSum : float;
  side_i : Z
}.

Fixpoint chooseSide_weights (weights : gmap Z float) (mainCamera : CameraLabel)
    (boostFactor : float) (n : Z) (cameras : LabelledCameras)
    (st : SideWeights) : result SideWeights :=
  match cameras with
  | [] => Ok st
  | (label, _) :: rest =>
      if index label =? index mainCamera
      then chooseSide_weights weights mainCamera boostFactor n rest st
      else
        let parallaxSqr :=
          f_div (f_add (pow2 (f_sub (viewX label) (viewX mainCamera)))
                       (pow2 (f_sub (viewY label) (viewY mainCamera))))
                focal in
        let weight :=
          f_div (f_mul (cosFromViewer label) parallaxSqr) (pow2 (distance label)) in
        let actualWeightSum := f_add (side_actualWeightSum st) weight in
        let compactIndex := compact (index mainCamera) (index label) in
        (* [weights[compactIndex]] is only evaluated when the key is
           present, so the subscript inserts nothing here *)
        let weight :=
          if count weights compactIndex && f_leb f_one (vote weights compactIndex)
          then f_add weight (f_mul (f_mul weight boostFactor) (f_of_int n))
          else weight in
        prev ← at_ (side_weightSum st) (side_i st);
        weightSum ← set_at (side_weightSum st) (side_i st + 1) (f_add prev weight);
        chooseSide_weights weights mainCamera boostFactor n rest
          (mkSide weightSum (side_labels st ++ [label]) actualWeightSum (side_i st + 1))
  end.

(** The position drawn by [chooseSide] in [labels], after its assertion. *)
Definition chooseSide_draw (weights : gmap Z float) (mainCamera : CameraLabel)
    (boostFactor : float) (filteredCameras : LabelledCameras) (r : float)
    : result (SideWeights * Z) :=
  let n := Z.of_nat (length filteredCameras) in
  _ ← assert (1 <? n);
  sw ← chooseSide_weights weights mainCamera boostFactor n filteredCameras
         (mkSide (replicate (Z.to_nat n) f_zero) [] f_zero 0);
  total ← back (side_weightSum sw);
  let choice := f_mul r total in
  let idx := bisect (side_weightSum sw) choice in
  _ ← assert ((0 <=? idx) && (idx <? side_i sw));
  Ok (sw, idx).

(** The vote added for the drawn position. *)
Definition addWeight (sw : SideWeights) (idx : Z) (threshold : float) : result float :=
  hi ← at_ (side_weightSum sw) (idx + 1);
  lo ← at_ (side_weightSum sw) idx;
  Ok (f_div (f_sub hi lo) (f_mul threshold (side_actualWeightSum sw))).

(** The part of [chooseSide] after the draw: the test of the accumulated
    vote, the mark of the main camera, and the accumulation. *)
Definition chooseSide_vote (weights : gmap Z float) (mainCamera : CameraLabel)
    (threshold : float) (sw : SideWeights) (idx : Z)
    : result (CameraLabel * gmap Z float) :=
  drawn ← at_ (side_labels sw) idx;
  let compactIndex := compact (index mainCamera) (index drawn) in
  let '(v, weights) := subscript weights compactIndex in
  if f_leb f_one v then Ok (dummyLabel, weights) else
  let weights := <[compact (index mainCamera) (index mainCamera) := f_one]> weights in
  add ← addWeight sw idx threshold;
  let '(v, weights) := subscript weights compactIndex in
  let weights := <[compactIndex := f_add v add]> weights in
  let '(curWeight, weights) := subscript weights compactIndex in
  if f_leb f_one curWeight then Ok (drawn, weights) else Ok (dummyLabel, weights).

Definition chooseSide (weights : gmap Z float) (mainCamera : CameraLabel)
    (threshold boostFactor : float) (filteredCameras : LabelledCameras) (r : float)
    : result (CameraLabel * gmap Z float) :=
  '(sw, idx) ← chooseSide_draw weights mainCamera boostFactor filteredCameras r;
  chooseSide_vote weights mainCamera threshold sw idx.

(** *** [Heuristic::chooseCameras] *)

(** The members of [Configuration] that [chooseCameras] reads. *)
Record Configuration : Type := mkConfig {
  width : Z;
  height : Z;
  cameraThreshold : float
}.

(** One iteration of the sampling loop, as far as it depends on values
    produced outside the verified sources: [viewer] is the matrix returned
    by [faceCamera] for the sampled face, [depth] is [render->depth(viewer)],
    [rMain] and [rSide] are the values of [cv::randu<float>()] consumed by
    [chooseMain] and [chooseSide]. *)
Record Shot : Type := mkShot {
  viewer : Mat;
  depth : DepthBuffer;
  rMain : float;
  rSide : float
}.

(** The variables that the loop updates. *)
Record Selection : Type := mkSelection {
  weights : gmap Z float;
  cameraCount : Z;
  chosenCameras : list (Z * list Z)
}.

Definition shotCount : Z := 200.

(** [sqrt(cameras.size())*config->width*config->height /
     (totalArea * config->cameraThreshold)]: the numerator is a [double],
    the result is stored in a [float]. *)
Definition samplingResolution (config : Configuration) (cameras : list Mat)
    (totalArea : float) : float :=
  d2f (d_div
         (d_mul (d_mul (d_sqrt (d_of_int (Z.of_nat (length cameras))))
                       (d_of_int (width config)))
                (d_of_int (height config)))
         (f2d (f_mul totalArea (cameraThreshold config)))).

(** "write the pair into the resulting table" *)
Definition writePair (chosen : list (Z * list Z)) (main side : Z)
    : result (list (Z * list Z)) :=
  let positionMain := myFind chosen main in
  if positionMain =? -1 then Ok (chosen ++ [(main, [side])]) else
  entry ← at_ chosen positionMain;
  if myFind_int entry.2 side =? -1
  then set_at chosen positionMain (entry.1, entry.2 ++ [side])
  else Ok chosen.

(** "try to pick a (main, side) camera pair": the two draws of one
    iteration.  [None] is the [continue] taken when [chooseSide] returns
    the dummy label. *)
Definition pickPair (config : Configuration) (resolution : float)
    (weights : gmap Z float) (filteredCameras : LabelledCameras)
    (rMain rSide : float) : result (gmap Z float * option (Z * Z)) :=
  '(mainCamera, mainWeightSum) ←
    chooseMain weights filteredCameras (cameraThreshold config) rMain;
  '(sideCamera, weights) ←
    chooseSide weights mainCamera
      (f_div (f_mul (f_of_int shotCount) mainWeightSum) resolution)
      (f_div (cameraThreshold config) (f_of_int 10))
      filteredCameras rSide;
  if index sideCamera =? index dummyLabel
  then Ok (weights, None)
  else Ok (weights, Some (index mainCamera, index sideCamera)).

(** The body of the sampling loop.  Besides the updated variables it
    reports the pair accepted in this iteration, if any. *)
Definition shotStep (config : Configuration) (resolution : float)
    (cameras : list Mat) (st : Selection) (s : Shot)
    : result (Selection * option (Z * Z)) :=
  filteredCameras ← filterCameras (viewer s) (depth s) cameras;
  if 2 <=? Z.of_nat (length filteredCameras) then
    '(weights, picked) ←
      pickPair config resolution (weights st) filteredCameras (rMain s) (rSide s);
    match picked with
    | None => Ok (mkSelection weights (cameraCount st) (chosenCameras st), None)
    | Some (main, side) =>
        chosen ← writePair (chosenCameras st) main side;
        Ok (mkSelection weights (cameraCount st + 1) chosen, picked)
    end
  else Ok (st, None).

Fixpoint shotLoop (config : Configuration) (resolution : float)
    (cameras : list Mat) (shots : list Shot) (st : Selection)
    : result (Selection * list (option (Z * Z))) :=
  match shots with
  | [] => Ok (st, [])
  | s :: rest =>
      '(st, e) ← shotStep config resolution cameras st s;
      '(st, es) ← shotLoop config resolution cameras rest st;
      Ok (st, e :: es)
  end.

(** [operator<] of [std::vector<int>] and of [numberedVector]. *)
Fixpoint vector_ltb (a b : list Z) : bool :=
  match a, b with
  | _, [] => false
  | [], _ :: _ => true
  | x :: a', y :: b' =>
      if x <? y then true else if y <? x then false else vector_ltb a' b'
  end.

Definition numbered_ltb (a b : Z * list Z) : bool :=
  (a.1 <? b.1) || (negb (b.1 <? a.1) && vector_ltb a.2 b.2).

(** The order that [std::sort] establishes: no element is smaller than
    one before it. *)
Definition numbered_le (a b : Z * list Z) : Prop := numbered_ltb b a = false.

#[local] Instance numbered_le_dec : RelDecision numbered_le.
Proof. intros a b. unfold numbered_le. apply _. Defined.

(** [faceAreas] are the values of [faceArea] for the faces of the mesh,
    and [shots i] describes iteration [i] of the loop.  The result is the
    returned count and the final state of [chosenCameras]. *)
Definition chooseCameras (config : Configuration) (faceAreas : list float)
    (cameras : list Mat) (shots : nat -> Shot) : result (Z * list (Z * list Z)) :=
  let totalArea := foldl f_add f_zero faceAreas in
  let resolution := samplingResolution config cameras totalArea in
  '(st, _) ← shotLoop config resolution cameras
               (shots <$> seq 0 (Z.to_nat shotCount))
               (mkSelection ∅ 0 []);
  Ok (cameraCount st, merge_sort numbered_le (chosenCameras st)).

(** *** The cursor over the bundle table *)

Record Cursor : Type := mkCursor {
  table : list (Z * list Z);
  mainIdx : Z;
  sideIdx : Z
}.

(** [i < v.size()] for an index [i] and the unsigned size of a vector:
    a negative [int] converts to a value above every size. *)
Definition below (i : Z) (size : nat) : bool :=
  (0 <=? i) && (i <? Z.of_nat size).

Definition beginMain (c : Cursor) : result (Z * Cursor) :=
  if Nat.eqb (length (table c)) 0 then Ok (sentinel, c) else
  let c := mkCursor (table c) 0 (sideIdx c) in
  entry ← at_ (table c) (mainIdx c);
  Ok (entry.1, c).

Definition nextMain (c : Cursor) : result (Z * Cursor) :=
  let c := mkCursor (table c) (mainIdx c + 1) (sideIdx c) in
  if below (mainIdx c) (length (table c)) then
    entry ← at_ (table c) (mainIdx c);
    Ok (entry.1, c)
  else Ok (sentinel, c).

Definition beginSide (c : Cursor) (imain : Z) : result (Z * Cursor) :=
  entry ← at_ (table c) (mainIdx c);
  if negb (imain =? entry.1) || Nat.eqb (length entry.2) 0 then Ok (sentinel, c) else
  let c := mkCursor (table c) (mainIdx c) 0 in
  side ← at_ entry.2 (sideIdx c);
  Ok (side, c).

Definition nextSide (c : Cursor) (imain : Z) : result (Z * Cursor) :=
  entry ← at_ (table c) (mainIdx c);
  if negb (imain =? entry.1) then Ok (sentinel, c) else
  let c := mkCursor (table c) (mainIdx c) (sideIdx c + 1) in
  if negb (below (sideIdx c) (length entry.2)) then Ok (sentinel, c) else
  side ← at_ entry.2 (sideIdx c);
  Ok (side, c).

End Heuristic.

(** ** [Heuristic::filterPoints] *)

(** The rows of [points] and [normals] are only moved around, so their
    types are left open.  The search structure of FLANN and OpenCV's
    [cv::sortIdx] are inputs of the model: [search i] is the content of
    [indices] and [distances] after [radiusSearch] for point [i], and
    [sortIdx density] is the content of [order] after the call. *)
Section FilterPoints.
Context `{Fl : Floating} {PointRow NormalRow : Type}.
Variable sortIdx : list float -> list nat.

(** [Neighbor] is [std::pair<int, float>]. *)
Definition Neighbor : Type := (Z * float)%type.

(** [1. - dist/radius], computed in [double] and returned as [float]. *)
Definition densityFn (dist radius : float) : float :=
  d2f (d_sub (d_of_int 1) (f2d (f_div dist radius))).

(** The entries before [end], the first negative index. *)
Fixpoint found (results : list (Z * float)) : list (Z * float) :=
  match results with
  | [] => []
  | p :: rest => if 0 <=? p.1 then p :: found rest else []
  end.

(** The neighbors pushed for point [i]. *)
Definition pushed (radius : float) (i : nat) (results : list (Z * float))
    : list Neighbor :=
  omap (fun p : Z * float =>
          if (p.1 <? Z.of_nat i) && f_leb p.2 radius
          then Some (p.1, densityFn p.2 radius)
          else None)
       (found results).

(** The table: [neighborBlocks] and the flat array [neighbors]. *)
Record NeighborTable : Type := mkTable {
  neighborBlocks : list nat;
  neighbors : list Neighbor
}.

Fixpoint prepare (radius : float) (search : nat -> list (Z * float))
    (todo : list nat) (t : NeighborTable) : NeighborTable :=
  match todo with
  | [] => t
  | i :: rest =>
      prepare radius search rest
        (mkTable (<[i := length (neighbors t)]> (neighborBlocks t))
                 (neighbors t ++ pushed radius i (search i)))
  end.

Definition neighborTable (radius : float) (search : nat -> list (Z * float))
    (pointCount : nat) : NeighborTable :=
  let t := prepare radius search (seq 0 pointCount)
             (mkTable (replicate (pointCount + 1) 0%nat) []) in
  mkTable (<[pointCount := length (neighbors t)]> (neighborBlocks t)) (neighbors t).

(** [neighbors[neighborBlocks[i]], ..., neighbors[neighborBlocks[i+1]-1]] *)
Definition block (t : NeighborTable) (i : nat) : list Neighbor :=
  let lo := neighborBlocks t !!! i in
  let hi := neighborBlocks t !!! (i + 1)%nat in
  take (hi - lo) (drop lo (neighbors t)).

(** The body of the inner loop of the density iteration. *)
Definition accumulate (density : list float) (i : nat)
    (st : float * list float * double) (nb : Neighbor)
    : float * list float * double :=
  let '(densityTemp, score, sum) := st in
  let k := Z.to_nat nb.1 in
  (f_add densityTemp (f_mul (density !!! k) nb.2),
   <[k := f_add (score !!! k) (f_mul (density !!! i) nb.2)]> score,
   d_add sum (f2d (f_mul (f_add (density !!! i) (density !!! k)) nb.2))).

Definition accumulatePoint (t : NeighborTable) (density : list float)
    (st : list float * double) (i : nat) : list float * double :=
  let '(densityTemp, score, sum) :=
    foldl (accumulate density i) (f_zero, st.1, st.2) (block t i) in
  (<[i := f_add (score !!! i) densityTemp]> score, sum).

(** The clamping and the accumulation of [change] for point [i]. *)
Definition normalize (score : list float) (normalizer : float)
    (st : list float * double) (i : nat) : list float * double :=
  let '(density, change) := st in
  let normalizedDensity := f_mul (score !!! i) normalizer in
  let normalizedDensity :=
    if d_ltb (d_of_int 2) (f2d normalizedDensity)
    then d2f (d_of_int 2) else normalizedDensity in
  (<[i := normalizedDensity]> density,
   d_add change (f2d (pow2 (f_sub (density !!! i) normalizedDensity)))).

(** One round of the [do ... while] loop: the new density, the score
    and [change]. *)
Definition densityRound (t : NeighborTable) (pointCount : nat)
    (density : list float) : list float * list float * double :=
  let '(score, sum) :=
    foldl (accumulatePoint t density)
          (replicate pointCount f_zero, d_of_int 0) (seq 0 pointCount) in
  let normalizer := d2f (d_div (d_of_int (Z.of_nat pointCount)) sum) in
  let '(density, change) :=
    foldl (normalize score normalizer) (density, d_of_int 0) (seq 0 pointCount) in
  (density, score, d_div change (d_of_int (Z.of_nat pointCount))).

(** The literal [1e-6]. *)
Definition epsilon : double := d_div (d_of_int 1) (d_of_int 1000000).

(** The [do ... while (change > 1e-6 && densityIterationNo < 200)] loop;
    [more] is the number of rounds still allowed after the current one. *)
Fixpoint densityLoop (more : nat) (t : NeighborTable) (pointCount : nat)
    (density : list float) : list float * list float :=
  let '(density, score, change) := densityRound t pointCount density in
  match more with
  | O => (density, score)
  | S more' =>
      if d_ltb epsilon change
      then densityLoop more' t pointCount density
      else (density, score)
  end.

(** [const float densityLimit = .7] *)
Definition densityLimit : float := d2f (d_div (d_of_int 7) (d_of_int 10)).

(** "subtract density to get rid of close neighbors" *)
Definition suppress (localDensity : double) (score : list float) (nb : Neighbor)
    : list float :=
  let k := Z.to_nat nb.1 in
  <[k := d2f (d_sub (f2d (score !!! k)) (d_mul localDensity (f2d nb.2)))]> score.

(** The body of the selection loop over [order]. *)
Definition select (t : NeighborTable) (density : list float)
    (st : list float * list nat * nat) (i : nat) : list float * list nat * nat :=
  let '(score, order, writeIndex) := st in
  let ord := order !!! i in
  if f_ltb (score !!! ord) densityLimit then st else
  let localDensity := f2d (density !!! ord) in
  let score := foldl (suppress localDensity) score (block t ord) in
  let order := if (writeIndex <? i)%nat then <[writeIndex := order !!! i]> order else order in
  (score, order, S writeIndex).

(** [order] after [std::sort(order.begin(), order.begin() + writeIndex)],
    and [writeIndex]. *)
Definition retained (t : NeighborTable) (pointCount : nat) : list nat * nat :=
  let '(density, score) :=
    densityLoop 199 t pointCount (replicate pointCount f_one) in
  let '(_, order, writeIndex) :=
    foldl (select t density) (score, sortIdx density, 0%nat) (seq 0 pointCount) in
  (merge_sort le (take writeIndex order) ++ drop writeIndex order, writeIndex).

(** [rows.row(order[i]).copyTo(rows.row(i))] when [order[i] > i]. *)
Definition moveRow {A} (order : list nat) (rows : list A) (i : nat) : list A :=
  let src := order !!! i in
  if (i <? src)%nat
  then match rows !! src with
       | Some r => <[i := r]> rows
       | None => rows
       end
  else rows.

(** The compaction of one of the two matrices, with its [resize]. *)
Definition compactRows {A} (order : list nat) (writeIndex : nat) (rows : list A)
    : list A :=
  take writeIndex (foldl (moveRow order) rows (seq 0 writeIndex)).

(** [alpha] is [alphaVals.back()]. *)
Definition filterPoints (alpha : float) (search : nat -> list (Z * float))
    (points : list PointRow) (normals : list NormalRow)
    : list PointRow * list NormalRow :=
  let pointCount := length points in
  let radius := d2f (d_div (f2d alpha) (d_of_int 4)) in
  let t := neighborTable radius search pointCount in
  let '(order, writeIndex) := retained t pointCount in
  (compactRows order writeIndex points, compactRows order writeIndex normals).

End FilterPoints.

(** ** The face draw of [Heuristic::chooseCameras] *)

Section FaceDraw.
Context `{Fl : Floating}.

(** The loop that fills [areaSum]: [areaSum[i+1] = areaSum[i] + faceArea(...)].
    [faceAreas] are the values of [faceArea] for the faces of the mesh, in
    order, and [i] is the loop counter. *)
Fixpoint areaSum_from (faceAreas : list float) (i : Z) (areaSum : list float)
    : result (list float) :=
  match faceAreas with
  | [] => Ok areaSum
  | area :: rest =>
      prev ← at_ areaSum i;
      areaSum ← set_at areaSum (i + 1) (f_add prev area);
      areaSum_from rest (i + 1) areaSum
  end.

(** "select a face by weighted randomness": the value of [chosenIdx];
    [r] is the value of [cv::randu<float>()]. *)
Definition chooseFace (faceAreas : list float) (r : float) : result Z :=
  areaSum ← areaSum_from faceAreas 0
               (replicate (length faceAreas + 1) f_zero);
  totalArea ← back areaSum;
  let choice := f_mul r totalArea in
  Ok (bisect areaSum choice).

End FaceDraw.

(** ** The iteration controller *)

Section Controller.
Context `{Fl : Floating}.

(** The members [iteration] and [alphaVals] of [Heuristic]. *)
Record Controller : Type := mkController {
  iteration : Z;
  alphaVals : list float
}.

(** [Heuristic::Heuristic]: the counter starts at 0 and [alphaVals] is
    empty. *)
Definition newController : Controller := mkController 0 [].

(** [Heuristic::notHappy]; [iterationCount] is [config->iterationCount]. *)
Definition notHappy (iterationCount : Z) (h : Controller) : bool * Controller :=
  let h := mkController (iteration h + 1) (alphaVals h) in
  (iteration h <=? iterationCount, h).

(** The collaborator that [tessellate] takes the mesh from. *)
Inductive Surface : Type :=
| ReadMesh
| AlphaShape
| PoissonSurface.

(** [Heuristic::tessellate], as far as it concerns the controller: the
    collaborator that is called, and the value pushed to [alphaVals].
    [inMeshFile] tells whether [config->inMeshFile] is set, and [alpha] is
    the value that [alphaShapeFaces] stores through its pointer argument. *)
Definition tessellate (inMeshFile : bool) (alpha : float) (h : Controller)
    : result (Surface * Controller) :=
  if iteration h <=? 1 then
    if inMeshFile
    then Ok (ReadMesh, mkController (iteration h) (alphaVals h ++ [f_of_int 1]))
    else Ok (AlphaShape, mkController (iteration h) (alphaVals h ++ [alpha]))
  else
    last ← back (alphaVals h);
    Ok (PoissonSurface,
        mkController (iteration h) (alphaVals h ++ [f_div last (f_of_int 2)])).

End Controller.

(** ** [filterFinest] of pcl.cpp *)

(** The rows of [mesh.vertices] are only compared and moved, so their
    type is left open; [edge a b] is [cv::norm(a/a[3] - b/b[3])], the
    length of the edge between two vertex rows.  A row of [mesh.faces]
    is a triple of vertex positions. *)
Section FilterFinest.
Context `{Fl : Floating} {Row : Type}.
Variable edge : Row -> Row -> float.

Record Mesh : Type := mkMesh {
  vertices : list Row;
  faces : list (Z * Z * Z)
}.

(** [verts[j]] *)
Definition corner (f : Z * Z * Z) (j : nat) : Z :=
  match j with
  | 0%nat => f.1.1
  | 1%nat => f.1.2
  | _ => f.2
  end.

(** [verts[j] = v] *)
Definition setCorner (f : Z * Z * Z) (j : nat) (v : Z) : Z * Z * Z :=
  match j with
  | 0%nat => (v, f.1.2, f.2)
  | 1%nat => (f.1.1, v, f.2)
  | _ => (f.1.1, f.1.2, v)
  end.

(** The loop over the edges [js] of a face; it is left at the first edge
    that is longer than [size]. *)
Fixpoint goodEdges (vs : list Row) (size : float) (f : Z * Z * Z) (js : list nat)
    : result bool :=
  match js with
  | [] => Ok true
  | j :: rest =>
      a ← at_ vs (corner f j);
      b ← at_ vs (corner f ((j + 1) mod 3)%nat);
      if f_ltb size (edge a b) then Ok false else goodEdges vs size f rest
  end.

(** [goodVertices[verts[j]] = true] for the corners [js]. *)
Fixpoint markCorners (f : Z * Z * Z) (js : list nat) (goodVertices : list bool)
    : result (list bool) :=
  match js with
  | [] => Ok goodVertices
  | j :: rest =>
      goodVertices ← set_at goodVertices (corner f j) true;
      markCorners f rest goodVertices
  end.

(** "mark accepted faces and vertices touched by any of these"; [i] is
    the number of the first face of [fs]. *)
Fixpoint markFaces (vs : list Row) (size : float) (fs : list (Z * Z * Z)) (i : Z)
    (goodFaces goodVertices : list bool) : result (list bool * list bool) :=
  match fs with
  | [] => Ok (goodFaces, goodVertices)
  | f :: rest =>
      goodFace ← goodEdges vs size f [0; 1; 2]%nat;
      goodVertices ←
        (if goodFace then markCorners f [0; 1; 2]%nat goodVertices
         else Ok goodVertices);
      goodFaces ← set_at goodFaces i goodFace;
      markFaces vs size rest (i + 1) goodFaces goodVertices
  end.

(** The body of the loop that compacts the vertices; the state is
    [mesh.vertices], [reindex] and [writeIndex]. *)
Definition moveVertex (goodVertices : list bool)
    (st : list Row * list Z * nat) (i : nat) : list Row * list Z * nat :=
  let '(vs, reindex, writeIndex) := st in
  if (goodVertices !!! i : bool) then
    let vs :=
      if (writeIndex <? i)%nat
      then match vs !! i with
           | Some r => <[writeIndex := r]> vs
           | None => vs
           end
      else vs in
    (vs, <[i := Z.of_nat writeIndex]> reindex, S writeIndex)
  else st.

(** The assignments [dst[j] = reindex[src[j]]] for the corners [js], with
    their two assertions; [src] is row [i] and [dst] is row [writeIndex]
    of [mesh.faces], which may be the same row. *)
Fixpoint reindexCorners (goodVertices : list bool) (reindex : list Z)
    (i writeIndex : nat) (js : list nat) (fs : list (Z * Z * Z))
    : result (list (Z * Z * Z)) :=
  match js with
  | [] => Ok fs
  | j :: rest =>
      src ← at_ fs (Z.of_nat i);
      good ← at_ goodVertices (corner src j);
      _ ← assert good;
      new ← at_ reindex (corner src j);
      _ ← assert (0 <=? new);
      dst ← at_ fs (Z.of_nat writeIndex);
      fs ← set_at fs (Z.of_nat writeIndex) (setCorner dst j new);
      reindexCorners goodVertices reindex i writeIndex rest fs
  end.

(** The loop that compacts the faces, over the face numbers [todo]. *)
Fixpoint compactFaces (goodFaces goodVertices : list bool) (reindex : list Z)
    (todo : list nat) (fs : list (Z * Z * Z)) (writeIndex : nat)
    : result (list (Z * Z * Z) * nat) :=
  match todo with
  | [] => Ok (fs, writeIndex)
  | i :: rest =>
      if (goodFaces !!! i : bool) then
        fs ← reindexCorners goodVertices reindex i writeIndex [0; 1; 2]%nat fs;
        compactFaces goodFaces goodVertices reindex rest fs (S writeIndex)
      else compactFaces goodFaces goodVertices reindex rest fs writeIndex
  end.

(** "filter out all faces larger than given size, and their vertices" *)
Definition filterFinest (mesh : Mesh) (size : float) : result Mesh :=
  let vertexCount := length (vertices mesh) in
  let faceCount := length (faces mesh) in
  '(goodFaces, goodVertices) ←
    markFaces (vertices mesh) size (faces mesh) 0
      (replicate faceCount true) (replicate vertexCount false);
  let '(vs, reindex, writeIndex) :=
    foldl (moveVertex goodVertices)
          (vertices mesh, replicate vertexCount (-1), 0%nat) (seq 0 vertexCount) in
  let vs := take writeIndex vs in
  '(fs, writeIndex) ←
    compactFaces goodFaces goodVertices reindex (seq 0 faceCount) (faces mesh) 0%nat;
  Ok (mkMesh vs (take writeIndex fs)).

End FilterFinest.

(** ** Notions used by the statements *)

Section Notions.
Context `{Fl : Floating} `{Ex : !Externals}.

(** The normalised projection of the center of [camera] by [viewer]. *)
Definition centerFromViewer (viewer camera : Mat) : vec4 :=
  let cameraFromViewer := mat_vec viewer (extractCameraCenter camera) in
  vec_div cameraFromViewer (c3 cameraFromViewer).

(** A pair is "passed" once its accumulated vote is at least 1. *)
Definition passed (weights : gmap Z float) (k : Z) : Prop :=
  f_leb f_one (vote weights k) = true.


(** The number of side entries of a bundle table. *)
Definition sideEntries (chosen : list (Z * list Z)) : Z :=
  foldr (fun entry acc => Z.of_nat (length entry.2) + acc) 0 chosen.

(** Main and side differ, and no side occurs twice under a main. *)
Definition distinctSides (chosen : list (Z * list Z)) : Prop :=
  Forall (fun entry : Z * list Z => (entry.1 ∉ entry.2) /\ NoDup entry.2) chosen.

(** Every pair of the table is passed in the vote table. *)
Definition sidesPassed (w : gmap Z float) (chosen : list (Z * list Z)) : Prop :=
  Forall (fun entry : Z * list Z =>
            Forall (fun side => passed w (compact entry.1 side)) entry.2) chosen.

(** The count is the number of side entries, and every pair of the
    table is passed. *)
Definition counted (st : Selection) : Prop :=
  cameraCount st = sideEntries (chosenCameras st) /\
  sidesPassed (weights st) (chosenCameras st).


(** The value of a run that ends without a fault. *)
Definition outcome {A} (r : result A) (d : A) : A :=
  match r with
  | Ok a => a
  | Abort _ => d
  end.

Definition isOk {A} (r : result A) : bool :=
  match r with
  | Ok _ => true
  | Abort _ => false
  end.

End Notions.

Section FilterPointsNotions.
Context `{Fl : Floating}.

(** Point [i] has no neighbors: its own block is empty and no stored
    entry names it. *)
Definition neighborless (t : NeighborTable) (i : nat) : Prop :=
  block t i = [] /\ Forall (fun nb : Neighbor => Z.to_nat nb.1 <> i) (neighbors t).

(** The state of the selection loop before iteration [i], relative to
    the content [order0] of [order] before the loop. *)
Definition selecting (order0 : list nat) (i : nat)
    (st : list float * list nat * nat) : Prop :=
  (st.2 <= i)%nat /\
  length st.1.2 = length order0 /\
  (forall j, (i <= j)%nat -> st.1.2 !! j = order0 !! j) /\
  take st.2 st.1.2 `sublist_of` take i order0.

(** A [sortIdx]: the positions of [density] in descending order of their
    values, ties in ascending order of position. *)
Definition notBelow (density : list float) (i j : nat) : Prop :=
  f_ltb (density !!! i) (density !!! j) = false.

#[global] Instance notBelow_dec density : RelDecision (notBelow density).
Proof. intros i j. unfold notBelow. apply _. Defined.

Definition sortIdx_descending (density : list float) : list nat :=
  merge_sort (notBelow density) (seq 0 (length density)).

End FilterPointsNotions.

(** ** Notions for the weighted draws *)

Section DrawNotions.
Context `{Fl : Floating} `{Ex : !Externals}.

(** The running sums [acc + x1], [acc + x1 + x2], ... that the loops
    over [areaSum] and [weightSum] store. *)
Fixpoint runningSums (acc : float) (xs : list float) : list float :=
  match xs with
  | [] => []
  | x :: rest => f_add acc x :: runningSums (f_add acc x) rest
  end.

(** The drawn value is not below 0 and some entry of [sums] exceeds it. *)
Definition hits (choice : float) (sums : list float) : Prop :=
  f_ltb choice f_zero = false /\ Exists (fun x => f_ltb choice x = true) sums.

(** No entry of [0 :: sums] up to position [k] exceeds the drawn value,
    and the entry at position [k + 1] does. *)
Definition drawnAt (choice : float) (sums : list float) (k : nat) : Prop :=
  Forall (fun x => f_ltb choice x = false) (take (S k) (f_zero :: sums)) /\
  exists hi, sums !! k = Some hi /\ f_ltb choice hi = true.

(** The weight of a label in [chooseMain] before the boost, and with it. *)
Definition unboostedMain (label : CameraLabel) : float :=
  f_div (cosFromViewer label) (pow2 (distance label)).

Definition mainWeight (weights : gmap Z float) (boostFactor : float) (n : Z)
    (label : CameraLabel) : float :=
  let weight := unboostedMain label in
  if count weights (compact (index label) (index label))
  then f_add weight (f_mul (f_mul weight boostFactor) (f_of_int n))
  else weight.

(** The weight of a label in [chooseSide] before the boost, and with it. *)
Definition unboostedSide (mainCamera label : CameraLabel) : float :=
  let parallaxSqr :=
    f_div (f_add (pow2 (f_sub (viewX label) (viewX mainCamera)))
                 (pow2 (f_sub (viewY label) (viewY mainCamera))))
          focal in
  f_div (f_mul (cosFromViewer label) parallaxSqr) (pow2 (distance label)).

Definition sideWeight (weights : gmap Z float) (mainCamera : CameraLabel)
    (boostFactor : float) (n : Z) (label : CameraLabel) : float :=
  let weight := unboostedSide mainCamera label in
  let compactIndex := compact (index mainCamera) (index label) in
  if count weights compactIndex && f_leb f_one (vote weights compactIndex)
  then f_add weight (f_mul (f_mul weight boostFactor) (f_of_int n))
  else weight.

(** The labels that [chooseSide] draws from. *)
Definition others (mainCamera : CameraLabel) (filteredCameras : LabelledCameras)
    : list CameraLabel :=
  filter (fun l => index l <> index mainCamera) filteredCameras.*1.

End DrawNotions.

(** ** Notions for the visibility filter *)

Section FilterNotions.
Context `{Fl : Floating} `{Ex : !Externals}.

(** What [filterCameras] establishes about the label [l] that it gives
    to [camera]: the camera center lies in the depth range of the viewer
    and is not hidden at its pixel of the depth buffer, the viewer's
    center lies in the image of the camera at an axial distance that is
    not negative, and the label carries the normalised image coordinates
    of the camera center, that distance and the cosine. *)
Definition labelled (viewer : Mat) (depth : DepthBuffer) (camera : Mat)
    (l : CameraLabel) : Prop :=
  let cfv := centerFromViewer viewer camera in
  let viewerCenter := extractCameraCenter viewer in
  let viewerFromCamera := mat_vec camera viewerCenter in
  let vfc := vec_div viewerFromCamera (c3 viewerFromCamera) in
  (f_ltb f_one (c2 cfv) = false /\ f_ltb (c2 cfv) (f_of_int (-1)) = false) /\
  (exists row col obstacleDepth,
     pixel (c1 cfv) (depth_rows depth) = Ok row /\
     pixel (c0 cfv) (depth_cols depth) = Ok col /\
     depth_at depth row col = Ok obstacleDepth /\
     (f_eqb obstacleDepth backgroundDepth = true \/
      f_leb obstacleDepth (c2 cfv) = false)) /\
  (f_ltb (c0 vfc) (f_of_int (-1)) = false /\ f_ltb f_one (c0 vfc) = false /\
   f_ltb (c1 vfc) (f_of_int (-1)) = false /\ f_ltb f_one (c1 vfc) = false) /\
  viewX l = c0 cfv /\
  viewY l = c1 cfv /\
  distance l = f_div (c3 viewerFromCamera) (c3 viewerCenter) /\
  f_ltb (distance l) f_zero = false /\
  cosFromViewer l =
    f_sqrt (f_div f_one
              (f_add f_one
                 (f_div (f_add (f_mul (c0 cfv) (c0 cfv)) (f_mul (c1 cfv) (c1 cfv)))
                        (f_mul focal focal)))).

End FilterNotions.

(** ** Notions for the cursor and the controller *)

Section CursorNotions.
Context `{Fl : Floating} `{Ex : !Externals}.

(** The result of call number [k] in the sequence [beginMain()],
    [nextMain()], [nextMain()], ... *)
Fixpoint mainCall (k : nat) (c : Cursor) : result (Z * Cursor) :=
  match k with
  | O => beginMain c
  | S k => '(_, c) ← mainCall k c; nextMain c
  end.

(** The result of call number [j] in the sequence [beginSide(imain)],
    [nextSide(imain)], [nextSide(imain)], ... *)
Fixpoint sideCall (j : nat) (c : Cursor) (imain : Z) : result (Z * Cursor) :=
  match j with
  | O => beginSide c imain
  | S j => '(_, c) ← sideCall j c imain; nextSide c imain
  end.

End CursorNotions.

Section ControllerNotions.
Context `{Fl : Floating}.

(** The controller along the loop
    [while (notHappy(points)) { ... tessellate(points, normals) ... }];
    [alphas] are the values that [alphaShapeFaces] would store, round by
    round.  The result lists the collaborators that were called. *)
Fixpoint rounds (iterationCount : Z) (inMeshFile : bool) (alphas : list float)
    (h : Controller) : result (list Surface * Controller) :=
  match alphas with
  | [] => Ok ([], h)
  | alpha :: rest =>
      let '(go, h) := notHappy iterationCount h in
      if (go : bool) then
        '(s, h) ← tessellate inMeshFile alpha h;
        '(ss, h) ← rounds iterationCount inMeshFile rest h;
        Ok (s :: ss, h)
      else Ok ([], h)
  end.

(** [a], [a / 2], [a / 2 / 2], ...: [n] values. *)
Fixpoint halvings (a : float) (n : nat) : list float :=
  match n with
  | O => []
  | S n => a :: halvings (f_div a (f_of_int 2)) n
  end.

End ControllerNotions.

(** ** Notions for the neighbor table *)

Section PointsNotions.
Context `{Fl : Floating}.

(** The content of [neighbors] after the points below [k] have been
    searched. *)
Definition neighborsBelow (radius : float) (search : nat -> list (Z * float))
    (k : nat) : list Neighbor :=
  seq 0 k ≫= (fun i => pushed radius i (search i)).

End PointsNotions.

(** ** Notions for [filterFinest] *)

Section FinestNotions.
Context `{Fl : Floating} {Row : Type}.
Variable edge : Row -> Row -> float.

(** The entries of [l] whose flag is set. *)
Fixpoint keep {A} (flags : list bool) (l : list A) : list A :=
  match flags, l with
  | b :: flags, x :: l => if b then x :: keep flags l else keep flags l
  | _, _ => []
  end.

(** The number of flags set before position [i]. *)
Fixpoint rank (flags : list bool) (i : nat) : nat :=
  match flags, i with
  | b :: flags, S i => (if b then 1 else 0) + rank flags i
  | _, _ => 0
  end.

(** The three corners of a face are vertices and none of its edges is
    longer than [size]. *)
Definition fine (vs : list Row) (size : float) (f : Z * Z * Z) : bool :=
  match at_ vs f.1.1, at_ vs f.1.2, at_ vs f.2 with
  | Ok a, Ok b, Ok c =>
      negb (f_ltb size (edge a b)) && negb (f_ltb size (edge b c))
      && negb (f_ltb size (edge c a))
  | _, _, _ => false
  end.

(** Vertex [v] is a corner of face [f]. *)
Definition cornerOf (f : Z * Z * Z) (v : nat) : Prop :=
  exists j, (j < 3)%nat /\ corner f j = Z.of_nat v.

(** The corners of a face are positions of a vector of length [n]. *)
Definition cornersInRange (n : nat) (f : Z * Z * Z) : Prop :=
  forall j, (j < 3)%nat -> 0 <= corner f j < Z.of_nat n.

(** Every corner of every face is a vertex of the mesh. *)
Definition wellFormed (mesh : @Mesh Row) : Prop :=
  Forall (cornersInRange (length (vertices mesh))) (faces mesh).

(** A face with its corners renumbered by their rank among the flagged
    vertices. *)
Definition reface (flags : list bool) (f : Z * Z * Z) : Z * Z * Z :=
  (Z.of_nat (rank flags (Z.to_nat f.1.1)),
   Z.of_nat (rank flags (Z.to_nat f.1.2)),
   Z.of_nat (rank flags (Z.to_nat f.2))).

(** The vertices flagged by the marking loop: the corners of the fine
    faces. *)
Definition flagged (mesh : @Mesh Row) (size : float) (gv : list bool) : Prop :=
  length gv = length (vertices mesh) /\
  forall v, gv !! v = Some true <->
            exists f, f ∈ faces mesh /\ fine (vertices mesh) size f = true /\
                      cornerOf f v.

End FinestNotions.

(** ** Concrete inputs *)

(** An implementation of [Externals] in which a matrix is given by the
    two things the source asks of it: its optical center and its action
    on homogeneous points. *)
Definition canned `{Fl : Floating} (background : float) (sentinel : Z) : Externals := {|
  Mat := (float * float * float * float) * ((float * float * float * float) -> (float * float * float * float));
  extractCameraCenter := fun M => M.1;
  mat_vec := fun M => M.2;
  backgroundDepth := background;
  sentinel := sentinel
|}.

Module Examples.
Import IEEE.

(** Binary32 values. *)
Definition fl (z : Z) : spec_float := of_int 24 128 z.
Definition ratio (a b : Z) : spec_float := SFdiv 24 128 (fl a) (fl b).

#[export] Instance externals : Externals (H := binary) := canned (fl 1) (-1).

(** Three points: 0 and 1 are neighbors at half the radius, 2 is alone.
    Every search also finds the point itself. *)
Definition search3 (i : nat) : list (Z * spec_float) :=
  match i with
  | 0%nat => [(0, fl 0); (1, ratio 1 2); (-1, fl 0)]
  | 1%nat => [(1, fl 0); (0, ratio 1 2); (-1, fl 0)]
  | _ => [(2, fl 0); (-1, fl 0); (-1, fl 0)]
  end.


(** A 480 x 640 depth buffer that shows only background. *)
Definition emptyDepth : DepthBuffer := mkDepth 480 640 (fun _ _ => fl 1).

(** A matrix with optical center [center] that maps every point to [image]. *)
Definition constant (center image : spec_float * spec_float * spec_float * spec_float)
    : Mat :=
  (center, fun _ => image).

Definition origin : spec_float * spec_float * spec_float * spec_float :=
  (fl 0, fl 0, fl 0, fl 1).

(** A viewer that sees every camera center in the middle of its image,
    and one that sees it on the right edge ([x = 1]). *)
Definition viewerCentre : Mat := constant origin (fl 0, fl 0, fl 0, fl 1).
Definition viewerEdge : Mat := constant origin (fl 1, fl 0, fl 0, fl 1).

(** A camera that has the viewer's center on its axis at distance 1, and
    one whose own center coincides with it (distance 0). *)
Definition cameraAhead : Mat := constant (fl 0, fl 0, fl 5, fl 1) (fl 0, fl 0, fl 1, fl 1).

(** The labels of two cameras seen in the same direction. *)
Definition label0 : CameraLabel := mkLabel 0 (fl 1) (fl 1) (fl 0) (fl 0).
Definition label1 : CameraLabel := mkLabel 1 (fl 1) (fl 1) (fl 0) (fl 0).

(** A camera label at infinite distance. *)
Definition labelFar : CameraLabel := mkLabel 0 (fl 1) (ratio 1 0) (fl 0) (fl 0).

Definition config : Configuration := mkConfig 640 480 (ratio 1 2).


(** A viewer that sees every camera center where the center is, and a
    camera at [(x, y, 0)] that has the viewer's center on its axis at
    distance 1. *)
Definition viewerThrough : Mat := (origin, fun c => c).
Definition cameraAt (x y : spec_float) : Mat :=
  constant (x, y, fl 0, fl 1) (fl 0, fl 0, fl 1, fl 1).

Definition threeCameras : list Mat :=
  [cameraAt (ratio 1 2) (fl 0); cameraAt (ratio (-1) 2) (fl 0);
   cameraAt (fl 0) (ratio 1 2)].

(** Iteration [i] draws [(i mod 5) / 5] and [(i mod 7) / 7]. *)
Definition shotsA (i : nat) : Shot :=
  mkShot viewerThrough emptyDepth
    (ratio (Z.of_nat i mod 5) 5) (ratio (Z.of_nat i mod 7) 7).

End Examples.

(** ** Concrete inputs for the further properties *)

Module FurtherExamples.
Import IEEE Examples.

(** A label to the right of [label0] in the view, and one whose index is
    not among the others. *)
Definition labelRight : CameraLabel := mkLabel 1 (fl 1) (fl 1) (fl 1) (fl 0).
Definition labelAbsent : CameraLabel := mkLabel 5 (fl 1) (fl 1) (fl 0) (fl 0).

Definition twoLabels : LabelledCameras :=
  [(label0, cameraAhead); (labelRight, cameraAhead)].

(** A bundle table. *)
Definition bundles : list (Z * list Z) := [(4, [5; 6]); (7, [4])].

(** Vertices on a line, with the distance between them as the length of
    an edge: the first face has the far vertex as a corner. *)
Definition gap (a b : Z) : spec_float := fl (Z.abs (a - b)).
Definition strip : Mesh := mkMesh [100; 0; 1; 2] [(0, 1, 2); (1, 2, 3); (3, 1, 2)].

(** The labelled cameras of [threeCameras] that the viewer sees. *)
Definition seen : LabelledCameras :=
  Eval vm_compute in outcome (filterCameras viewerThrough emptyDepth threeCameras) [].

End FurtherExamples.

(** * Properties *)

(** ** The composite key *)

Lemma compact_value (i j : Z) :
  0 <= i < 2 ^ 16 -> 0 <= j < 2 ^ 16 -> compact i j = i * 2 ^ 16 + j.
Proof.
  intros Hi Hj. unfold compact, to_ushort, short_bits.
  rewrite (Z.mod_small i), (Z.mod_small j) by lia.
  rewrite Z.shiftl_mul_pow2 by lia.
  rewrite (Z.mod_small (i * 2 ^ 16)) by lia.
  apply Z.mod_small. lia.
Qed.

Lemma compact_inj (i j i' j' : Z) :
  0 <= i < 2 ^ 16 -> 0 <= j < 2 ^ 16 ->
  0 <= i' < 2 ^ 16 -> 0 <= j' < 2 ^ 16 ->
  compact i j = compact i' j' -> i = i' /\ j = j'.
Proof.
  intros Hi Hj Hi' Hj'. rewrite !compact_value by assumption. lia.
Qed.

Section KeyProperties.
Context `{Fl : Floating}.

Lemma vote_insert_eq (w : gmap Z float) (k : Z) (v : float) :
  vote (<[k := v]> w) k = v.
Proof. unfold vote. by rewrite lookup_insert_eq. Qed.

Lemma vote_insert_ne (w : gmap Z float) (k k' : Z) (v : float) :
  k <> k' -> vote (<[k := v]> w) k' = vote w k'.
Proof. intros H. unfold vote. by rewrite lookup_insert_ne. Qed.

(** C3, as the code has it: the key is that of the ordered pair
    (main, side).  For indices that fit an [unsigned short], two keys
    agree only if both indices agree in order, so the key of (i, j) is
    the key of (j, i) only when [i = j], and a vote stored under (i, j)
    does not change what is read under (j, i). *)
Theorem compact_ordered (i j i' j' : Z)
    (Hi : 0 <= i < 2 ^ 16) (Hj : 0 <= j < 2 ^ 16)
    (Hi' : 0 <= i' < 2 ^ 16) (Hj' : 0 <= j' < 2 ^ 16) :
  (compact i j = compact i' j' <-> i = i' /\ j = j') /\
  (compact i j = compact j i <-> i = j) /\
  (i <> j -> forall (w : gmap Z float) (v : float),
     vote (<[compact i j := v]> w) (compact j i) = vote w (compact j i)).
Proof.
  split; [|split]; [split | split |].
  - by apply compact_inj.
  - by intros [-> ->].
  - intros Heq. by apply compact_inj in Heq as [? _].
  - by intros ->.
  - intros Hne w v. apply vote_insert_ne. intros Heq.
    by apply compact_inj in Heq as [? _].
Qed.

End KeyProperties.

Lemma compact_ordered_witness :
  (compact 3 7 = compact 3 7 <-> 3 = 3 /\ 7 = 7) /\
  (compact 3 7 = compact 7 3 <-> 3 = 7) /\
  (3 <> 7 -> forall (w : gmap Z (float (Floating := IEEE.binary))) v,
     vote (<[compact 3 7 := v]> w) (compact 7 3) = vote w (compact 7 3)).
Proof. apply (compact_ordered (Fl := IEEE.binary) 3 7 3 7); lia. Defined.

(** C3, as stated, fails: the keys of (main = 0, side = 1) and of
    (main = 1, side = 0) differ, and a vote stored under the first is not
    read back under the second. *)
Lemma compact_not_symmetric :
  compact 0 1 <> compact 1 0 /\
  vote (Fl := IEEE.binary) (<[compact 0 1 := Examples.fl 1]> ∅) (compact 1 0)
    = Examples.fl 0.
Proof. split; [discriminate | reflexivity]. Qed.

(** ** The cursor over the bundle table *)

Section CursorProperties.
Context `{Fl : Floating} `{Ex : !Externals}.

Lemma at_lookup {A} (v : list A) (i : Z) (a : A) :
  0 <= i -> v !! Z.to_nat i = Some a -> at_ v i = Ok a.
Proof.
  intros Hi Hv. unfold at_.
  destruct (Z.ltb_spec i 0); [lia |]. by rewrite Hv.
Qed.

Lemma at_Ok {A} (v : list A) (i : Z) (a : A) :
  at_ v i = Ok a -> 0 <= i /\ v !! Z.to_nat i = Some a.
Proof.
  unfold at_. destruct (Z.ltb_spec i 0); [discriminate |].
  destruct (v !! Z.to_nat i) eqn:E; [|discriminate].
  intros [= ->]. by split.
Qed.

(** C8: [beginMain] on an empty table, [nextMain] from the last entry
    (or beyond it), and [beginSide] and [nextSide] called with an index
    other than that of the current main entry all return the sentinel;
    the side calls leave the cursor where it is. *)
Theorem cursor_sentinel (c1 c2 c3 : Cursor) (imain : Z) (entry : Z * list Z)
    (Hempty : table c1 = [])
    (Hlast : Z.of_nat (length (table c2)) <= mainIdx c2 + 1)
    (Hpos : 0 <= mainIdx c3)
    (Hentry : table c3 !! Z.to_nat (mainIdx c3) = Some entry)
    (Hmismatch : imain <> entry.1) :
  beginMain c1 = Ok (sentinel, c1) /\
  nextMain c2 = Ok (sentinel, mkCursor (table c2) (mainIdx c2 + 1) (sideIdx c2)) /\
  beginSide c3 imain = Ok (sentinel, c3) /\
  nextSide c3 imain = Ok (sentinel, c3).
Proof.
  repeat split.
  - unfold beginMain. by rewrite Hempty.
  - unfold nextMain, below. cbn.
    destruct (Z.ltb_spec (mainIdx c2 + 1) (Z.of_nat (length (table c2)))); [lia |].
    by rewrite andb_false_r.
  - unfold beginSide. rewrite (at_lookup _ _ _ Hpos Hentry). cbn.
    destruct (Z.eqb_spec imain entry.1); [done |]. done.
  - unfold nextSide. rewrite (at_lookup _ _ _ Hpos Hentry). cbn.
    destruct (Z.eqb_spec imain entry.1); [done |]. done.
Qed.

End CursorProperties.

(** From here on, closed statements are evaluated with the IEEE
    implementation of [Floating] and the externals of [Examples]. *)
Import IEEE Examples.

Lemma cursor_sentinel_witness :
  let c1 := mkCursor [] 0 0 in
  let c23 := mkCursor [(4, [5; 6]); (7, [4])] 1 0 in
  beginMain c1 = Ok (-1, c1) /\
  nextMain c23 = Ok (-1, mkCursor (table c23) 2 0) /\
  beginSide c23 4 = Ok (-1, c23) /\
  nextSide c23 4 = Ok (-1, c23).
Proof.
  intros c1 c23.
  apply (cursor_sentinel (Ex := Examples.externals) c1 c23 c23 4 (7, [4]));
    [reflexivity | cbn; lia | cbn; lia | reflexivity | cbn; lia].
Defined.

(** ** The visibility filter *)

Section FilterProperties.
Context `{Fl : Floating} `{Ex : !Externals}.

(** A camera whose pixel lies above, below or left of the buffer, or in
    a column beyond [depth.cols], is skipped before the buffer is read. *)
Lemma visible_rejects_outside (viewer camera : Mat) (depth : DepthBuffer)
    (i row col : Z) :
  pixel (c1 (centerFromViewer viewer camera)) (depth_rows depth) = Ok row ->
  pixel (c0 (centerFromViewer viewer camera)) (depth_cols depth) = Ok col ->
  row < 0 \/ depth_rows depth <= row \/ col < 0 \/ depth_cols depth < col ->
  visible viewer depth i camera = Ok None.
Proof.
  unfold centerFromViewer. intros Hrow Hcol Hout. unfold visible.
  destruct (_ || _) eqn:Hz; [done |].
  rewrite Hrow, Hcol. cbn.
  destruct (Z.ltb_spec row 0), (Z.leb_spec (depth_rows depth) row),
    (Z.ltb_spec col 0), (Z.ltb_spec (depth_cols depth) col); cbn; try done; lia.
Qed.

(** A camera in the viewer's depth range whose pixel has a valid row and
    the column [depth.cols] is not skipped: the buffer is read outside
    its bounds. *)
Lemma visible_reads_outside (viewer camera : Mat) (depth : DepthBuffer)
    (i row : Z) :
  f_ltb f_one (c2 (centerFromViewer viewer camera)) = false ->
  f_ltb (c2 (centerFromViewer viewer camera)) (f_of_int (-1)) = false ->
  pixel (c1 (centerFromViewer viewer camera)) (depth_rows depth) = Ok row ->
  0 <= row < depth_rows depth ->
  0 <= depth_cols depth ->
  pixel (c0 (centerFromViewer viewer camera)) (depth_cols depth)
    = Ok (depth_cols depth) ->
  visible viewer depth i camera = Abort OutOfBounds.
Proof.
  unfold centerFromViewer. intros Hz1 Hz2 Hrow Hr Hc Hcol. unfold visible.
  rewrite Hz1, Hz2, Hrow, Hcol. cbn. unfold depth_at.
  destruct (Z.ltb_spec row 0), (Z.leb_spec (depth_rows depth) row),
    (Z.ltb_spec (depth_cols depth) 0), (Z.ltb_spec (depth_cols depth) (depth_cols depth)),
    (Z.leb_spec 0 row), (Z.ltb_spec row (depth_rows depth)),
    (Z.leb_spec 0 (depth_cols depth)); cbn; try done; lia.
Qed.

(** A camera with negative axial distance is never labelled. *)
Lemma visible_rejects_behind (viewer camera : Mat) (depth : DepthBuffer)
    (i : Z) (l : CameraLabel * Mat) :
  visible viewer depth i camera = Ok (Some l) ->
  f_ltb (distance l.1) f_zero = false.
Proof.
  unfold visible.
  destruct (_ || _); [done |].
  destruct (pixel _ (depth_rows depth)) as [row|]; [cbn | done].
  destruct (pixel _ (depth_cols depth)) as [col|]; [cbn | done].
  destruct (_ || _); [done |].
  destruct (depth_at depth row col) as [d|]; [cbn | done].
  destruct (_ && _); [done |].
  destruct (f_ltb _ f_zero) eqn:Hd; [done |].
  destruct (_ || _); [done |].
  by intros [= <-].
Qed.

End FilterProperties.

(** C6, at a camera center that the viewer sees on the right edge of its
    image: column [(1 + 1) * 640 / 2 = 640] passes the test
    [col > depth.cols] and the 480 x 640 buffer is read at column 640. *)
Theorem filterCameras_reads_past_last_column :
  pixel (c0 (centerFromViewer viewerEdge cameraAhead)) 640 = Ok 640 /\
  filterCameras viewerEdge emptyDepth [cameraAhead] = Abort OutOfBounds.
Proof. split; reflexivity. Qed.


(** ** The weighted draw *)

Section DrawProperties.
Context `{Fl : Floating}.

(** When no entry of the list exceeds the drawn value, [bisect] returns
    the size of the list. *)
Lemma bisect_from_no_greater (l : list float) (choice : float) (i : Z) :
  Forall (fun x => f_ltb choice x = false) l ->
  bisect_from i l choice = i + Z.of_nat (length l).
Proof.
  intros Hl. revert i. induction Hl as [|x l Hx _ IH]; intros i; cbn.
  - lia.
  - rewrite Hx, IH. lia.
Qed.

End DrawProperties.

(** C5, at a zero total weight.  [chooseSide] with two cameras seen in
    the same direction: the one side weight is 0, [bisect] returns the
    size of [weightSum] and the assertion on the drawn position fails.
    [chooseMain] with a camera at infinite distance: [bisect] returns
    the size of [weightSum] and [filteredCameras] is read outside its
    range.  The loop of [chooseCameras] with two cameras that share
    their optical center stops on the failed assertion. *)
Theorem zero_weight_draw_fails :
  let filtered := [(label0, cameraAhead); (label1, cameraAhead)] in
  chooseSide_weights ∅ label0 (fl 1) 2 filtered (mkSide [fl 0; fl 0] [] (fl 0) 0)
    = Ok (mkSide [fl 0; fl 0] [label1] (fl 0) 1) /\
  bisect [fl 0; fl 0] (f_mul (ratio 1 4) (fl 0)) = 2 /\
  chooseSide ∅ label0 (fl 1) (fl 1) filtered (ratio 1 4) = Abort AssertionFailed /\
  chooseMain ∅ [(labelFar, cameraAhead)] (fl 1) (ratio 1 4) = Abort OutOfBounds /\
  shotStep config (fl 1) [cameraAhead; cameraAhead] (mkSelection ∅ 0 [])
    (mkShot viewerCentre emptyDepth (ratio 1 4) (ratio 1 4)) = Abort AssertionFailed.
Proof. intros filtered. repeat split; reflexivity. Qed.

(** ** The point filter *)

Section FilterPointsProperties.
Context `{Fl : Floating} {PointRow NormalRow : Type}.
Variable sortIdx : list float -> list nat.

(** *** Lengths *)

Lemma length_accumulate (density : list float) (i : nat) (l : list Neighbor)
    (st : float * list float * double) :
  length (foldl (accumulate density i) st l).1.2 = length st.1.2.
Proof.
  revert st. induction l as [|nb l IH]; intros [[dt score] sum]; [done |].
  cbn. rewrite IH. cbn. by rewrite length_insert.
Qed.

Lemma length_accumulatePoint (t : NeighborTable) (density : list float)
    (l : list nat) (st : list float * double) :
  length (foldl (accumulatePoint t density) st l).1 = length st.1.
Proof.
  revert st. induction l as [|i l IH]; intros st; [done |].
  cbn. rewrite IH. unfold accumulatePoint.
  pose proof (length_accumulate density i (block t i) (f_zero, st.1, st.2)) as H.
  destruct (foldl _ _ (block t i)) as [[dt score] sum]. cbn in *.
  by rewrite length_insert.
Qed.

Lemma length_normalize (score : list float) (normalizer : float) (l : list nat)
    (st : list float * double) :
  length (foldl (normalize score normalizer) st l).1 = length st.1.
Proof.
  revert st. induction l as [|i l IH]; intros [density change]; [done |].
  cbn. rewrite IH. cbn. by rewrite length_insert.
Qed.

Lemma length_densityRound (t : NeighborTable) (n : nat) (density : list float) :
  length (densityRound t n density).1.1 = length density.
Proof.
  unfold densityRound.
  destruct (foldl (accumulatePoint _ _) _ _) as [score sum].
  pose proof (length_normalize score
    (d2f (d_div (d_of_int (Z.of_nat n)) sum)) (seq 0 n) (density, d_of_int 0)) as H.
  destruct (foldl (normalize _ _) _ _) as [density' change]. done.
Qed.

Lemma length_densityLoop (more : nat) (t : NeighborTable) (n : nat)
    (density : list float) :
  length (densityLoop more t n density).1 = length density.
Proof.
  revert density. induction more as [|more IH]; intros density; cbn;
    pose proof (length_densityRound t n density) as H;
    destruct (densityRound t n density) as [[density' score] change]; cbn in *.
  - done.
  - destruct (d_ltb epsilon change); [by rewrite IH | done].
Qed.

(** *** Points without neighbors *)

Lemma block_Forall (P : Neighbor -> Prop) (t : NeighborTable) (i : nat) :
  Forall P (neighbors t) -> Forall P (block t i).
Proof. intros H. unfold block. by apply Forall_take, Forall_drop. Qed.

Lemma accumulate_other (density : list float) (i x : nat) (l : list Neighbor)
    (st : float * list float * double) :
  Forall (fun nb : Neighbor => Z.to_nat nb.1 <> x) l ->
  (foldl (accumulate density i) st l).1.2 !!! x = st.1.2 !!! x.
Proof.
  intros Hl. revert st. induction Hl as [|nb l Hnb _ IH]; intros [[dt score] sum];
    [done |].
  cbn [foldl]. rewrite IH. cbn. by rewrite list_lookup_total_insert_ne.
Qed.

Lemma accumulatePoint_other (t : NeighborTable) (density : list float)
    (x : nat) (l : list nat) (st : list float * double) :
  Forall (fun nb : Neighbor => Z.to_nat nb.1 <> x) (neighbors t) ->
  x ∉ l ->
  (foldl (accumulatePoint t density) st l).1 !!! x = st.1 !!! x.
Proof.
  intros Hnb. revert st. induction l as [|i l IH]; intros st Hx; [done |].
  apply not_elem_of_cons in Hx as [Hxi Hx].
  cbn [foldl]. rewrite IH by done. unfold accumulatePoint.
  pose proof (accumulate_other density i x (block t i) (f_zero, st.1, st.2)
                (block_Forall _ t i Hnb)) as H.
  destruct (foldl _ _ (block t i)) as [[dt score] sum]. cbn in *.
  by rewrite list_lookup_total_insert_ne.
Qed.

Lemma accumulatePoint_self (t : NeighborTable) (density : list float)
    (x : nat) (st : list float * double) :
  block t x = [] -> (x < length st.1)%nat ->
  (accumulatePoint t density st x).1 !!! x = f_add (st.1 !!! x) f_zero.
Proof.
  intros Hb Hx. unfold accumulatePoint. rewrite Hb. cbn.
  by rewrite list_lookup_total_insert_eq.
Qed.

(** The score of a point without neighbors after a round. *)
Lemma densityRound_neighborless (t : NeighborTable) (n : nat)
    (density : list float) (x : nat) :
  neighborless t x -> (x < n)%nat ->
  (densityRound t n density).1.2 !!! x = f_add f_zero f_zero.
Proof.
  intros [Hb Hnb] Hx. unfold densityRound.
  assert (Hscore :
    (foldl (accumulatePoint t density) (replicate n f_zero, d_of_int 0) (seq 0 n)).1
      !!! x = f_add f_zero f_zero).
  { replace n with (x + S (n - S x))%nat at 2 by lia.
    rewrite seq_app, foldl_app. cbn [seq foldl]. rewrite Nat.add_0_l.
    rewrite accumulatePoint_other; [|done |].
    2:{ rewrite elem_of_seq. lia. }
    rewrite accumulatePoint_self; [|done |].
    2:{ rewrite length_accumulatePoint. cbn. by rewrite length_replicate. }
    rewrite accumulatePoint_other; [|done |].
    2:{ rewrite elem_of_seq. lia. }
    cbn. by rewrite lookup_total_replicate_2. }
  destruct (foldl (accumulatePoint _ _) _ _) as [score sum].
  destruct (foldl (normalize _ _) _ _) as [density' change]. done.
Qed.

Lemma densityLoop_neighborless (more : nat) (t : NeighborTable) (n : nat)
    (density : list float) (x : nat) :
  neighborless t x -> (x < n)%nat ->
  (densityLoop more t n density).2 !!! x = f_add f_zero f_zero.
Proof.
  intros Hnb Hx. revert density. induction more as [|more IH]; intros density; cbn;
    pose proof (densityRound_neighborless t n density x Hnb Hx) as H;
    destruct (densityRound t n density) as [[density' score] change]; cbn in *.
  - done.
  - destruct (d_ltb epsilon change); [apply IH | done].
Qed.

Lemma suppress_other (localDensity : double) (x : nat) (l : list Neighbor)
    (score : list float) :
  Forall (fun nb : Neighbor => Z.to_nat nb.1 <> x) l ->
  foldl (suppress localDensity) score l !!! x = score !!! x.
Proof.
  intros Hl. revert score. induction Hl as [|nb l Hnb _ IH]; intros score; [done |].
  cbn [foldl]. rewrite IH. unfold suppress.
  by rewrite list_lookup_total_insert_ne.
Qed.

(** *** The selection loop *)

(** One iteration either skips position [i] or appends [order0[i]] to
    the retained prefix of [order]. *)
Lemma select_cases (t : NeighborTable) (density : list float)
    (order0 : list nat) (i ord : nat) (score : list float) (order : list nat)
    (w : nat) :
  selecting order0 i (score, order, w) ->
  order0 !! i = Some ord ->
  (f_ltb (score !!! ord) densityLimit = true /\
   select t density (score, order, w) i = (score, order, w)) \/
  (f_ltb (score !!! ord) densityLimit = false /\
   exists order',
     select t density (score, order, w) i
       = (foldl (suppress (f2d (density !!! ord))) score (block t ord), order', S w) /\
     length order' = length order /\
     (forall j, (i < j)%nat -> order' !! j = order !! j) /\
     take (S w) order' = take w order ++ [ord]).
Proof.
  unfold selecting. cbn [fst snd]. intros (Hw & Hlen & Hrest & Hsub) Hord.
  assert (Hord' : order !! i = Some ord) by (by rewrite Hrest).
  pose proof (lookup_lt_Some _ _ _ Hord') as Hi.
  unfold select. cbv beta iota zeta. rewrite (list_lookup_total_correct _ _ _ Hord').
  destruct (f_ltb _ densityLimit); [by left | right].
  split; [done |]. eexists. split; [reflexivity |].
  destruct (Nat.ltb_spec w i) as [Hlt | Hge]; repeat split.
  - by rewrite length_insert.
  - intros j Hj. by rewrite list_lookup_insert_ne by lia.
  - rewrite (take_S_r _ _ ord).
    2:{ apply list_lookup_insert_eq. lia. }
    by rewrite take_insert_ge by lia.
  - assert (w = i) as -> by lia. by apply take_S_r.
Qed.

Lemma select_step (t : NeighborTable) (density : list float)
    (order0 : list nat) (i : nat) (st : list float * list nat * nat) :
  (i < length order0)%nat ->
  selecting order0 i st -> selecting order0 (S i) (select t density st i).
Proof.
  intros Hi. destruct st as [[score order] w]. intros Hst.
  destruct (lookup_lt_is_Some_2 order0 i Hi) as [ord Hord].
  assert (Htake : take (S i) order0 = take i order0 ++ [ord]) by (by apply take_S_r).
  destruct (select_cases t density order0 i ord score order w Hst Hord)
    as [[_ ->] | [_ (order' & -> & Hlen' & Hrest' & Htake')]];
    destruct Hst as (Hw & Hlen & Hrest & Hsub); cbn [fst snd] in *;
    repeat split; cbn [fst snd].
  - lia.
  - done.
  - intros j Hj. apply Hrest. lia.
  - rewrite Htake. by apply sublist_inserts_r.
  - lia.
  - congruence.
  - intros j Hj. rewrite Hrest' by lia. apply Hrest. lia.
  - rewrite Htake, Htake'. apply sublist_app; [done | reflexivity].
Qed.

Lemma select_loop (t : NeighborTable) (density : list float)
    (order0 : list nat) (m i : nat) (st : list float * list nat * nat) :
  (i + m <= length order0)%nat ->
  selecting order0 i st ->
  selecting order0 (i + m) (foldl (select t density) st (seq i m)).
Proof.
  revert i st. induction m as [|m IH]; intros i st Hm Hst; cbn.
  - by rewrite Nat.add_0_r.
  - replace (i + S m)%nat with (S i + m)%nat by lia.
    apply IH; [lia |]. apply select_step; [lia | done].
Qed.

(** A point without neighbors keeps the score 0 + 0 and never enters
    the retained prefix. *)
Lemma select_loop_neighborless (t : NeighborTable) (density : list float)
    (order0 : list nat) (x m i : nat) (st : list float * list nat * nat) :
  f_ltb (f_add f_zero f_zero) densityLimit = true ->
  neighborless t x ->
  (i + m <= length order0)%nat ->
  selecting order0 i st ->
  st.1.1 !!! x = f_add f_zero f_zero ->
  x ∉ take st.2 st.1.2 ->
  x ∉ take (foldl (select t density) st (seq i m)).2
        (foldl (select t density) st (seq i m)).1.2.
Proof.
  intros Hzero [Hb Hnb]. revert i st.
  induction m as [|m IH]; intros i [[score order] w] Hm Hst Hscore Hout; [done |].
  cbn [seq foldl]. cbn [fst snd] in *.
  destruct (lookup_lt_is_Some_2 order0 i) as [ord Hord]; [lia |].
  pose proof (select_step t density order0 i _ ltac:(lia) Hst) as Hst'.
  destruct (select_cases t density order0 i ord score order w Hst Hord)
    as [[_ Heq] | [Hkeep (order' & Heq & _ & _ & Htake')]];
    rewrite Heq in Hst' |- *.
  - apply (IH (S i)); [lia | done | done | done].
  - apply (IH (S i)); [lia | done | |]; cbn [fst snd].
    + rewrite suppress_other; [done |]. by apply block_Forall.
    + rewrite Htake'. apply not_elem_of_app. split; [done |].
      apply not_elem_of_cons. split; [|apply not_elem_of_nil].
      intros ->. congruence.
Qed.

(** *** Sorting and compaction *)

Lemma strictly_sorted (l : list nat) :
  StronglySorted le l -> NoDup l -> StronglySorted lt l.
Proof.
  induction 1 as [|x l Hl IH Hx]; intros Hnd; [constructor |].
  apply NoDup_cons in Hnd as [Hin Hnd]. constructor; [by apply IH |].
  rewrite Forall_forall in Hx |- *. intros y Hy.
  specialize (Hx y Hy). assert (x <> y) by (intros ->; by apply Hin, list_elem_of_In).
  lia.
Qed.

Lemma sorted_lookup_from (ks : list nat) (b i k : nat) :
  StronglySorted lt ks -> Forall (le b) ks -> ks !! i = Some k -> (b + i <= k)%nat.
Proof.
  intros Hs. revert b i. induction Hs as [|x ks Hs IH Hx]; intros b i Hb Hk; [done |].
  apply Forall_cons in Hb as [Hbx Hb]. destruct i as [|i]; cbn in Hk.
  - injection Hk as ->. lia.
  - assert (S x + i <= k)%nat; [|lia].
    apply IH; [|done]. eapply Forall_impl; [exact Hx |]. cbn. lia.
Qed.

Lemma sorted_lookup_ge (ks : list nat) (i k : nat) :
  StronglySorted lt ks -> ks !! i = Some k -> (i <= k)%nat.
Proof.
  intros Hs Hk. apply (sorted_lookup_from ks 0 i k Hs); [|done].
  apply Forall_forall. intros; lia.
Qed.

(** The rows after [i] iterations of the compaction loop: the first [i]
    rows are the rows named by [ks], the others are untouched. *)
Lemma moveRow_loop {A} (order ks : list nat) (rows : list A) (i : nat) :
  StronglySorted lt ks ->
  Forall (fun k => (k < length rows)%nat) ks ->
  (i <= length ks)%nat ->
  (forall j, (j < length ks)%nat -> order !! j = ks !! j) ->
  length (foldl (moveRow order) rows (seq 0 i)) = length rows /\
  (forall j, (i <= j)%nat -> foldl (moveRow order) rows (seq 0 i) !! j = rows !! j) /\
  (forall j k, (j < i)%nat -> ks !! j = Some k ->
     foldl (moveRow order) rows (seq 0 i) !! j = rows !! k).
Proof.
  intros Hs Hks Hi Horder. induction i as [|i IH].
  - cbn. repeat split; try done. intros; lia.
  - destruct IH as (IHlen & IHrest & IHdone); [lia |].
    rewrite seq_S, foldl_app. cbn [foldl]. rewrite Nat.add_0_l.
    set (rows_i := foldl (moveRow order) rows (seq 0 i)) in *.
    destruct (lookup_lt_is_Some_2 ks i) as [k Hk]; [lia |].
    assert (Hk' : order !! i = Some k) by (rewrite Horder; [done | lia]).
    pose proof (sorted_lookup_ge ks i k Hs Hk) as Hik.
    assert (Hklen : (k < length rows)%nat).
    { rewrite Forall_forall in Hks. apply Hks. by eapply list_elem_of_lookup_2. }
    assert (Hstep : moveRow order rows_i i =
      if (i <? k)%nat
      then match rows_i !! k with Some r => <[i := r]> rows_i | None => rows_i end
      else rows_i).
    { unfold moveRow. by rewrite (list_lookup_total_correct _ _ _ Hk'). }
    rewrite Hstep. clear Hstep.
    destruct (Nat.ltb_spec i k) as [Hlt | Hge].
    + destruct (lookup_lt_is_Some_2 rows k Hklen) as [r Hr].
      rewrite (IHrest k) by lia. rewrite Hr.
      repeat split.
      * by rewrite length_insert.
      * intros j Hj. rewrite list_lookup_insert_ne by lia. apply IHrest. lia.
      * intros j k' Hj Hk''. destruct (decide (j = i)) as [-> | Hne].
        -- rewrite list_lookup_insert_eq by lia. congruence.
        -- rewrite list_lookup_insert_ne by lia. apply IHdone; [lia | done].
    + assert (k = i) as -> by lia. repeat split.
      * done.
      * intros j Hj. apply IHrest. lia.
      * intros j k' Hj Hk''. destruct (decide (j = i)) as [-> | Hne].
        -- rewrite IHrest by lia. congruence.
        -- apply IHdone; [lia | done].
Qed.

Lemma compactRows_gather {A} (ks rest : list nat) (rows : list A) :
  StronglySorted lt ks ->
  Forall (fun k => (k < length rows)%nat) ks ->
  Forall2 (fun k r => rows !! k = Some r) ks
    (compactRows (ks ++ rest) (length ks) rows).
Proof.
  intros Hs Hks. unfold compactRows.
  destruct (moveRow_loop (ks ++ rest) ks rows (length ks) Hs Hks)
    as (Hlen & _ & Hdone); [done | by intros j Hj; apply lookup_app_l |].
  assert (Hle : (length ks <= length rows)%nat).
  { destruct ks as [|k ks'] eqn:E; [cbn; lia |]. rewrite <- E in *.
    assert (Hlast : is_Some (ks !! (length ks - 1)%nat)).
    { apply lookup_lt_is_Some_2. rewrite E. cbn. lia. }
    destruct Hlast as [kl Hkl].
    pose proof (sorted_lookup_ge ks _ kl Hs Hkl).
    rewrite Forall_forall in Hks.
    pose proof (Hks kl (list_elem_of_lookup_2 _ _ _ Hkl)). lia. }
  apply Forall2_same_length_lookup_2.
  - rewrite length_take_le; [done | lia].
  - intros j k r Hk Hr.
    pose proof (lookup_lt_Some _ _ _ Hk) as Hj.
    rewrite lookup_take_lt in Hr by done.
    rewrite (Hdone j k Hj Hk) in Hr. done.
Qed.


(** *** The retained indices *)

Hypothesis sortIdx_permutation : forall d, sortIdx d ≡ₚ seq 0 (length d).

Lemma retained_spec (t : NeighborTable) (n : nat) :
  exists ks rest,
    retained sortIdx t n = (ks ++ rest, length ks) /\
    StronglySorted lt ks /\
    Forall (fun k => (k < n)%nat) ks /\
    (forall x, f_ltb (f_add f_zero f_zero) densityLimit = true ->
               neighborless t x -> (x < n)%nat -> x ∉ ks).
Proof.
  unfold retained.
  pose proof (length_densityLoop 199 t n (replicate n f_one)) as Hd.
  pose proof (fun x => densityLoop_neighborless 199 t n (replicate n f_one) x) as Hx.
  destruct (densityLoop _ _ _ _) as [density score]. cbn in Hd, Hx.
  rewrite length_replicate in Hd.
  pose proof (sortIdx_permutation density) as Hperm. rewrite Hd in Hperm.
  assert (Hlen0 : length (sortIdx density) = n).
  { by rewrite Hperm, length_seq. }
  assert (Hinit : selecting (sortIdx density) 0 (score, sortIdx density, 0%nat)).
  { repeat split; cbn; [lia | apply sublist_nil_l]. }
  assert (Hsel : selecting (sortIdx density) (0 + n)
            (foldl (select t density) (score, sortIdx density, 0%nat) (seq 0 n))).
  { apply select_loop; [rewrite Hlen0; lia | done]. }
  pose proof (fun x Hz Hnb Hn =>
    select_loop_neighborless t density (sortIdx density) x n 0 _ Hz Hnb
      ltac:(rewrite Hlen0; lia) Hinit (Hx x Hnb Hn) ltac:(apply not_elem_of_nil))
    as Hout.
  destruct Hsel as (Hw & Hlen & _ & Hsub).
  destruct (foldl _ _ _) as [[score' order] w]. cbn [fst snd Nat.add] in *.
  rewrite <- Hlen0, firstn_all in Hsub. fold (take w order) in Hsub.
  assert (Hwlen : length (merge_sort le (take w order)) = w).
  { rewrite merge_sort_Permutation, length_take_le; [done | lia]. }
  exists (merge_sort le (take w order)), (drop w order).
  rewrite Hwlen. repeat split.
  - apply strictly_sorted; [apply StronglySorted_merge_sort; apply _ |].
    rewrite merge_sort_Permutation.
    eapply sublist_NoDup; [|exact Hsub]. rewrite Hperm. apply NoDup_seq.
  - apply Forall_forall. intros k Hk.
    rewrite merge_sort_Permutation in Hk.
    apply (elem_of_sublist _ _ _ Hk) in Hsub.
    rewrite Hperm in Hsub. apply elem_of_seq in Hsub. lia.
  - intros x Hz Hnb Hn. rewrite merge_sort_Permutation. by apply Hout.
Qed.

(** The rows that [filterPoints] returns are the rows of one strictly
    increasing list of indices, in both matrices. *)
Lemma filterPoints_gather (alpha : float) (search : nat -> list (Z * float))
    (points : list PointRow) (normals : list NormalRow) :
  length normals = length points ->
  exists ks,
    StronglySorted lt ks /\
    Forall2 (fun k r => points !! k = Some r) ks
      (filterPoints sortIdx alpha search points normals).1 /\
    Forall2 (fun k r => normals !! k = Some r) ks
      (filterPoints sortIdx alpha search points normals).2 /\
    (forall x, f_ltb (f_add f_zero f_zero) densityLimit = true ->
       neighborless
         (neighborTable (d2f (d_div (f2d alpha) (d_of_int 4))) search (length points)) x ->
       (x < length points)%nat -> x ∉ ks).
Proof.
  intros Hlen. unfold filterPoints.
  destruct (retained_spec
    (neighborTable (d2f (d_div (f2d alpha) (d_of_int 4))) search (length points))
    (length points)) as (ks & rest & -> & Hs & Hks & Hout).
  exists ks. cbn [fst snd]. repeat split; [done | | | done].
  - by apply compactRows_gather.
  - apply compactRows_gather; [done | by rewrite Hlen].
Qed.

(** C4: the output has at most as many rows as the input, the same number
    of rows in both matrices, and its rows are the rows of a strictly
    increasing list of input positions, the same list for the points and
    for the normals: the retained rows keep their relative order. *)
Theorem filterPoints_compacts (alpha : float) (search : nat -> list (Z * float))
    (points : list PointRow) (normals : list NormalRow)
    (Hrows : length normals = length points) :
  (length (filterPoints sortIdx alpha search points normals).1 <= length points)%nat /\
  length (filterPoints sortIdx alpha search points normals).1
    = length (filterPoints sortIdx alpha search points normals).2 /\
  exists ks,
    StronglySorted lt ks /\
    Forall2 (fun k r => points !! k = Some r) ks
      (filterPoints sortIdx alpha search points normals).1 /\
    Forall2 (fun k r => normals !! k = Some r) ks
      (filterPoints sortIdx alpha search points normals).2.
Proof.
  destruct (filterPoints_gather alpha search points normals Hrows)
    as (ks & Hs & Hp & Hn & _).
  pose proof (Forall2_length _ _ _ Hp) as Hlp.
  pose proof (Forall2_length _ _ _ Hn) as Hln.
  repeat split.
  - rewrite <- Hlp.
    destruct ks as [|k ks'] eqn:E; [cbn; lia |]. rewrite <- E in *.
    assert (Hlast : is_Some (ks !! (length ks - 1)%nat)).
    { apply lookup_lt_is_Some_2. rewrite E. cbn. lia. }
    destruct Hlast as [kl Hkl].
    pose proof (sorted_lookup_ge ks _ kl Hs Hkl).
    destruct (Forall2_lookup_l _ _ _ _ _ Hp Hkl) as (r & _ & Hr).
    apply lookup_lt_Some in Hr. lia.
  - congruence.
  - by exists ks.
Qed.

(** C2, as the code has it: a point without neighbors has the score
    0 + 0, which is below the limit 0.7, and is not retained.  The rows
    of the output are those of a list of positions that does not
    contain the point. *)
Theorem neighborless_discarded (alpha : float) (search : nat -> list (Z * float))
    (points : list PointRow) (normals : list NormalRow) (x : nat)
    (Hzero : f_ltb (f_add f_zero f_zero) densityLimit = true)
    (Hrows : length normals = length points)
    (Hx : (x < length points)%nat)
    (Hnb : neighborless
             (neighborTable (d2f (d_div (f2d alpha) (d_of_int 4))) search (length points))
             x) :
  exists ks,
    (x ∉ ks) /\
    Forall2 (fun k r => points !! k = Some r) ks
      (filterPoints sortIdx alpha search points normals).1 /\
    Forall2 (fun k r => normals !! k = Some r) ks
      (filterPoints sortIdx alpha search points normals).2.
Proof.
  destruct (filterPoints_gather alpha search points normals Hrows)
    as (ks & _ & Hp & Hn & Hout).
  exists ks. repeat split; [by apply Hout | done | done].
Qed.

End FilterPointsProperties.

Lemma filterPoints_compacts_witness :
  let out := filterPoints sortIdx_descending (fl 4) search3 [10; 11; 12] [20; 21; 22] in
  (length out.1 <= 3)%nat /\
  length out.1 = length out.2 /\
  exists ks,
    StronglySorted lt ks /\
    Forall2 (fun k r => [10; 11; 12] !! k = Some r) ks out.1 /\
    Forall2 (fun k r => [20; 21; 22] !! k = Some r) ks out.2.
Proof.
  apply (filterPoints_compacts (Fl := binary) sortIdx_descending
           (fun d => merge_sort_Permutation _ (seq 0 (length d)))
           (fl 4) search3 [10; 11; 12] [20; 21; 22]).
  reflexivity.
Defined.

Lemma neighborless_discarded_witness :
  exists ks,
    (2%nat ∉ ks) /\
    Forall2 (fun k r => [10; 11; 12] !! k = Some r) ks
      (filterPoints sortIdx_descending (fl 4) search3 [10; 11; 12] [20; 21; 22]).1 /\
    Forall2 (fun k r => [20; 21; 22] !! k = Some r) ks
      (filterPoints sortIdx_descending (fl 4) search3 [10; 11; 12] [20; 21; 22]).2.
Proof.
  apply (neighborless_discarded (Fl := binary) sortIdx_descending
           (fun d => merge_sort_Permutation _ (seq 0 (length d)))
           (fl 4) search3 [10; 11; 12] [20; 21; 22] 2%nat).
  - vm_compute. reflexivity.
  - reflexivity.
  - cbn. lia.
  - split; [vm_compute; reflexivity |]. repeat constructor. cbn. lia.
Defined.

(** C2, as stated, fails: of three points, the third has no neighbor
    in either direction, and its row is not in the output. *)
Lemma filterPoints_drops_neighborless_point :
  neighborless (neighborTable (fl 1) search3 3) 2 /\
  filterPoints sortIdx_descending (fl 4) search3 [10; 11; 12] [20; 21; 22]
    = ([10; 11], [20; 21]).
Proof.
  split; [|vm_compute; reflexivity].
  split; [vm_compute; reflexivity |]. repeat constructor. cbn. lia.
Qed.

(** ** The sampling loop *)

Section SelectionProperties.
Context `{Fl : Floating} `{Ex : !Externals}.

(** *** The result monad *)

Lemma bind_Ok {A B} (e : result A) (k : A -> result B) (b : B) :
  e ≫= k = Ok b -> exists a, e = Ok a /\ k a = Ok b.
Proof. destruct e as [a|f]; [|discriminate]. intros H. by exists a. Qed.

Lemma assert_Ok (b : bool) (u : unit) : assert b = Ok u -> b = true.
Proof. by destruct b. Qed.

(** *** Reading and writing votes *)

Lemma subscript_value (w : gmap Z float) (k : Z) :
  (subscript w k).1 = vote w k.
Proof. unfold subscript, vote. by destruct (w !! k). Qed.

Lemma subscript_vote (w : gmap Z float) (k k' : Z) :
  vote (subscript w k).2 k' = vote w k'.
Proof.
  unfold subscript. destruct (w !! k) eqn:E; [done |]. cbn.
  destruct (decide (k = k')) as [<- | Hne].
  - rewrite vote_insert_eq. unfold vote. by rewrite E.
  - by apply vote_insert_ne.
Qed.

(** What a call of the voting part of [chooseSide] does to the table:
    either the drawn pair is passed already and no vote changes, or the
    main camera is marked and the vote of the drawn pair grows by
    [addWeight]; the drawn label is returned exactly when its vote is at
    least 1 afterwards. *)
Lemma chooseSide_vote_spec (w : gmap Z float) (mainCamera : CameraLabel)
    (threshold : float) (sw : SideWeights) (idx : Z)
    (label : CameraLabel) (w' : gmap Z float) :
  chooseSide_vote w mainCamera threshold sw idx = Ok (label, w') ->
  exists drawn,
    at_ (side_labels sw) idx = Ok drawn /\
    let key := compact (index mainCamera) (index drawn) in
    let diag := compact (index mainCamera) (index mainCamera) in
    (passed w key /\ label = dummyLabel /\ forall k, vote w' k = vote w k) \/
    (~ passed w key /\
     exists add,
       addWeight sw idx threshold = Ok add /\
       (forall k, k <> key -> k <> diag -> vote w' k = vote w k) /\
       (key <> diag -> vote w' diag = f_one) /\
       vote w' key = f_add (if decide (key = diag) then f_one else vote w key) add /\
       ((passed w' key /\ label = drawn) \/ (~ passed w' key /\ label = dummyLabel))).
Proof.
  unfold chooseSide_vote. intros H.
  apply bind_Ok in H as (drawn & Hdrawn & H). exists drawn. split; [done |].
  set (key := compact (index mainCamera) (index drawn)) in *.
  set (diag := compact (index mainCamera) (index mainCamera)) in *.
  cbv zeta.
  pose proof (subscript_value w key) as Hv.
  pose proof (subscript_vote w key) as Hw1.
  destruct (subscript w key) as [v w1]. cbn [fst snd] in Hv, Hw1. subst v.
  destruct (f_leb f_one (vote w key)) eqn:Hpassed.
  - left. injection H as <- <-. by repeat split.
  - right. split; [unfold passed; congruence |].
    apply bind_Ok in H as (add & Hadd & H). exists add. split; [done |].
    set (w2 := <[diag := f_one]> w1) in *.
    pose proof (subscript_value w2 key) as Hv2.
    pose proof (subscript_vote w2 key) as Hw3.
    destruct (subscript w2 key) as [v2 w3]. cbn [fst snd] in Hv2, Hw3. subst v2.
    set (w4 := <[key := f_add (vote w2 key) add]> w3) in *.
    pose proof (subscript_value w4 key) as Hv4.
    destruct (subscript w4 key) as [cur w5] eqn:Hsub. cbn [fst snd] in Hv4.
    assert (w5 = w4) as ->.
    { unfold subscript in Hsub. unfold w4 in Hsub at 1.
      rewrite lookup_insert_eq in Hsub. by injection Hsub. }
    assert (Hkey : vote w4 key
              = f_add (if decide (key = diag) then f_one else vote w key) add).
    { unfold w4. rewrite vote_insert_eq. f_equal. unfold w2.
      destruct (decide (key = diag)) as [-> | Hne].
      - by rewrite vote_insert_eq.
      - by rewrite vote_insert_ne, Hw1. }
    assert (Hother : forall k, k <> key -> k <> diag -> vote w4 k = vote w k).
    { intros k Hk1 Hk2. unfold w4. rewrite vote_insert_ne, Hw3 by done.
      unfold w2. by rewrite vote_insert_ne, Hw1. }
    assert (Hdiag : key <> diag -> vote w4 diag = f_one).
    { intros Hne. unfold w4. rewrite vote_insert_ne, Hw3 by done.
      unfold w2. by rewrite vote_insert_eq. }
    subst cur. unfold passed.
    destruct (f_leb f_one (vote w4 key)) eqn:Hcur; injection H as <- <-;
      repeat split; try done.
    + by left.
    + right. split; [congruence | done].
Qed.


(** *** The labels offered to the side draw *)

Lemma chooseSide_weights_labels (Q : CameraLabel -> Prop) (w : gmap Z float)
    (mainCamera : CameraLabel) (boostFactor : float) (n : Z)
    (cameras : LabelledCameras) (st sw : SideWeights) :
  chooseSide_weights w mainCamera boostFactor n cameras st = Ok sw ->
  Forall (fun p => Q p.1) cameras ->
  Forall (fun l => index l <> index mainCamera /\ Q l) (side_labels st) ->
  Forall (fun l => index l <> index mainCamera /\ Q l) (side_labels sw).
Proof.
  revert st. induction cameras as [|[label camera] rest IH]; intros st H Hq Hst; cbn in H.
  - by injection H as <-.
  - apply Forall_cons in Hq as [Hl Hq].
    destruct (Z.eqb_spec (index label) (index mainCamera)) as [Heq | Hne].
    + by apply (IH st).
    + apply bind_Ok in H as (prev & _ & H).
      apply bind_Ok in H as (weightSum & _ & H).
      apply (IH _ H Hq). cbn.
      apply Forall_app. split; [done |]. by repeat constructor.
Qed.

Lemma chooseSide_draw_labels (Q : CameraLabel -> Prop) (w : gmap Z float)
    (mainCamera : CameraLabel) (boostFactor : float)
    (filteredCameras : LabelledCameras) (r : float) (sw : SideWeights) (idx : Z) :
  chooseSide_draw w mainCamera boostFactor filteredCameras r = Ok (sw, idx) ->
  Forall (fun p => Q p.1) filteredCameras ->
  Forall (fun l => index l <> index mainCamera /\ Q l) (side_labels sw).
Proof.
  unfold chooseSide_draw. intros H Hq.
  apply bind_Ok in H as (_ & _ & H).
  apply bind_Ok in H as (sw' & Hsw & H).
  apply bind_Ok in H as (total & _ & H).
  apply bind_Ok in H as (_ & _ & H).
  injection H as <- <-.
  by apply (chooseSide_weights_labels Q _ _ _ _ _ _ _ Hsw Hq).
Qed.

Lemma at_elem_of {A} (v : list A) (i : Z) (a : A) : at_ v i = Ok a -> a ∈ v.
Proof. intros H. apply at_Ok in H as [_ H]. by eapply list_elem_of_lookup_2. Qed.

Lemma chooseMain_elem_of (w : gmap Z float) (filteredCameras : LabelledCameras)
    (boostFactor r : float) (mainCamera : CameraLabel) (mainWeightSum : float) :
  chooseMain w filteredCameras boostFactor r = Ok (mainCamera, mainWeightSum) ->
  exists camera, (mainCamera, camera) ∈ filteredCameras.
Proof.
  unfold chooseMain. intros H.
  apply bind_Ok in H as (_ & _ & H).
  apply bind_Ok in H as ([weightSum out] & _ & H).
  apply bind_Ok in H as (total & _ & H).
  apply bind_Ok in H as ([label camera] & Hat & H).
  injection H as <- <-. exists camera. by eapply at_elem_of.
Qed.

(** *** One pair of draws *)

(** The effect of [chooseSide] on the table and on its result. *)
Lemma chooseSide_spec (Q : CameraLabel -> Prop) (w : gmap Z float)
    (mainCamera : CameraLabel) (threshold boostFactor : float)
    (filteredCameras : LabelledCameras) (r : float)
    (label : CameraLabel) (w' : gmap Z float) :
  chooseSide w mainCamera threshold boostFactor filteredCameras r = Ok (label, w') ->
  Forall (fun p => Q p.1) filteredCameras ->
  exists sw idx drawn,
    chooseSide_draw w mainCamera boostFactor filteredCameras r = Ok (sw, idx) /\
    chooseSide_vote w mainCamera threshold sw idx = Ok (label, w') /\
    at_ (side_labels sw) idx = Ok drawn /\
    index drawn <> index mainCamera /\ Q drawn.
Proof.
  unfold chooseSide. intros H Hq.
  apply bind_Ok in H as ([sw idx] & Hdraw & H).
  pose proof (chooseSide_draw_labels Q _ _ _ _ _ _ _ Hdraw Hq) as Hlabels.
  destruct (chooseSide_vote_spec _ _ _ _ _ _ _ H) as (drawn & Hdrawn & _).
  exists sw, idx, drawn. repeat split; try done;
    rewrite Forall_forall in Hlabels; by apply Hlabels, (at_elem_of _ idx).
Qed.


(** The two draws of one iteration, in terms of votes.  [Q] is any
    property of the labels of the filtered cameras. *)
Lemma pickPair_votes (Q : CameraLabel -> Prop) (config : Configuration)
    (resolution : float) (w : gmap Z float) (filteredCameras : LabelledCameras)
    (rMain rSide : float) (w' : gmap Z float) (picked : option (Z * Z)) :
  pickPair config resolution w filteredCameras rMain rSide = Ok (w', picked) ->
  Forall (fun p => Q p.1) filteredCameras ->
  exists mainCamera mainWeightSum sw idx drawn,
    chooseMain w filteredCameras (cameraThreshold config) rMain
      = Ok (mainCamera, mainWeightSum) /\
    chooseSide_draw w mainCamera (f_div (cameraThreshold config) (f_of_int 10))
      filteredCameras rSide = Ok (sw, idx) /\
    Q mainCamera /\ Q drawn /\ index drawn <> index mainCamera /\
    let key := compact (index mainCamera) (index drawn) in
    let diag := compact (index mainCamera) (index mainCamera) in
    (passed w key /\ picked = None /\ forall k, vote w' k = vote w k) \/
    (~ passed w key /\
     exists add,
       addWeight sw idx
         (f_div (f_mul (f_of_int shotCount) mainWeightSum) resolution) = Ok add /\
       (forall k, k <> key -> k <> diag -> vote w' k = vote w k) /\
       (key <> diag -> vote w' diag = f_one) /\
       vote w' key = f_add (if decide (key = diag) then f_one else vote w key) add /\
       ((passed w' key /\
         picked = if index drawn =? -1 then None
                  else Some (index mainCamera, index drawn)) \/
        (~ passed w' key /\ picked = None))).
Proof.
  unfold pickPair. intros H Hq.
  apply bind_Ok in H as ([mainCamera mainWeightSum] & Hmain & H).
  apply bind_Ok in H as ([label w''] & Hside & H).
  destruct (chooseMain_elem_of _ _ _ _ _ _ Hmain) as [camera Hin].
  assert (Hqm : Q mainCamera).
  { rewrite Forall_forall in Hq. apply (Hq _ Hin). }
  destruct (chooseSide_spec Q _ _ _ _ _ _ _ _ Hside Hq)
    as (sw & idx & drawn & Hdraw & Hvote & Hdrawn & Hne & Hqd).
  exists mainCamera, mainWeightSum, sw, idx, drawn.
  repeat (split; [done |]).
  destruct (chooseSide_vote_spec _ _ _ _ _ _ _ Hvote) as (drawn' & Hdrawn' & Hcases).
  assert (drawn' = drawn) as -> by congruence.
  assert (Hpicked : w'' = w' /\
            picked = if index label =? -1 then None
                     else Some (index mainCamera, index label)).
  { change (index dummyLabel) with (-1) in H.
    destruct (index label =? -1); by injection H as <- <-. }
  destruct Hpicked as [-> ->]. clear H.
  cbv zeta in Hcases |- *.
  destruct Hcases as [(Hp & -> & Hsame) | (Hnp & add & Hadd & Ho & Hd & Hk & Hres)].
  - left. done.
  - right. split; [done |]. exists add. repeat (split; [done |]).
    destruct Hres as [[Hp ->] | [Hnp' ->]]; [by left | by right].
Qed.


(** *** The bundle table *)

Lemma myFind_from_spec {A} (l : list (Z * A)) (i idx : Z) :
  0 <= i ->
  (myFind_from i l idx = -1 /\ Forall (fun e => e.1 <> idx) l) \/
  (exists p e, myFind_from i l idx = i + Z.of_nat p /\ l !! p = Some e /\ e.1 = idx).
Proof.
  revert i. induction l as [|x l IH]; intros i Hi; cbn.
  - left. by split.
  - destruct (Z.eqb_spec x.1 idx) as [Heq | Hne].
    + right. exists 0%nat, x. repeat split; [lia | done].
    + destruct (IH (i + 1)) as [[Hr Hall] | (p & e & Hr & Hp & He)]; [lia | |].
      * left. split; [done |]. by constructor.
      * right. exists (S p), e. repeat split; [lia | done | done].
Qed.

Lemma myFind_int_from_spec (l : list Z) (i idx : Z) :
  0 <= i ->
  (myFind_int_from i l idx = -1 /\ (idx ∉ l)) \/
  (0 <= myFind_int_from i l idx /\ idx ∈ l).
Proof.
  revert i. induction l as [|x l IH]; intros i Hi; cbn.
  - left. split; [done | apply not_elem_of_nil].
  - destruct (Z.eqb_spec x idx) as [-> | Hne].
    + right. split; [lia | left].
    + destruct (IH (i + 1)) as [[Hr Hout] | [Hr Hin]]; [lia | |].
      * left. split; [done |]. apply not_elem_of_cons. by split.
      * right. split; [done | by right].
Qed.

(** [writePair] appends a new entry for a main camera that has none,
    appends the side camera to the entry of the main camera, or leaves
    the table as it is when the side camera is there already. *)
Lemma writePair_spec (chosen : list (Z * list Z)) (main side : Z)
    (chosen' : list (Z * list Z)) :
  writePair chosen main side = Ok chosen' ->
  (Forall (fun e => e.1 <> main) chosen /\ chosen' = chosen ++ [(main, [side])]) \/
  (exists p sides,
     chosen !! p = Some (main, sides) /\
     ((side ∈ sides /\ chosen' = chosen) \/
      ((side ∉ sides) /\ chosen' = <[p := (main, sides ++ [side])]> chosen))).
Proof.
  unfold writePair, myFind.
  destruct (myFind_from_spec chosen 0 main) as [[-> Hall] | (p & e & -> & Hp & He)];
    [lia | |].
  - cbn. intros [= <-]. by left.
  - destruct (Z.eqb_spec (0 + Z.of_nat p) (-1)) as [? | _]; [lia |].
    intros H. right. exists p, e.2. destruct e as [m sides]. cbn in He. subst m.
    split; [done |]. cbn [fst snd] in *.
    apply bind_Ok in H as (entry & Hentry & H).
    apply at_Ok in Hentry as [_ Hentry].
    replace (Z.to_nat (0 + Z.of_nat p)) with p in Hentry by lia.
    assert (entry = (main, sides)) as -> by congruence. cbn [fst snd] in H.
    unfold myFind_int in H.
    destruct (myFind_int_from_spec sides 0 side) as [[Hr Hout] | [Hr Hin]]; [lia | |].
    + rewrite Hr in H. cbn in H. right. split; [done |].
      unfold set_at in H.
      destruct (_ || _); [discriminate |]. injection H as <-.
      by replace (Z.to_nat (0 + Z.of_nat p)) with p by lia.
    + destruct (Z.eqb_spec (myFind_int_from 0 sides side) (-1)); [lia |].
      injection H as <-. by left.
Qed.

Lemma writePair_distinctSides (chosen : list (Z * list Z)) (main side : Z)
    (chosen' : list (Z * list Z)) :
  writePair chosen main side = Ok chosen' ->
  main <> side -> distinctSides chosen -> distinctSides chosen'.
Proof.
  intros H Hne Hd. unfold distinctSides in *.
  destruct (writePair_spec _ _ _ _ H)
    as [[_ ->] | (p & sides & Hp & [[_ ->] | [Hout ->]])]; [| done |].
  - apply Forall_app. split; [done |]. repeat constructor; cbn.
    + by intros ->%list_elem_of_singleton.
    + apply not_elem_of_nil.
  - apply Forall_insert; [done |]. cbn.
    pose proof (Forall_lookup_1 _ _ _ _ Hd Hp) as [Hm Hnd]. cbn in Hm, Hnd. split.
    + rewrite elem_of_app, list_elem_of_singleton. intros [? | ?]; [done | congruence].
    + apply NoDup_app. repeat split; [done | | apply NoDup_singleton].
      intros x Hx ->%list_elem_of_singleton. done.
Qed.

Lemma sideEntries_cons (e : Z * list Z) (l : list (Z * list Z)) :
  sideEntries (e :: l) = Z.of_nat (length e.2) + sideEntries l.
Proof. reflexivity. Qed.

Lemma sideEntries_app (l1 l2 : list (Z * list Z)) :
  sideEntries (l1 ++ l2) = sideEntries l1 + sideEntries l2.
Proof.
  induction l1 as [|e l1 IH]; [done |].
  rewrite <- app_comm_cons, !sideEntries_cons, IH. lia.
Qed.

Lemma sideEntries_insert (l : list (Z * list Z)) (p : nat) (main side : Z)
    (sides : list Z) :
  l !! p = Some (main, sides) ->
  sideEntries (<[p := (main, sides ++ [side])]> l) = sideEntries l + 1.
Proof.
  revert p. induction l as [|e l IH]; intros p Hp; [done |].
  destruct p as [|p].
  - injection Hp as ->.
    change (<[0%nat := (main, sides ++ [side])]> ((main, sides) :: l))
      with ((main, sides ++ [side]) :: l).
    rewrite !sideEntries_cons. cbn [snd]. rewrite length_app. cbn. lia.
  - change (<[S p := (main, sides ++ [side])]> (e :: l))
      with (e :: <[p := (main, sides ++ [side])]> l).
    rewrite !sideEntries_cons, (IH p Hp). lia.
Qed.

Lemma sideEntries_Permutation (l1 l2 : list (Z * list Z)) :
  l1 ≡ₚ l2 -> sideEntries l1 = sideEntries l2.
Proof. induction 1; rewrite ?sideEntries_cons; lia. Qed.

(** A new pair that was not passed before adds one side entry. *)
Lemma writePair_sideEntries (w : gmap Z float) (chosen : list (Z * list Z))
    (main side : Z) (chosen' : list (Z * list Z)) :
  writePair chosen main side = Ok chosen' ->
  sidesPassed w chosen -> ~ passed w (compact main side) ->
  sideEntries chosen' = sideEntries chosen + 1 /\
  forall w', sidesPassed w' chosen -> passed w' (compact main side) ->
             sidesPassed w' chosen'.
Proof.
  intros H Hpassed Hnew. unfold sidesPassed in *.
  destruct (writePair_spec _ _ _ _ H)
    as [[_ ->] | (p & sides & Hp & [[Hin ->] | [Hout ->]])].
  - split; [rewrite sideEntries_app; cbn; lia |].
    intros w' Hw' Hk. apply Forall_app. split; [done |]. by repeat constructor.
  - exfalso. apply Hnew.
    pose proof (Forall_lookup_1 _ _ _ _ Hpassed Hp) as Hsides. cbn in Hsides.
    rewrite Forall_forall in Hsides. by apply Hsides.
  - split; [by apply sideEntries_insert |].
    intros w' Hw' Hk. apply Forall_insert; [done |]. cbn.
    pose proof (Forall_lookup_1 _ _ _ _ Hw' Hp) as Hsides. cbn in Hsides.
    apply Forall_app. split; [done |]. by repeat constructor.
Qed.


(** *** One iteration of the loop *)

Lemma pickPair_picked (config : Configuration) (resolution : float)
    (w : gmap Z float) (filteredCameras : LabelledCameras) (rMain rSide : float)
    (w' : gmap Z float) (main side : Z) :
  pickPair config resolution w filteredCameras rMain rSide = Ok (w', Some (main, side)) ->
  main <> side /\ ~ passed w (compact main side) /\ passed w' (compact main side).
Proof.
  intros H.
  destruct (pickPair_votes (fun _ => True) _ _ _ _ _ _ _ _ H)
    as (mainCamera & mws & sw & idx & drawn & _ & _ & _ & _ & Hne & Hcases).
  { apply Forall_forall. done. }
  cbv zeta in Hcases.
  destruct Hcases as [(_ & [=] & _) | (Hnp & add & _ & _ & _ & _ & Hres)].
  destruct Hres as [[Hp Hpicked] | [_ [=]]].
  destruct (index drawn =? -1); [discriminate |].
  injection Hpicked as -> ->. done.
Qed.

Lemma pickPair_passed (config : Configuration) (resolution : float)
    (w : gmap Z float) (filteredCameras : LabelledCameras) (rMain rSide : float)
    (w' : gmap Z float) (picked : option (Z * Z)) (k : Z) :
  pickPair config resolution w filteredCameras rMain rSide = Ok (w', picked) ->
  f_leb f_one f_one = true ->
  passed w k -> passed w' k.
Proof.
  intros H Hone Hk.
  destruct (pickPair_votes (fun _ => True) _ _ _ _ _ _ _ _ H)
    as (mainCamera & mws & sw & idx & drawn & _ & _ & _ & _ & Hne & Hcases).
  { apply Forall_forall. done. }
  cbv zeta in Hcases. unfold passed in *.
  destruct Hcases as [(_ & _ & Hsame) | (Hnp & add & _ & Hother & Hdiag & _ & _)].
  - by rewrite Hsame.
  - destruct (decide (k = compact (index mainCamera) (index drawn))) as [-> | Hkey];
      [done |].
    destruct (decide (k = compact (index mainCamera) (index mainCamera)))
      as [-> | Hkd].
    + rewrite Hdiag; [done | congruence].
    + by rewrite Hother.
Qed.

(** The three ways an iteration can end without a fault. *)
Lemma shotStep_spec (config : Configuration) (resolution : float)
    (cameras : list Mat) (st : Selection) (s : Shot) (st' : Selection)
    (e : option (Z * Z)) :
  shotStep config resolution cameras st s = Ok (st', e) ->
  (st' = st /\ e = None) \/
  (exists filteredCameras,
     filterCameras (viewer s) (depth s) cameras = Ok filteredCameras /\
     pickPair config resolution (weights st) filteredCameras (rMain s) (rSide s)
       = Ok (weights st', e) /\
     match e with
     | None =>
         chosenCameras st' = chosenCameras st /\ cameraCount st' = cameraCount st
     | Some (main, side) =>
         writePair (chosenCameras st) main side = Ok (chosenCameras st') /\
         cameraCount st' = cameraCount st + 1
     end).
Proof.
  unfold shotStep. intros H.
  apply bind_Ok in H as (filteredCameras & Hf & H).
  destruct (2 <=? Z.of_nat (length filteredCameras)).
  - right. exists filteredCameras. split; [done |].
    apply bind_Ok in H as ([w' picked] & Hpick & H).
    destruct picked as [[main side]|].
    + apply bind_Ok in H as (chosen & Hw & H). by injection H as <- <-.
    + by injection H as <- <-.
  - left. by injection H as <- <-.
Qed.

Lemma shotStep_distinctSides (config : Configuration) (resolution : float)
    (cameras : list Mat) (st : Selection) (s : Shot) (st' : Selection)
    (e : option (Z * Z)) :
  shotStep config resolution cameras st s = Ok (st', e) ->
  distinctSides (chosenCameras st) -> distinctSides (chosenCameras st').
Proof.
  intros H Hd.
  destruct (shotStep_spec _ _ _ _ _ _ _ H) as [[-> _] | (f & _ & Hpick & He)];
    [done |].
  destruct e as [[main side]|].
  - destruct He as [Hw _].
    destruct (pickPair_picked _ _ _ _ _ _ _ _ _ Hpick) as (Hne & _).
    by eapply writePair_distinctSides.
  - destruct He as [-> _]. done.
Qed.

Lemma shotStep_counted (config : Configuration) (resolution : float)
    (cameras : list Mat) (st : Selection) (s : Shot) (st' : Selection)
    (e : option (Z * Z)) :
  f_leb f_one f_one = true ->
  shotStep config resolution cameras st s = Ok (st', e) ->
  counted st -> counted st'.
Proof.
  intros Hone H [Hcount Hpassed].
  destruct (shotStep_spec _ _ _ _ _ _ _ H) as [[-> _] | (f & _ & Hpick & He)];
    [done |].
  assert (Hkeep : sidesPassed (weights st') (chosenCameras st)).
  { unfold sidesPassed in *. eapply Forall_impl; [exact Hpassed |].
    intros entry Hentry. eapply Forall_impl; [exact Hentry |].
    intros side Hside. by eapply pickPair_passed. }
  destruct e as [[main side]|].
  - destruct He as [Hw Hc].
    destruct (pickPair_picked _ _ _ _ _ _ _ _ _ Hpick) as (_ & Hnew & Hnow).
    destruct (writePair_sideEntries _ _ _ _ _ Hw Hpassed Hnew) as [Hentries Hnext].
    split; [lia | by apply Hnext].
  - destruct He as [Hch Hc]. split; [congruence | by rewrite Hch].
Qed.

Lemma shotLoop_invariant (P : Selection -> Prop) (config : Configuration)
    (resolution : float) (cameras : list Mat) (shots : list Shot)
    (st st' : Selection) (log : list (option (Z * Z))) :
  (forall st s st' e,
     shotStep config resolution cameras st s = Ok (st', e) -> P st -> P st') ->
  shotLoop config resolution cameras shots st = Ok (st', log) ->
  P st -> P st'.
Proof.
  intros Hstep. revert st log. induction shots as [|s shots IH]; intros st log H Hst;
    cbn in H.
  - by injection H as <- <-.
  - apply bind_Ok in H as ([st1 e] & H1 & H).
    apply bind_Ok in H as ([st2 es] & H2 & H).
    injection H as <- <-. eapply IH; [exact H2 |]. by eapply Hstep.
Qed.


(** *** The whole run *)

Lemma chooseCameras_loop (config : Configuration) (faceAreas : list float)
    (cameras : list Mat) (shots : nat -> Shot) (count : Z)
    (chosen : list (Z * list Z)) :
  chooseCameras config faceAreas cameras shots = Ok (count, chosen) ->
  exists st log,
    shotLoop config
      (samplingResolution config cameras (foldl f_add f_zero faceAreas)) cameras
      (shots <$> seq 0 (Z.to_nat shotCount)) (mkSelection ∅ 0 []) = Ok (st, log) /\
    count = cameraCount st /\
    chosen ≡ₚ chosenCameras st.
Proof.
  unfold chooseCameras. intros H.
  apply bind_Ok in H as ([st log] & Hloop & H). injection H as <- <-.
  exists st, log. repeat split; [done |]. apply merge_sort_Permutation.
Qed.

(** C7: in the table that [chooseCameras] leaves behind, no main camera
    is among its own side cameras and no side camera is listed twice
    under one main camera. *)
Theorem chosen_sides_distinct (config : Configuration) (faceAreas : list float)
    (cameras : list Mat) (shots : nat -> Shot) (count : Z)
    (chosen : list (Z * list Z)) (main : Z) (sides : list Z)
    (Hrun : chooseCameras config faceAreas cameras shots = Ok (count, chosen))
    (Hentry : (main, sides) ∈ chosen) :
  (main ∉ sides) /\ NoDup sides.
Proof.
  destruct (chooseCameras_loop _ _ _ _ _ _ Hrun) as (st & log & Hloop & _ & Hperm).
  assert (Hd : distinctSides (chosenCameras st)).
  { apply (shotLoop_invariant (fun st => distinctSides (chosenCameras st))
             _ _ _ _ _ _ _ (shotStep_distinctSides _ _ _) Hloop).
    constructor. }
  unfold distinctSides in Hd. rewrite <- Hperm, Forall_forall in Hd.
  apply (Hd _ Hentry).
Qed.

(** C10: the count that [chooseCameras] returns is the number of side
    entries of the table it leaves behind. *)
Theorem count_is_side_entries (config : Configuration) (faceAreas : list float)
    (cameras : list Mat) (shots : nat -> Shot) (count : Z)
    (chosen : list (Z * list Z))
    (Hone : f_leb f_one f_one = true)
    (Hrun : chooseCameras config faceAreas cameras shots = Ok (count, chosen)) :
  count = sideEntries chosen.
Proof.
  destruct (chooseCameras_loop _ _ _ _ _ _ Hrun) as (st & log & Hloop & -> & Hperm).
  assert (Hc : counted st).
  { apply (shotLoop_invariant counted
             _ _ _ _ _ _ _
             (fun st s st' e => shotStep_counted _ _ _ st s st' e Hone) Hloop).
    split; [done | constructor]. }
  destruct Hc as [-> _]. symmetry. by apply sideEntries_Permutation.
Qed.


(** *** Votes along the run *)

(** The labels that [filterCameras] produces carry the positions of
    the cameras. *)
Lemma visible_index (viewer camera : Mat) (depth : DepthBuffer) (i : Z)
    (p : CameraLabel * Mat) :
  visible viewer depth i camera = Ok (Some p) -> index p.1 = i.
Proof.
  unfold visible.
  destruct (_ || _); [done |].
  destruct (pixel _ (depth_rows depth)) as [row|]; [cbn | done].
  destruct (pixel _ (depth_cols depth)) as [col|]; [cbn | done].
  destruct (_ || _); [done |].
  destruct (depth_at depth row col) as [d|]; [cbn | done].
  destruct (_ && _); [done |].
  destruct (f_ltb _ f_zero); [done |].
  destruct (_ || _); [done |].
  by intros [= <-].
Qed.

Lemma filterCameras_from_indices (viewer : Mat) (depth : DepthBuffer)
    (cameras : list Mat) (i : Z) (acc filtered : LabelledCameras) :
  filterCameras_from viewer depth i cameras acc = Ok filtered ->
  0 <= i ->
  Forall (fun p => 0 <= index p.1 < i + Z.of_nat (length cameras)) acc ->
  Forall (fun p => 0 <= index p.1 < i + Z.of_nat (length cameras)) filtered.
Proof.
  revert i acc. induction cameras as [|camera rest IH]; intros i acc H Hi Hacc;
    cbn in H.
  - by injection H as <-.
  - apply bind_Ok in H as (v & Hv & H).
    cbn [length]. rewrite Nat2Z.inj_succ.
    replace (i + Z.succ (Z.of_nat (length rest)))
      with ((i + 1) + Z.of_nat (length rest)) by lia.
    apply (IH _ _ H); [lia |].
    assert (Hacc' : Forall (fun p : CameraLabel * Mat =>
              0 <= index p.1 < i + 1 + Z.of_nat (length rest)) acc).
    { eapply Forall_impl; [exact Hacc |]. cbn [length]. intros p. cbn beta. lia. }
    destruct v as [p|]; [|done].
    apply Forall_app. split; [done |]. apply Forall_singleton.
    rewrite (visible_index _ _ _ _ _ Hv). lia.
Qed.

Lemma filterCameras_indices (viewer : Mat) (depth : DepthBuffer)
    (cameras : list Mat) (filtered : LabelledCameras) :
  filterCameras viewer depth cameras = Ok filtered ->
  Forall (fun p => 0 <= index p.1 < Z.of_nat (length cameras)) filtered.
Proof.
  intros H. apply (filterCameras_from_indices _ _ _ 0 [] _ H); [lia | constructor].
Qed.

End SelectionProperties.


Section VoteSettling.
Context `{Fl : Floating} `{Ex : !Externals}.








End VoteSettling.

Lemma chosen_sides_distinct_witness :
  chooseCameras config [fl 1; fl 1] threeCameras shotsA
    = Ok (4, [(0, [1; 2]); (1, [0; 2])]) /\
  (0 ∉ [1; 2]) /\ NoDup [1; 2].
Proof.
  assert (Hrun : chooseCameras config [fl 1; fl 1] threeCameras shotsA
                 = Ok (4, [(0, [1; 2]); (1, [0; 2])])) by (vm_compute; reflexivity).
  split; [exact Hrun |].
  apply (chosen_sides_distinct config [fl 1; fl 1] threeCameras shotsA
           4 [(0, [1; 2]); (1, [0; 2])] 0 [1; 2] Hrun).
  apply list_elem_of_here.
Defined.

Lemma count_is_side_entries_witness :
  chooseCameras config [fl 1; fl 1] threeCameras shotsA
    = Ok (4, [(0, [1; 2]); (1, [0; 2])]) /\
  4 = sideEntries [(0, [1; 2]); (1, [0; 2])].
Proof.
  assert (Hrun : chooseCameras config [fl 1; fl 1] threeCameras shotsA
                 = Ok (4, [(0, [1; 2]); (1, [0; 2])])) by (vm_compute; reflexivity).
  split; [exact Hrun |].
  apply (count_is_side_entries config [fl 1; fl 1] threeCameras shotsA
           4 [(0, [1; 2]); (1, [0; 2])]); [reflexivity | exact Hrun].
Defined.

Lemma outcome_Ok {A B} (r : result (A * B)) (d : A * B) :
  isOk r = true -> r = Ok ((outcome r d).1, (outcome r d).2).
Proof. by destruct r as [[a b]|]. Qed.



(** * Further properties of the sources *)

(** ** The weighted draws *)

Section DrawsByWeight.
Context `{Fl : Floating} `{Ex : !Externals}.

Lemma bisect_from_spec (l : list float) (choice : float) (i : Z) :
  (Forall (fun x => f_ltb choice x = false) l /\
   bisect_from i l choice = i + Z.of_nat (length l)) \/
  (exists p x,
     l !! p = Some x /\ f_ltb choice x = true /\
     Forall (fun y => f_ltb choice y = false) (take p l) /\
     bisect_from i l choice = i + Z.of_nat p - 1).
Proof.
  revert i. induction l as [|x l IH]; intros i.
  - left. split; [constructor | cbn; lia].
  - cbn [bisect_from]. destruct (f_ltb choice x) eqn:Hx.
    + right. exists 0%nat, x. repeat split; first [done | lia].
    + destruct (IH (i + 1)) as [[Hall ->] | (p & y & Hp & Hy & Hall & ->)].
      * left. split; [by constructor | cbn [length]; lia].
      * right. exists (S p), y. repeat split; first [done | lia | by constructor].
Qed.

(** X1: [bisect] returns the position before the first entry that exceeds
    the drawn value, which is [-1] when the first entry does, and the size
    of the list (never the last position) when no entry does. *)
Theorem bisect_first_greater (l : list float) (choice : float) :
  (Forall (fun x => f_ltb choice x = false) l /\
   bisect l choice = Z.of_nat (length l)) \/
  (exists p x,
     l !! p = Some x /\ f_ltb choice x = true /\
     Forall (fun y => f_ltb choice y = false) (take p l) /\
     bisect l choice = Z.of_nat p - 1).
Proof.
  unfold bisect.
  destruct (bisect_from_spec l choice 0) as [[H ->] | (p & x & Hp & Hx & H & ->)].
  - left. split; [done | lia].
  - right. exists p, x. repeat split; first [done | lia].
Qed.

Lemma length_runningSums (acc : float) (xs : list float) :
  length (runningSums acc xs) = length xs.
Proof. revert acc. induction xs as [|x xs IH]; intros acc; cbn; [done | by rewrite IH]. Qed.

Lemma last_runningSums (acc : float) (xs : list float) :
  last (acc :: runningSums acc xs) = Some (foldl f_add acc xs).
Proof.
  revert acc. induction xs as [|x xs IH]; intros acc; [done |].
  cbn [runningSums foldl]. rewrite last_cons_cons. apply IH.
Qed.

Lemma back_last (v : list float) (x : float) : last v = Some x -> back v = Ok x.
Proof.
  intros H. unfold back. apply at_lookup.
  - destruct v; [done | cbn [length]; lia].
  - rewrite last_lookup in H.
    replace (Z.to_nat (Z.of_nat (length v) - 1)) with (pred (length v)) by lia. done.
Qed.

(** The draw over the sums [0 :: sums]: the position is in range exactly
    when the drawn value hits. *)
Lemma bisect_hits (choice : float) (sums : list float) :
  (hits choice sums ->
   exists k, drawnAt choice sums k /\ bisect (f_zero :: sums) choice = Z.of_nat k) /\
  (~ hits choice sums ->
   bisect (f_zero :: sums) choice = -1 \/
   bisect (f_zero :: sums) choice = Z.of_nat (length sums) + 1).
Proof.
  unfold bisect.
  destruct (bisect_from_spec (f_zero :: sums) choice 0)
    as [[Hall ->] | (p & x & Hp & Hx & Hall & ->)].
  - apply Forall_cons in Hall as [H0 Hall]. split.
    + intros [_ Hex]. apply Exists_exists in Hex as (x & Hin & Hx).
      rewrite Forall_forall in Hall. rewrite (Hall x Hin) in Hx. done.
    + intros _. right. cbn [length]. lia.
  - destruct p as [|k].
    + injection Hp as <-. split.
      * intros [H0 _]. congruence.
      * intros _. left. lia.
    + cbn in Hp. split.
      * intros _. exists k. split; [|lia]. split; [done |]. by exists x.
      * intros Hn. exfalso. apply Hn. split.
        -- by apply Forall_cons in Hall as [H0 _].
        -- apply Exists_exists. exists x. split; [by eapply list_elem_of_lookup_2 | done].
Qed.

Lemma drawnAt_lt (choice : float) (sums : list float) (k : nat) :
  drawnAt choice sums k -> (k < length sums)%nat.
Proof. intros (_ & hi & Hhi & _). by eapply lookup_lt_Some. Qed.

(** The loop of [chooseCameras] that fills [areaSum]. *)
Lemma areaSum_from_sums (faceAreas : list float) (i : nat) (v : list float) (acc : float) :
  v !! i = Some acc ->
  (i + length faceAreas < length v)%nat ->
  areaSum_from faceAreas (Z.of_nat i) v
    = Ok (take (S i) v ++ runningSums acc faceAreas
            ++ drop (S i + length faceAreas) v).
Proof.
  revert i v acc. induction faceAreas as [|x xs IH]; intros i v acc Hi Hlen.
  - cbn. rewrite Nat.add_0_r. by rewrite take_drop.
  - cbn [areaSum_from length runningSums] in *.
    rewrite (at_lookup v (Z.of_nat i) acc) by (first [lia | by rewrite Nat2Z.id]).
    cbn. unfold set_at.
    destruct (Z.ltb_spec (Z.of_nat i + 1) 0); [lia |].
    destruct (Z.leb_spec (Z.of_nat (length v)) (Z.of_nat i + 1)); [lia |].
    cbn. replace (Z.to_nat (Z.of_nat i + 1)) with (S i) by lia.
    replace (Z.of_nat i + 1) with (Z.of_nat (S i)) by lia.
    rewrite (IH (S i) _ (f_add acc x)).
    + f_equal. rewrite (take_S_r _ (S i) (f_add acc x)).
      * rewrite take_insert_ge by lia. rewrite <- app_assoc. cbn.
        rewrite drop_insert_lt by lia.
        replace (S (i + S (length xs))) with (S (S (i + length xs))) by lia. done.
      * apply list_lookup_insert_eq. lia.
    + apply list_lookup_insert_eq. lia.
    + rewrite length_insert. lia.
Qed.

(** X2: [chooseFace] never faults; the drawn face number is in the range of the
    faces exactly when the drawn value is not negative and below some
    entry of [areaSum], and then it is the face whose share of the area contains the
    drawn value.  Otherwise it is [-1] or [faces.rows + 1]. *)
Theorem chooseFace_in_range (faceAreas : list float) (r : float) :
  let choice := f_mul r (foldl f_add f_zero faceAreas) in
  let sums := runningSums f_zero faceAreas in
  exists idx,
    chooseFace faceAreas r = Ok idx /\
    (hits choice sums ->
     exists k, idx = Z.of_nat k /\ (k < length faceAreas)%nat /\ drawnAt choice sums k) /\
    (~ hits choice sums -> idx = -1 \/ idx = Z.of_nat (length faceAreas) + 1).
Proof.
  intros choice sums. unfold chooseFace.
  assert (Hv : areaSum_from faceAreas 0 (replicate (length faceAreas + 1) f_zero)
                 = Ok (f_zero :: sums)).
  { rewrite (areaSum_from_sums faceAreas 0 _ f_zero).
    - rewrite Nat.add_1_r. cbn [replicate take drop Nat.add].
      rewrite drop_ge by (rewrite length_replicate; lia).
      by rewrite take_0, app_nil_r.
    - by rewrite Nat.add_1_r.
    - rewrite length_replicate. lia. }
  rewrite Hv. cbn [mbind result_bind].
  pose proof (back_last _ _ (last_runningSums f_zero faceAreas)) as Hb.
  fold sums in Hb. rewrite Hb. cbn [mbind result_bind].
  exists (bisect (f_zero :: sums) choice). split; [done |].
  destruct (bisect_hits choice sums) as [Hhit Hmiss]. split.
  - intros H. destruct (Hhit H) as (k & Hk & ->). exists k.
    repeat split; [|apply Hk..].
    apply drawnAt_lt in Hk. unfold sums in Hk. by rewrite length_runningSums in Hk.
  - intros H. destruct (Hmiss H) as [-> | ->]; [by left | right].
    unfold sums. by rewrite length_runningSums.
Qed.

Lemma at_out {A} (v : list A) (i : Z) :
  i < 0 \/ Z.of_nat (length v) <= i -> at_ v i = Abort OutOfBounds.
Proof.
  intros H. unfold at_. destruct (Z.ltb_spec i 0); [done |].
  rewrite lookup_ge_None_2; [done | lia].
Qed.

Lemma set_at_Ok {A} (v : list A) (i : nat) (a : A) :
  (i < length v)%nat -> set_at v (Z.of_nat i) a = Ok (<[i := a]> v).
Proof.
  intros H. unfold set_at.
  destruct (Z.ltb_spec (Z.of_nat i) 0); [lia |].
  destruct (Z.leb_spec (Z.of_nat (length v)) (Z.of_nat i)); [lia |].
  cbn. by rewrite Nat2Z.id.
Qed.

Lemma set_at_out {A} (v : list A) (i : Z) (a : A) :
  i < 0 \/ Z.of_nat (length v) <= i -> set_at v i a = Abort OutOfBounds.
Proof.
  intros H. unfold set_at.
  destruct (Z.ltb_spec i 0); [done |].
  destruct (Z.leb_spec (Z.of_nat (length v)) i); [done | lia].
Qed.

(** A step of a loop that extends the running sums in a vector. *)
Lemma sums_step (v : list float) (i : nat) (acc x : float) (m : nat) (rest : list float) :
  v !! i = Some acc -> (S i < length v)%nat ->
  take (S (S i)) (<[S i := f_add acc x]> v) ++ rest ++ drop (S (S i) + m) (<[S i := f_add acc x]> v)
  = take (S i) v ++ (f_add acc x :: rest) ++ drop (S i + S m) v.
Proof.
  intros Hi Hlen.
  rewrite (take_S_r _ (S i) (f_add acc x)) by (apply list_lookup_insert_eq; lia).
  rewrite take_insert_ge by lia. rewrite <- app_assoc. cbn.
  rewrite drop_insert_lt by lia.
  by replace (S (i + S m)) with (S (S (i + m))) by lia.
Qed.

Lemma chooseMain_weights_sums (w : gmap Z float) (boost : float) (n : Z)
    (cams : LabelledCameras) (i : nat) (v : list float) (acc out : float) :
  v !! i = Some acc ->
  (i + length cams < length v)%nat ->
  chooseMain_weights w boost n cams (Z.of_nat i) v out
    = Ok (take (S i) v ++ runningSums acc (mainWeight w boost n <$> cams.*1)
            ++ drop (S i + length cams) v,
          foldl f_add out (unboostedMain <$> cams.*1)).
Proof.
  revert i v acc out. induction cams as [|[label camera] cams IH]; intros i v acc out Hi Hlen.
  - cbn. rewrite Nat.add_0_r. by rewrite take_drop.
  - cbn [chooseMain_weights length fmap list_fmap runningSums foldl fst] in *.
    rewrite (at_lookup v (Z.of_nat i) acc) by (first [lia | by rewrite Nat2Z.id]).
    cbn [mbind result_bind].
    replace (Z.of_nat i + 1) with (Z.of_nat (S i)) by lia.
    rewrite set_at_Ok by lia. cbn [mbind result_bind].
    fold (unboostedMain label). fold (mainWeight w boost n label).
    rewrite (IH (S i) _ (f_add acc (mainWeight w boost n label))).
    + f_equal. f_equal. by apply sums_step; [|lia].
    + apply list_lookup_insert_eq. lia.
    + rewrite length_insert. lia.
Qed.

(** [chooseMain] on a non-empty list: [weightSum] holds the running sums
    of the boosted weights, and the camera at the drawn position is
    returned with the sum of the weights before the boost. *)
Lemma chooseMain_unfold (w : gmap Z float) (filteredCameras : LabelledCameras)
    (boost r : float) :
  filteredCameras <> [] ->
  let weights := mainWeight w boost (Z.of_nat (length filteredCameras))
                   <$> filteredCameras.*1 in
  let sums := runningSums f_zero weights in
  let choice := f_mul r (foldl f_add f_zero weights) in
  length sums = length filteredCameras /\
  chooseMain w filteredCameras boost r
  = (chosen ← at_ filteredCameras (bisect (f_zero :: sums) choice);
     Ok (chosen.1, foldl f_add f_zero (unboostedMain <$> filteredCameras.*1))).
Proof.
  intros Hsome weights sums choice. unfold chooseMain.
  set (n := length filteredCameras).
  assert (Hn : (0 < n)%nat) by (destruct filteredCameras; [done | cbn; lia]).
  destruct (Z.ltb_spec 0 (Z.of_nat n)) as [_|]; [|lia]. cbn [assert mbind result_bind].
  assert (Hv : chooseMain_weights w boost (Z.of_nat n) filteredCameras 0
                 (replicate (Z.to_nat (Z.of_nat n + 1)) f_zero) f_zero
               = Ok (f_zero :: sums, foldl f_add f_zero (unboostedMain <$> filteredCameras.*1))).
  { replace (Z.to_nat (Z.of_nat n + 1)) with (S n) by lia.
    rewrite (chooseMain_weights_sums w boost _ filteredCameras 0 _ f_zero f_zero).
    - cbn [replicate take drop Nat.add].
      rewrite drop_ge by (rewrite length_replicate; lia).
      by rewrite take_0, app_nil_r.
    - done.
    - rewrite length_replicate. fold n. lia. }
  rewrite Hv. cbn [mbind result_bind].
  pose proof (back_last _ _ (last_runningSums f_zero weights)) as Hb.
  fold sums in Hb. rewrite Hb. cbn [mbind result_bind]. fold choice.
  split; [|done]. unfold sums, weights. by rewrite length_runningSums, !length_fmap.
Qed.

(** X3: [chooseMain] on a non-empty list.  [weightSum] holds the running
    sums of the boosted weights.  When the drawn value hits, the camera
    whose share of the sums contains it is returned, with the sum of the
    weights before the boost; otherwise [filteredCameras] is read
    outside its range. *)
Theorem chooseMain_by_weight (w : gmap Z float) (filteredCameras : LabelledCameras)
    (boost r : float) (Hsome : filteredCameras <> []) :
  let weights := mainWeight w boost (Z.of_nat (length filteredCameras))
                   <$> filteredCameras.*1 in
  let sums := runningSums f_zero weights in
  let choice := f_mul r (foldl f_add f_zero weights) in
  (hits choice sums ->
   exists k label camera,
     drawnAt choice sums k /\
     filteredCameras !! k = Some (label, camera) /\
     chooseMain w filteredCameras boost r
       = Ok (label, foldl f_add f_zero (unboostedMain <$> filteredCameras.*1))) /\
  (~ hits choice sums ->
   chooseMain w filteredCameras boost r = Abort OutOfBounds).
Proof.
  intros weights sums choice.
  destruct (chooseMain_unfold w filteredCameras boost r Hsome) as [Hlen ->].
  fold weights sums choice in Hlen |- *.
  destruct (bisect_hits choice sums) as [Hhit Hmiss]. split.
  - intros H. destruct (Hhit H) as (k & Hk & ->).
    pose proof (drawnAt_lt _ _ _ Hk) as Hlt. rewrite Hlen in Hlt.
    destruct (lookup_lt_is_Some_2 filteredCameras k Hlt) as [[label camera] Hat].
    exists k, label, camera. repeat split; [apply Hk.. | done |].
    rewrite (at_lookup _ _ (label, camera)) by (first [lia | by rewrite Nat2Z.id]).
    done.
  - intros H. rewrite at_out; [done |].
    destruct (Hmiss H) as [-> | ->]; [left; lia | right; lia].
Qed.

Lemma length_others (mainCamera : CameraLabel) (cams : LabelledCameras) :
  (length (others mainCamera cams) <= length cams)%nat.
Proof. unfold others. rewrite <- (length_fmap fst cams). apply length_filter. Qed.

Lemma others_cons (mainCamera label : CameraLabel) (camera : Mat) (cams : LabelledCameras) :
  others mainCamera ((label, camera) :: cams)
  = if index label =? index mainCamera then others mainCamera cams
    else label :: others mainCamera cams.
Proof.
  unfold others. cbn [fmap list_fmap fst]. rewrite filter_cons.
  destruct (Z.eqb_spec (index label) (index mainCamera)); by destruct (decide _).
Qed.

(** The loop of [chooseSide]: the labels other than the main camera are
    collected and their weights are summed up, unless their number
    exceeds the room in [weightSum]. *)
Lemma chooseSide_weights_sums (w : gmap Z float) (mainCamera : CameraLabel)
    (boost : float) (n : Z) (cams : LabelledCameras) (i : nat) (v : list float)
    (labels : list CameraLabel) (acc actual : float) :
  v !! i = Some acc ->
  chooseSide_weights w mainCamera boost n cams (mkSide v labels actual (Z.of_nat i))
  = if decide (i + length (others mainCamera cams) < length v)%nat
    then Ok (mkSide
               (take (S i) v
                  ++ runningSums acc (sideWeight w mainCamera boost n <$> others mainCamera cams)
                  ++ drop (S i + length (others mainCamera cams)) v)
               (labels ++ others mainCamera cams)
               (foldl f_add actual (unboostedSide mainCamera <$> others mainCamera cams))
               (Z.of_nat (i + length (others mainCamera cams))))
    else Abort OutOfBounds.
Proof.
  revert i v labels acc actual.
  induction cams as [|[label camera] cams IH]; intros i v labels acc actual Hi.
  - pose proof (lookup_lt_Some _ _ _ Hi) as Hlt.
    cbn. rewrite decide_True by lia.
    rewrite !Nat.add_0_r, app_nil_r. by rewrite take_drop.
  - cbn [chooseSide_weights]. rewrite others_cons.
    destruct (Z.eqb_spec (index label) (index mainCamera)) as [Heq | Hne].
    + by apply IH.
    + cbn [side_weightSum side_i side_labels side_actualWeightSum
           length fmap list_fmap runningSums foldl].
      rewrite (at_lookup v (Z.of_nat i) acc) by (first [lia | by rewrite Nat2Z.id]).
      cbn [mbind result_bind].
      fold (unboostedSide mainCamera label). fold (sideWeight w mainCamera boost n label).
      replace (Z.of_nat i + 1) with (Z.of_nat (S i)) by lia.
      destruct (decide (S i < length v)%nat) as [Hlt | Hge].
      * rewrite set_at_Ok by lia. cbn [mbind result_bind].
        rewrite (IH (S i) _ _ (f_add acc (sideWeight w mainCamera boost n label)))
          by (apply list_lookup_insert_eq; lia).
        rewrite length_insert.
        destruct (decide (S i + length (others mainCamera cams) < length v)%nat).
        -- rewrite decide_True by lia. f_equal.
           rewrite <- app_assoc. cbn [app].
           replace (Z.of_nat (S i + length (others mainCamera cams)))
             with (Z.of_nat (i + S (length (others mainCamera cams)))) by lia.
           f_equal. by apply sums_step.
        -- by rewrite decide_False by lia.
      * rewrite set_at_out by lia. cbn. by rewrite decide_False by lia.
Qed.

(** X4: [chooseSide] with a main camera that is not among the
    filtered cameras.  No label is skipped, and the loop writes
    [weightSum[filteredCameras.size()]], one past the end of the vector. *)
Theorem chooseSide_main_absent (w : gmap Z float) (mainCamera : CameraLabel)
    (threshold boost : float) (filteredCameras : LabelledCameras) (r : float)
    (Htwo : (2 <= length filteredCameras)%nat)
    (Habsent : Forall (fun p => index p.1 <> index mainCamera) filteredCameras) :
  chooseSide w mainCamera threshold boost filteredCameras r = Abort OutOfBounds.
Proof.
  unfold chooseSide, chooseSide_draw.
  destruct (Z.ltb_spec 1 (Z.of_nat (length filteredCameras))) as [_|]; [|lia].
  cbn [assert mbind result_bind].
  pose proof (chooseSide_weights_sums w mainCamera boost
    (Z.of_nat (length filteredCameras)) filteredCameras 0
    (replicate (Z.to_nat (Z.of_nat (length filteredCameras))) f_zero) [] f_zero f_zero)
    as Hloop.
  change (Z.of_nat 0) with 0 in Hloop. rewrite Hloop; clear Hloop.
  - assert (Hall : length (others mainCamera filteredCameras) = length filteredCameras).
    { clear Htwo. induction Habsent as [|[label camera] cams Hne _ IH]; [done |].
      rewrite others_cons. cbn [fst] in Hne.
      destruct (Z.eqb_spec (index label) (index mainCamera)); [done |].
      cbn [length]. by rewrite IH. }
    rewrite decide_False; [done |].
    rewrite Hall, length_replicate. lia.
  - apply lookup_replicate_2. lia.
Qed.

(** [chooseSide] when exactly one of at least two filtered cameras
    carries the index of the main camera: [weightSum] holds the running
    sums of the boosted weights of the other labels, and the vote is cast
    for the drawn position if that is a position in [labels]. *)
Lemma chooseSide_unfold (w : gmap Z float) (mainCamera : CameraLabel)
    (threshold boost : float) (filteredCameras : LabelledCameras) (r : float) :
  (2 <= length filteredCameras)%nat ->
  S (length (others mainCamera filteredCameras)) = length filteredCameras ->
  let labels := others mainCamera filteredCameras in
  let weights := sideWeight w mainCamera boost (Z.of_nat (length filteredCameras))
                   <$> labels in
  let sums := runningSums f_zero weights in
  let choice := f_mul r (foldl f_add f_zero weights) in
  let sw := mkSide (f_zero :: sums) labels
              (foldl f_add f_zero (unboostedSide mainCamera <$> labels))
              (Z.of_nat (length labels)) in
  let idx := bisect (f_zero :: sums) choice in
  length sums = length labels /\
  chooseSide w mainCamera threshold boost filteredCameras r
  = (_ ← assert ((0 <=? idx) && (idx <? Z.of_nat (length labels)));
     chooseSide_vote w mainCamera threshold sw idx).
Proof.
  intros Htwo Honce labels weights sums choice sw idx.
  unfold chooseSide, chooseSide_draw.
  set (n := length filteredCameras) in *.
  destruct (Z.ltb_spec 1 (Z.of_nat n)) as [_|]; [|lia].
  cbn [assert mbind result_bind].
  pose proof (chooseSide_weights_sums w mainCamera boost (Z.of_nat n)
    filteredCameras 0 (replicate (Z.to_nat (Z.of_nat n)) f_zero) [] f_zero f_zero)
    as Hloop.
  change (Z.of_nat 0) with 0 in Hloop.
  rewrite Hloop by (apply lookup_replicate_2; lia). clear Hloop.
  fold labels. rewrite length_replicate, Nat2Z.id.
  rewrite decide_True by (fold labels in Honce; lia).
  cbn [mbind result_bind side_weightSum side_i].
  assert (Hv : take 1 (replicate n f_zero) ++ runningSums f_zero weights
                 ++ drop (1 + length labels) (replicate n f_zero) = f_zero :: sums).
  { rewrite drop_ge by (rewrite length_replicate; fold labels in Honce; lia).
    rewrite app_nil_r. destruct n; [lia | done]. }
  fold weights. rewrite Hv.
  pose proof (back_last _ _ (last_runningSums f_zero weights)) as Hb.
  fold sums in Hb. rewrite Hb. cbn [mbind result_bind app Nat.add]. fold choice idx.
  split; [unfold sums, weights; by rewrite length_runningSums, length_fmap |].
  by destruct (assert _).
Qed.

(** The vote is cast without a fault for a position in [labels]. *)
Lemma chooseSide_vote_total (w : gmap Z float) (mainCamera : CameraLabel)
    (threshold : float) (sums : list float) (labels : list CameraLabel)
    (actual : float) (i : Z) (k : nat) (drawn : CameraLabel) :
  length sums = length labels ->
  labels !! k = Some drawn ->
  exists label w',
    chooseSide_vote w mainCamera threshold (mkSide (f_zero :: sums) labels actual i)
      (Z.of_nat k) = Ok (label, w') /\
    (label = drawn \/ label = dummyLabel).
Proof.
  intros Hlen Hat. pose proof (lookup_lt_Some _ _ _ Hat) as Hlt.
  set (sw := mkSide _ _ _ _).
  assert (Hvote : exists label w',
            chooseSide_vote w mainCamera threshold sw (Z.of_nat k) = Ok (label, w')).
  { unfold chooseSide_vote. cbn [side_labels sw].
    rewrite (at_lookup _ _ drawn) by (first [lia | by rewrite Nat2Z.id]).
    cbn [mbind result_bind].
    destruct (subscript w _) as [v w1].
    destruct (f_leb f_one v); [by eexists _, _ |].
    unfold addWeight. cbn [side_weightSum sw].
    destruct (lookup_lt_is_Some_2 (f_zero :: sums) (S k)) as [hi Hhi];
      [cbn [length]; lia |].
    destruct (lookup_lt_is_Some_2 (f_zero :: sums) k) as [lo Hlo];
      [cbn [length]; lia |].
    rewrite (at_lookup _ (Z.of_nat k + 1) hi)
      by (first [lia | by replace (Z.to_nat (Z.of_nat k + 1)) with (S k) by lia]).
    rewrite (at_lookup _ (Z.of_nat k) lo) by (first [lia | by rewrite Nat2Z.id]).
    cbn [mbind result_bind].
    destruct (subscript _ _) as [v2 w2].
    destruct (subscript _ _) as [v3 w3].
    destruct (f_leb f_one v3); by eexists _, _. }
  destruct Hvote as (label & w' & Hvote). exists label, w'. split; [done |].
  destruct (chooseSide_vote_spec _ _ _ _ _ _ _ Hvote) as (drawn' & Hd & Hcases).
  cbn [side_labels sw] in Hd.
  rewrite (at_lookup _ _ drawn) in Hd by (first [lia | by rewrite Nat2Z.id]).
  injection Hd as <-. cbv zeta in Hcases.
  destruct Hcases as [(_ & -> & _) | (_ & add & _ & _ & _ & _ & [[_ ->] | [_ ->]])];
    auto.
Qed.

(** X5: [chooseSide] when exactly one of at least two filtered cameras
    carries the index of the main camera.  [weightSum] holds the running
    sums of the boosted weights of the other labels.  When the drawn value
    hits, the label whose share of the sums contains it is drawn, and the
    call returns that label or the dummy label; otherwise the assertion on
    the drawn position fails. *)
Theorem chooseSide_by_weight (w : gmap Z float) (mainCamera : CameraLabel)
    (threshold boost : float) (filteredCameras : LabelledCameras) (r : float)
    (Htwo : (2 <= length filteredCameras)%nat)
    (Honce : S (length (others mainCamera filteredCameras)) = length filteredCameras) :
  let weights := sideWeight w mainCamera boost (Z.of_nat (length filteredCameras))
                   <$> others mainCamera filteredCameras in
  let sums := runningSums f_zero weights in
  let choice := f_mul r (foldl f_add f_zero weights) in
  (hits choice sums ->
   exists k drawn label w',
     drawnAt choice sums k /\
     others mainCamera filteredCameras !! k = Some drawn /\
     chooseSide w mainCamera threshold boost filteredCameras r = Ok (label, w') /\
     (label = drawn \/ label = dummyLabel)) /\
  (~ hits choice sums ->
   chooseSide w mainCamera threshold boost filteredCameras r = Abort AssertionFailed).
Proof.
  intros weights sums choice.
  destruct (chooseSide_unfold w mainCamera threshold boost filteredCameras r Htwo Honce)
    as [Hlen ->].
  fold weights sums choice in Hlen |- *.
  set (labels := others mainCamera filteredCameras) in *.
  destruct (bisect_hits choice sums) as [Hhit Hmiss]. split.
  - intros H. destruct (Hhit H) as (k & Hk & ->).
    pose proof (drawnAt_lt _ _ _ Hk) as Hlt. rewrite Hlen in Hlt.
    destruct (lookup_lt_is_Some_2 labels k Hlt) as [drawn Hat].
    destruct (Z.leb_spec 0 (Z.of_nat k)); [|lia].
    destruct (Z.ltb_spec (Z.of_nat k) (Z.of_nat (length labels))); [|lia].
    cbn [andb assert mbind result_bind].
    destruct (chooseSide_vote_total w mainCamera threshold sums labels
                (foldl f_add f_zero (unboostedSide mainCamera <$> labels))
                (Z.of_nat (length labels)) k drawn Hlen Hat)
      as (label & w' & Hvote & Hlabel).
    by exists k, drawn, label, w'.
  - intros H. destruct (Hmiss H) as [-> | ->].
    + done.
    + destruct (Z.leb_spec 0 (Z.of_nat (length sums) + 1)); [|lia].
      destruct (Z.ltb_spec (Z.of_nat (length sums) + 1) (Z.of_nat (length labels)));
        [lia | done].
Qed.

End DrawsByWeight.

(** ** The bundle table *)

Section TableProperties.
Context `{Fl : Floating} `{Ex : !Externals}.

Lemma myFind_from_first {A} (l : list (Z * A)) (i idx : Z) :
  (myFind_from i l idx = -1 /\ Forall (fun e => e.1 <> idx) l) \/
  (exists p e,
     myFind_from i l idx = i + Z.of_nat p /\ l !! p = Some e /\ e.1 = idx /\
     Forall (fun e => e.1 <> idx) (take p l)).
Proof.
  revert i. induction l as [|x l IH]; intros i; cbn [myFind_from].
  - left. by split.
  - destruct (Z.eqb_spec x.1 idx) as [Heq | Hne].
    + right. exists 0%nat, x. repeat split; first [done | lia].
    + destruct (IH (i + 1)) as [[Hr Hall] | (p & e & Hr & Hp & He & Hall)].
      * left. split; [done | by constructor].
      * right. exists (S p), e. repeat split; first [done | lia | by constructor].
Qed.

Lemma myFind_int_from_first (l : list Z) (i idx : Z) :
  (myFind_int_from i l idx = -1 /\ (idx ∉ l)) \/
  (exists p,
     myFind_int_from i l idx = i + Z.of_nat p /\ l !! p = Some idx /\
     (idx ∉ take p l)).
Proof.
  revert i. induction l as [|x l IH]; intros i; cbn [myFind_int_from].
  - left. split; [done | apply not_elem_of_nil].
  - destruct (Z.eqb_spec x idx) as [-> | Hne].
    + right. exists 0%nat. repeat split; [lia | apply not_elem_of_nil].
    + destruct (IH (i + 1)) as [[Hr Hout] | (p & Hr & Hp & Hout)].
      * left. split; [done |]. apply not_elem_of_cons. by split.
      * right. exists (S p). repeat split; [lia | done |].
        cbn [take]. apply not_elem_of_cons. by split.
Qed.

(** X6: both overloads of [myFind] return [-1] exactly when the index is
    not in the list, and otherwise the first position that holds it. *)
Theorem myFind_first_position (table : list (Z * list Z)) (l : list Z) (idx : Z) :
  ((myFind table idx = -1 /\ Forall (fun e => e.1 <> idx) table) \/
   (exists p e,
      myFind table idx = Z.of_nat p /\ table !! p = Some e /\ e.1 = idx /\
      Forall (fun e => e.1 <> idx) (take p table))) /\
  ((myFind_int l idx = -1 /\ (idx ∉ l)) \/
   (exists p,
      myFind_int l idx = Z.of_nat p /\ l !! p = Some idx /\ (idx ∉ take p l))).
Proof.
  unfold myFind, myFind_int. split.
  - destruct (myFind_from_first table 0 idx) as [? | (p & e & -> & ?)]; [by left |].
    right. exists p, e. by rewrite Z.add_0_l.
  - destruct (myFind_int_from_first l 0 idx) as [? | (p & -> & ?)]; [by left |].
    right. exists p. by rewrite Z.add_0_l.
Qed.

Lemma myFind_at (table : list (Z * list Z)) (idx : Z) (p : nat) (e : Z * list Z) :
  table !! p = Some e -> e.1 = idx ->
  Forall (fun e => e.1 <> idx) (take p table) ->
  myFind table idx = Z.of_nat p.
Proof.
  intros Hp He Hall. unfold myFind.
  destruct (myFind_from_first table 0 idx) as [[_ Hno] | (p' & e' & -> & Hp' & He' & Hall')].
  - rewrite Forall_forall in Hno. exfalso. apply (Hno e); [|done].
    by eapply list_elem_of_lookup_2.
  - destruct (Nat.lt_trichotomy p' p) as [Hlt | [-> | Hgt]]; [| lia |].
    + rewrite Forall_forall in Hall. exfalso. apply (Hall e'); [|done].
      apply list_elem_of_lookup. exists p'. by rewrite lookup_take_lt.
    + rewrite Forall_forall in Hall'. exfalso. apply (Hall' e); [|done].
      apply list_elem_of_lookup. exists p. by rewrite lookup_take_lt.
Qed.

Lemma myFind_int_found (l : list Z) (idx : Z) : idx ∈ l -> 0 <= myFind_int l idx.
Proof.
  intros Hin. unfold myFind_int.
  destruct (myFind_int_from_first l 0 idx) as [[_ Hout] | (p & -> & _)]; [done | lia].
Qed.

(** X7: [writePair] never faults, and afterwards [myFind] finds the main
    camera in the table and the side camera in its entry; the main cameras
    of the table keep their order, with the new one appended, and the entries
    of the other main cameras are as before. *)
Theorem writePair_then_found (chosen : list (Z * list Z)) (main side : Z) :
  exists chosen' p sides,
    writePair chosen main side = Ok chosen' /\
    myFind chosen' main = Z.of_nat p /\
    chosen' !! p = Some (main, sides) /\
    0 <= myFind_int sides side /\
    (chosen'.*1 = chosen.*1 \/ chosen'.*1 = chosen.*1 ++ [main]) /\
    (forall e, e.1 <> main -> e ∈ chosen' <-> e ∈ chosen).
Proof.
  unfold writePair.
  destruct (myFind_from_first chosen 0 main) as [[Hr Hall] | (p & e & Hr & Hp & He & Hall)];
    fold (myFind chosen main) in Hr; rewrite Hr.
  - cbn. exists (chosen ++ [(main, [side])]), (length chosen), [side].
    split; [done |]. split; [|split; [|split; [|split]]].
    + apply (myFind_at _ _ _ (main, [side])); [| done |].
      * by rewrite lookup_app_r, Nat.sub_diag by lia.
      * by rewrite take_app_length.
    + by rewrite lookup_app_r, Nat.sub_diag by lia.
    + apply myFind_int_found. left.
    + right. by rewrite fmap_app.
    + intros e He. rewrite elem_of_app, list_elem_of_singleton.
      split; [intros [? | ->]; [done | by cbn in He] | by left].
  - destruct (Z.eqb_spec (0 + Z.of_nat p) (-1)) as [? | _]; [lia |].
    rewrite (at_lookup _ _ e) by (first [lia | by rewrite Z.add_0_l, Nat2Z.id]).
    cbn [mbind result_bind].
    pose proof (lookup_lt_Some _ _ _ Hp) as Hlt.
    destruct e as [m sides]. cbn [fst snd] in *. subst m.
    destruct (Z.eqb_spec (myFind_int sides side) (-1)) as [Hno | Hyes].
    + rewrite Z.add_0_l, set_at_Ok by done.
      exists (<[p := (main, sides ++ [side])]> chosen), p, (sides ++ [side]).
      split; [done |]. split; [|split; [|split; [|split]]].
      * apply (myFind_at _ _ _ (main, sides ++ [side])); [| done |].
        -- by apply list_lookup_insert_eq.
        -- by rewrite take_insert_ge by lia.
      * by apply list_lookup_insert_eq.
      * apply myFind_int_found, elem_of_app. right. left.
      * left. rewrite list_fmap_insert. apply list_insert_id.
        by rewrite list_lookup_fmap, Hp.
      * intros e He. rewrite !list_elem_of_lookup. split.
        -- intros [j Hj]. destruct (decide (j = p)) as [-> | Hne].
           ++ rewrite list_lookup_insert_eq in Hj by done. injection Hj as <-. done.
           ++ rewrite list_lookup_insert_ne in Hj by done. by exists j.
        -- intros [j Hj]. exists j. destruct (decide (j = p)) as [-> | Hne].
           ++ rewrite Hp in Hj. injection Hj as <-. done.
           ++ by rewrite list_lookup_insert_ne.
    + exists chosen, p, sides. split; [done |]. split; [|split; [|split; [|split]]].
      * by apply (myFind_at _ _ _ (main, sides)).
      * done.
      * unfold myFind_int in *.
        destruct (myFind_int_from_first sides 0 side) as [[? _] | (q & -> & _)]; [done | lia].
      * by left.
      * done.
Qed.

End TableProperties.

(** ** The labels of the visibility filter *)

Section FilterCamerasProperties.
Context `{Fl : Floating} `{Ex : !Externals}.

Lemma visible_labelled (viewer camera : Mat) (depth : DepthBuffer) (i : Z)
    (p : CameraLabel * Mat) :
  visible viewer depth i camera = Ok (Some p) ->
  index p.1 = i /\ p.2 = camera /\ labelled viewer depth camera p.1.
Proof.
  unfold visible, labelled, centerFromViewer.
  set (vfc := vec_div (mat_vec camera (extractCameraCenter viewer))
                (c3 (mat_vec camera (extractCameraCenter viewer)))).
  destruct (f_ltb f_one _) eqn:Hz1; [done |].
  destruct (f_ltb _ (f_of_int (-1))) eqn:Hz2; [done |]. cbn [orb].
  destruct (pixel _ (depth_rows depth)) as [row|] eqn:Hrow; [cbn | done].
  destruct (pixel _ (depth_cols depth)) as [col|] eqn:Hcol; [cbn | done].
  destruct (_ || _); [done |].
  destruct (depth_at depth row col) as [d|] eqn:Hd; [cbn | done].
  destruct (f_eqb d backgroundDepth) eqn:Hbg; cbn [negb andb].
  - destruct (f_ltb _ f_zero) eqn:Hdist; [done |].
    destruct (f_ltb (c0 vfc) (f_of_int (-1))) eqn:Hx1; [done |].
    destruct (f_ltb f_one (c0 vfc)) eqn:Hx2; [done |].
    destruct (f_ltb (c1 vfc) (f_of_int (-1))) eqn:Hy1; [done |].
    destruct (f_ltb f_one (c1 vfc)) eqn:Hy2; [done |]. cbn [orb].
    intros [= <-]. cbn [fst snd index viewX viewY distance cosFromViewer].
    repeat split; try done. exists row, col, d. repeat split; try done. by left.
  - destruct (f_leb d _) eqn:Hobs; [done |].
    destruct (f_ltb _ f_zero) eqn:Hdist; [done |].
    destruct (f_ltb (c0 vfc) (f_of_int (-1))) eqn:Hx1; [done |].
    destruct (f_ltb f_one (c0 vfc)) eqn:Hx2; [done |].
    destruct (f_ltb (c1 vfc) (f_of_int (-1))) eqn:Hy1; [done |].
    destruct (f_ltb f_one (c1 vfc)) eqn:Hy2; [done |]. cbn [orb].
    intros [= <-]. cbn [fst snd index viewX viewY distance cosFromViewer].
    repeat split; try done. exists row, col, d. repeat split; try done. by right.
Qed.

Lemma filterCameras_from_labels (viewer : Mat) (depth : DepthBuffer)
    (cameras : list Mat) (i : nat) (before : list Mat) (acc filtered : LabelledCameras) :
  filterCameras_from viewer depth (Z.of_nat i) cameras acc = Ok filtered ->
  length before = i ->
  StronglySorted Z.lt ((fun p => index p.1) <$> acc) ->
  Forall (fun p => 0 <= index p.1 < Z.of_nat i /\
                   (before ++ cameras) !! Z.to_nat (index p.1) = Some p.2 /\
                   labelled viewer depth p.2 p.1) acc ->
  StronglySorted Z.lt ((fun p => index p.1) <$> filtered) /\
  Forall (fun p => 0 <= index p.1 < Z.of_nat (i + length cameras) /\
                   (before ++ cameras) !! Z.to_nat (index p.1) = Some p.2 /\
                   labelled viewer depth p.2 p.1) filtered.
Proof.
  revert i before acc. induction cameras as [|camera rest IH];
    intros i before acc H Hb Hs Hacc; cbn [filterCameras_from] in H.
  - injection H as <-. split; [done |].
    eapply Forall_impl; [exact Hacc |]. cbn beta. intros p (Hr & Hl & Hp).
    cbn [length]. rewrite Nat.add_0_r. done.
  - apply bind_Ok in H as (v & Hv & H).
    replace (Z.of_nat i + 1) with (Z.of_nat (S i)) in H by lia.
    replace (before ++ camera :: rest) with ((before ++ [camera]) ++ rest)
      by (by rewrite <- app_assoc).
    replace (i + length (camera :: rest))%nat with (S i + length rest)%nat
      by (cbn [length]; lia).
    apply (IH _ _ _ H).
    + rewrite length_app. cbn. lia.
    + destruct v as [p|]; [|done].
      destruct (visible_labelled _ _ _ _ _ Hv) as (Hi & _ & _).
      rewrite fmap_app. cbn [fmap list_fmap].
      apply StronglySorted_app_2; [| done | repeat constructor].
      intros x y Hx ->%list_elem_of_singleton.
      apply list_elem_of_fmap in Hx as (q & -> & Hq).
      rewrite Forall_forall in Hacc. specialize (Hacc q Hq). lia.
    + assert (Hacc' : Forall (fun p : CameraLabel * Mat =>
                0 <= index p.1 < Z.of_nat (S i) /\
                ((before ++ [camera]) ++ rest) !! Z.to_nat (index p.1) = Some p.2 /\
                labelled viewer depth p.2 p.1) acc).
      { eapply Forall_impl; [exact Hacc |]. cbn beta. intros p (Hr & Hl & Hp).
        split; [lia |]. split; [|done]. by rewrite <- app_assoc. }
      destruct v as [p|]; [|done].
      apply Forall_app. split; [done |]. apply Forall_singleton.
      destruct (visible_labelled _ _ _ _ _ Hv) as (Hi & Hc & Hl).
      rewrite Hi, Hc. split; [lia |]. split; [|done].
      rewrite Nat2Z.id, <- app_assoc. cbn.
      by rewrite lookup_app_r, Hb, Nat.sub_diag by lia.
Qed.

(** X8: the labels that [filterCameras] returns are in the order of the
    cameras: their indices increase strictly, each is the position in
    [cameras] of the matrix it is paired with, and each label has passed
    the visibility tests and carries the values computed for that
    camera. *)
Theorem filterCameras_labels (viewer : Mat) (depth : DepthBuffer)
    (cameras : list Mat) (filtered : LabelledCameras)
    (Hrun : filterCameras viewer depth cameras = Ok filtered) :
  StronglySorted Z.lt ((fun p => index p.1) <$> filtered) /\
  Forall (fun p => 0 <= index p.1 < Z.of_nat (length cameras) /\
                   cameras !! Z.to_nat (index p.1) = Some p.2 /\
                   labelled viewer depth p.2 p.1) filtered.
Proof.
  apply (filterCameras_from_labels viewer depth cameras 0 [] [] filtered Hrun);
    [done | constructor | constructor].
Qed.

End FilterCamerasProperties.

(** ** The run of [chooseCameras] *)

Section RunProperties.
Context `{Fl : Floating} `{Ex : !Externals}.

(** The pair that an iteration accepts consists of the indices of two
    labels of the filtered cameras. *)
Lemma shotStep_accepted (Q : Z -> Prop) (config : Configuration) (resolution : float)
    (cameras : list Mat) (st : Selection) (s : Shot) (st' : Selection) (main side : Z) :
  shotStep config resolution cameras st s = Ok (st', Some (main, side)) ->
  (forall filtered,
     filterCameras (viewer s) (depth s) cameras = Ok filtered ->
     Forall (fun p => Q (index p.1)) filtered) ->
  Q main /\ Q side /\
  writePair (chosenCameras st) main side = Ok (chosenCameras st').
Proof.
  intros H Hq.
  destruct (shotStep_spec _ _ _ _ _ _ _ H) as [[_ [=]] | (f & Hf & Hpick & Hw & _)].
  destruct (pickPair_votes (fun l => Q (index l)) _ _ _ _ _ _ _ _ Hpick (Hq f Hf))
    as (mainCamera & mws & sw & idx & drawn & _ & _ & Hm & Hd & _ & Hcases).
  cbv zeta in Hcases.
  destruct Hcases as [(_ & [=] & _) | (_ & add & _ & _ & _ & _ & Hres)].
  destruct Hres as [[_ Hpicked] | [_ [=]]].
  destruct (index drawn =? -1); [discriminate |].
  by injection Hpicked as -> ->.
Qed.

(** X9: every camera index in the table that [chooseCameras] leaves behind
    is a position in [cameras]. *)
Theorem chooseCameras_indices (config : Configuration) (faceAreas : list float)
    (cameras : list Mat) (shots : nat -> Shot) (count : Z)
    (chosen : list (Z * list Z)) (main : Z) (sides : list Z)
    (Hrun : chooseCameras config faceAreas cameras shots = Ok (count, chosen))
    (Hentry : (main, sides) ∈ chosen) :
  0 <= main < Z.of_nat (length cameras) /\
  Forall (fun side => 0 <= side < Z.of_nat (length cameras)) sides.
Proof.
  destruct (chooseCameras_loop _ _ _ _ _ _ Hrun) as (st & log & Hloop & _ & Hperm).
  pose (n := Z.of_nat (length cameras)).
  assert (Hinv : Forall (fun e : Z * list Z =>
            0 <= e.1 < n /\ Forall (fun side => 0 <= side < n) e.2) (chosenCameras st)).
  { refine (shotLoop_invariant
      (fun st => Forall (fun e : Z * list Z =>
         0 <= e.1 < n /\ Forall (fun side => 0 <= side < n) e.2) (chosenCameras st))
      _ _ _ _ _ _ _ _ Hloop _); [|constructor].
    clear. intros st s st' e H Hst. destruct e as [[main side]|].
    - destruct (shotStep_accepted (fun i => 0 <= i < Z.of_nat (length cameras)) _ _ _ _ _ _ _ _ H)
        as (Hm & Hs & Hw).
      { intros f Hf. apply (filterCameras_indices _ _ _ _ Hf). }
      destruct (writePair_spec _ _ _ _ Hw)
        as [[_ ->] | (p & old & Hp & [[_ ->] | [_ ->]])]; [| done |].
      + apply Forall_app. split; [done |]. apply Forall_singleton.
        split; [done |]. by apply Forall_singleton.
      + apply Forall_insert; [done |]. cbn [fst snd].
        pose proof (Forall_lookup_1 _ _ _ _ Hst Hp) as [_ Hold]. cbn in Hold.
        split; [done |]. apply Forall_app. split; [done |]. by apply Forall_singleton.
    - destruct (shotStep_spec _ _ _ _ _ _ _ H) as [[-> _] | (f & _ & _ & -> & _)]; done. }
  rewrite <- Hperm, Forall_forall in Hinv. apply (Hinv _ Hentry).
Qed.

Lemma numbered_le_total : Total numbered_le.
Proof.
  intros a b. unfold numbered_le, numbered_ltb.
  destruct (Z.ltb_spec a.1 b.1), (Z.ltb_spec b.1 a.1); cbn; try lia; auto.
  assert (Hasym : forall x y, vector_ltb x y = true -> vector_ltb y x = false).
  { clear. induction x as [|u x IH]; intros [|v y]; cbn; try done.
    destruct (Z.ltb_spec u v), (Z.ltb_spec v u); try done; try lia. apply IH. }
  destruct (vector_ltb a.2 b.2) eqn:E; [left; by apply Hasym | by right].
Qed.

Lemma numbered_le_main (a b : Z * list Z) : numbered_le a b -> a.1 <= b.1.
Proof.
  unfold numbered_le, numbered_ltb. destruct (Z.ltb_spec b.1 a.1); [done | lia].
Qed.

Lemma sorted_mains (l : list (Z * list Z)) :
  Sorted numbered_le l -> NoDup l.*1 -> StronglySorted Z.lt l.*1.
Proof.
  intros Hs Hnd. apply Sorted_StronglySorted; [apply _ |].
  induction Hs as [|a l Hs IH Hhd]; [constructor |].
  cbn [fmap list_fmap] in *. apply NoDup_cons in Hnd as [Hin Hnd].
  constructor; [by apply IH |].
  destruct Hhd as [|b l Hab]; constructor. cbn [fmap list_fmap] in *.
  apply numbered_le_main in Hab.
  assert (a.1 <> b.1) by (intros Heq; apply Hin; rewrite Heq; left). lia.
Qed.

(** X10: in the table that [chooseCameras] leaves behind, the main cameras
    are in strictly increasing order, so that each has one entry, and
    every entry lists at least one side camera. *)
Theorem chooseCameras_sorted (config : Configuration) (faceAreas : list float)
    (cameras : list Mat) (shots : nat -> Shot) (count : Z)
    (chosen : list (Z * list Z))
    (Hrun : chooseCameras config faceAreas cameras shots = Ok (count, chosen)) :
  StronglySorted Z.lt chosen.*1 /\
  Forall (fun e => e.2 <> []) chosen.
Proof.
  unfold chooseCameras in Hrun.
  apply bind_Ok in Hrun as ([st log] & Hloop & Hrun). injection Hrun as <- <-.
  assert (Hinv : NoDup (chosenCameras st).*1 /\
                 Forall (fun e : Z * list Z => e.2 <> []) (chosenCameras st)).
  { refine (shotLoop_invariant
      (fun st => NoDup (chosenCameras st).*1 /\
                 Forall (fun e : Z * list Z => e.2 <> []) (chosenCameras st))
      _ _ _ _ _ _ _ _ Hloop _); [|split; constructor].
    clear. intros st s st' e H [Hnd Hne]. destruct e as [[main side]|].
    - destruct (shotStep_accepted (fun _ => True) _ _ _ _ _ _ _ _ H) as (_ & _ & Hw).
      { intros f _. by apply Forall_forall. }
      destruct (writePair_spec _ _ _ _ Hw)
        as [[Hnew ->] | (p & old & Hp & [[_ ->] | [_ ->]])]; [| done |].
      + split.
        * rewrite fmap_app. apply NoDup_app. repeat split; [done | | apply NoDup_singleton].
          intros x Hx ->%list_elem_of_singleton.
          apply list_elem_of_fmap in Hx as (q & Hq1 & Hq).
          rewrite Forall_forall in Hnew. by apply (Hnew q Hq).
        * apply Forall_app. split; [done |]. by repeat constructor.
      + split.
        * rewrite list_fmap_insert, list_insert_id; [done |].
          by rewrite list_lookup_fmap, Hp.
        * apply Forall_insert; [done |]. cbn. by destruct old.
    - destruct (shotStep_spec _ _ _ _ _ _ _ H) as [[-> _] | (f & _ & _ & -> & _)]; done. }
  destruct Hinv as [Hnd Hne]. split.
  - pose proof numbered_le_total as Htotal.
    apply sorted_mains; [apply Sorted_merge_sort; exact Htotal |].
    by rewrite merge_sort_Permutation.
  - by rewrite merge_sort_Permutation.
Qed.

Lemma length_filterCameras_from (viewer : Mat) (depth : DepthBuffer)
    (cameras : list Mat) (i : Z) (acc filtered : LabelledCameras) :
  filterCameras_from viewer depth i cameras acc = Ok filtered ->
  (length filtered <= length acc + length cameras)%nat.
Proof.
  revert i acc. induction cameras as [|camera rest IH]; intros i acc H; cbn in H.
  - injection H as <-. lia.
  - apply bind_Ok in H as (v & _ & H). apply IH in H.
    destruct v; rewrite ?length_app in H; cbn [length] in *; lia.
Qed.

Lemma shotLoop_count (config : Configuration) (resolution : float)
    (cameras : list Mat) (shots : list Shot) (st st' : Selection)
    (log : list (option (Z * Z))) :
  shotLoop config resolution cameras shots st = Ok (st', log) ->
  cameraCount st <= cameraCount st' <= cameraCount st + Z.of_nat (length shots) /\
  ((length cameras <= 1)%nat -> st' = st).
Proof.
  revert st log. induction shots as [|s shots IH]; intros st log H; cbn in H.
  - injection H as <- <-. cbn. split; [lia | done].
  - apply bind_Ok in H as ([st1 e] & H1 & H).
    apply bind_Ok in H as ([st2 es] & H2 & H). injection H as <- <-.
    destruct (IH _ _ H2) as [Hc Hsame]. cbn [length]. split.
    + destruct (shotStep_spec _ _ _ _ _ _ _ H1) as [[-> _] | (f & _ & _ & He)]; [lia |].
      destruct e as [[main side]|]; destruct He as [_ Hcount]; lia.
    + intros Hn. rewrite (Hsame Hn). unfold shotStep in H1.
      apply bind_Ok in H1 as (f & Hf & H1).
      apply length_filterCameras_from in Hf. cbn [length] in Hf.
      destruct (Z.leb_spec 2 (Z.of_nat (length f))); [lia |]. by injection H1.
Qed.

(** X11: [chooseCameras] returns a count between 0 and the number of
    shots, 200; when there are fewer than two cameras the count is 0 and
    the table is empty. *)
Theorem chooseCameras_count (config : Configuration) (faceAreas : list float)
    (cameras : list Mat) (shots : nat -> Shot) (count : Z)
    (chosen : list (Z * list Z))
    (Hrun : chooseCameras config faceAreas cameras shots = Ok (count, chosen)) :
  0 <= count <= 200 /\
  ((length cameras <= 1)%nat -> count = 0 /\ chosen = []).
Proof.
  unfold chooseCameras in Hrun.
  apply bind_Ok in Hrun as ([st log] & Hloop & Hrun). injection Hrun as <- <-.
  destruct (shotLoop_count _ _ _ _ _ _ _ Hloop) as [Hc Hsame].
  rewrite length_fmap, length_seq in Hc.
  change (Z.of_nat (Z.to_nat shotCount)) with 200 in Hc. cbn [cameraCount] in Hc.
  split; [lia |].
  intros Hn. by rewrite (Hsame Hn).
Qed.

End RunProperties.

(** ** The cursor along a traversal *)

Section CursorWalk.
Context `{Fl : Floating} `{Ex : !Externals}.

Lemma mainCall_spec (k : nat) (c : Cursor) :
  exists c',
    mainCall k c = Ok (default sentinel (fst <$> table c !! k), c') /\
    table c' = table c /\
    mainIdx c' = (if decide (table c = []) then mainIdx c else 0) + Z.of_nat k.
Proof.
  induction k as [|k (c1 & IH & Ht & Hi)]; cbn [mainCall].
  - unfold beginMain. destruct (table c) as [|e t] eqn:E; cbn.
    + exists c. rewrite decide_True by done. split; [done |]. split; [done | lia].
    + eexists. split; [done |]. cbn. by rewrite decide_False.
  - rewrite IH. cbn [mbind result_bind]. unfold nextMain, below. cbn [table mainIdx].
    rewrite Ht, Hi.
    destruct (table c) as [|e t] eqn:E.
    + rewrite decide_True by done. cbn [length].
      match goal with
      | |- context [(?a <=? ?b) && (?b <? ?d)] =>
          assert ((a <=? b) && (b <? d) = false) as ->
            by (destruct (Z.leb_spec a b), (Z.ltb_spec b d); cbn in *; first [done | lia])
      end.
      eexists. split; [done |]. cbn. split; [done | lia].
    + rewrite decide_False by done.
      destruct (Z.leb_spec 0 (0 + Z.of_nat k + 1)); [|lia].
      destruct (Z.ltb_spec (0 + Z.of_nat k + 1) (Z.of_nat (length (e :: t)))) as [Hlt | Hge];
        cbn [andb].
      * destruct (lookup_lt_is_Some_2 (e :: t) (S k)) as [e' He']; [lia |].
        rewrite (at_lookup _ _ e')
          by (first [lia | by replace (Z.to_nat (0 + Z.of_nat k + 1)) with (S k) by lia]).
        rewrite He'. cbn. eexists. split; [done |]. cbn. split; [done | lia].
      * rewrite lookup_ge_None_2 by lia. cbn.
        eexists. split; [done |]. cbn. split; [done | lia].
Qed.

Lemma sideCall_spec (j : nat) (c : Cursor) (imain : Z) (sides : list Z) :
  0 <= mainIdx c ->
  table c !! Z.to_nat (mainIdx c) = Some (imain, sides) ->
  exists c',
    sideCall j c imain = Ok (default sentinel (sides !! j), c') /\
    table c' = table c /\ mainIdx c' = mainIdx c /\
    sideIdx c' = (if decide (sides = []) then sideIdx c else 0) + Z.of_nat j.
Proof.
  intros Hpos Hentry.
  induction j as [|j (c1 & IH & Ht & Hm & Hs)]; cbn [sideCall].
  - unfold beginSide. rewrite (at_lookup _ _ _ Hpos Hentry). cbn [mbind result_bind fst snd].
    rewrite Z.eqb_refl. cbn [negb orb].
    destruct sides as [|s sides]; cbn.
    + exists c. rewrite decide_True by done. repeat split. lia.
    + eexists. split; [done |]. cbn. by rewrite decide_False.
  - rewrite IH. cbn [mbind result_bind]. unfold nextSide.
    rewrite Hm, Ht, (at_lookup _ _ _ Hpos Hentry). cbn [mbind result_bind fst snd].
    rewrite Z.eqb_refl. cbn [negb table mainIdx sideIdx]. unfold below. rewrite Hs.
    destruct sides as [|s sides].
    + rewrite decide_True by done. cbn [length].
      match goal with
      | |- context [(?a <=? ?b) && (?b <? ?d)] =>
          assert ((a <=? b) && (b <? d) = false) as ->
            by (destruct (Z.leb_spec a b), (Z.ltb_spec b d); cbn in *; first [done | lia])
      end. cbn.
      eexists. split; [done |]. cbn. repeat split; first [done | lia].
    + rewrite decide_False by done.
      destruct (Z.leb_spec 0 (0 + Z.of_nat j + 1)); [|lia].
      destruct (Z.ltb_spec (0 + Z.of_nat j + 1) (Z.of_nat (length (s :: sides))))
        as [Hlt | Hge]; cbn [andb negb].
      * destruct (lookup_lt_is_Some_2 (s :: sides) (S j)) as [s' Hs']; [lia |].
        rewrite (at_lookup _ _ s')
          by (first [lia | by replace (Z.to_nat (0 + Z.of_nat j + 1)) with (S j) by lia]).
        rewrite Hs'. cbn. eexists. split; [done |]. cbn. repeat split; first [done | lia].
      * rewrite lookup_ge_None_2 by lia. cbn.
        eexists. split; [done |]. cbn. repeat split; first [done | lia].
Qed.

(** X12: the cursor enumerates the table.  Call number [k] of [beginMain],
    [nextMain], ... returns the main camera of entry [k]; from there, call
    number [j] of [beginSide], [nextSide], ... returns side camera [j] of
    that entry, and the sentinel once the sides are exhausted. *)
Theorem cursor_enumerates (c : Cursor) (k j : nat) (main : Z) (sides : list Z)
    (Hentry : table c !! k = Some (main, sides)) :
  exists c1 c2,
    mainCall k c = Ok (main, c1) /\
    sideCall j c1 main = Ok (default sentinel (sides !! j), c2).
Proof.
  destruct (mainCall_spec k c) as (c1 & Hmain & Ht & Hi).
  rewrite Hentry in Hmain. cbn in Hmain.
  rewrite decide_False in Hi by (intros E; by rewrite E in Hentry).
  destruct (sideCall_spec j c1 main sides) as (c2 & Hside & _);
    [lia | by rewrite Ht, Hi, Z.add_0_l, Nat2Z.id |].
  by exists c1, c2.
Qed.

(** X13: past the last entry.  From call number [length table] on,
    [beginMain], [nextMain], ... return the sentinel, and a call of
    [beginSide] or [nextSide] after that reads [chosenCameras] outside its
    range. *)
Theorem cursor_exhausted (c : Cursor) (k : nat) (imain : Z)
    (Hpast : (length (table c) <= k)%nat) :
  exists c1,
    mainCall k c = Ok (sentinel, c1) /\
    beginSide c1 imain = Abort OutOfBounds /\
    nextSide c1 imain = Abort OutOfBounds.
Proof.
  destruct (mainCall_spec k c) as (c1 & Hmain & Ht & Hi).
  rewrite lookup_ge_None_2 in Hmain by done. cbn in Hmain.
  exists c1. split; [done |].
  assert (Hout : at_ (table c1) (mainIdx c1) = Abort OutOfBounds (A := Z * list Z)).
  { apply at_out. rewrite Ht, Hi.
    destruct (decide (table c = [])) as [E | _]; [|lia].
    rewrite E. cbn [length]. lia. }
  unfold beginSide, nextSide. by rewrite Hout.
Qed.

End CursorWalk.

(** ** The iteration controller *)

Section ControllerProperties.
Context `{Fl : Floating}.

Lemma last_halvings (a : float) (n : nat) : is_Some (last (halvings a (S n))).
Proof.
  rewrite last_lookup. apply lookup_lt_is_Some_2.
  assert (length (halvings a (S n)) = S n); [|lia].
  generalize (S n). clear. intros n. revert a. induction n; intros a; cbn; [done | by rewrite IHn].
Qed.

Lemma halvings_snoc (a : float) (n : nat) (x : float) :
  last (halvings a (S n)) = Some x ->
  halvings a (S n) ++ [f_div x (f_of_int 2)] = halvings a (S (S n)).
Proof.
  revert a. induction n as [|n IH]; intros a.
  - cbn. by intros [= <-].
  - intros H. change (halvings a (S (S n))) with (a :: halvings (f_div a (f_of_int 2)) (S n)) in *.
    rewrite last_cons in H.
    destruct (last_halvings (f_div a (f_of_int 2)) n) as [y E]. rewrite E in H.
    injection H as ->. rewrite <- app_comm_cons, (IH _ E). done.
Qed.

(** The rounds after the first one. *)
Lemma rounds_later (iterationCount : Z) (inMeshFile : bool) (alphas : list float)
    (a : float) (k : nat) :
  let m := Nat.min (length alphas) (Z.to_nat (iterationCount - Z.of_nat (S k))) in
  rounds iterationCount inMeshFile alphas
    (mkController (Z.of_nat (S k)) (halvings a (S k)))
  = Ok (replicate m PoissonSurface,
        mkController (Z.of_nat (S k + (if decide (length alphas <= m)%nat then m else S m)))
                     (halvings a (S k + m))).
Proof.
  revert k. induction alphas as [|alpha rest IH]; intros k m.
  - cbn. subst m. cbn. by rewrite !Nat.add_0_r.
  - cbn [rounds]. unfold notHappy. cbn [iteration alphaVals].
    destruct (Z.leb_spec (Z.of_nat (S k) + 1) iterationCount) as [Hgo | Hstop].
    + unfold tessellate. cbn [iteration alphaVals].
      destruct (Z.leb_spec (Z.of_nat (S k) + 1) 1); [lia |].
      destruct (last_halvings a k) as [x Hx].
      rewrite (back_last _ _ Hx). cbn [mbind result_bind].
      rewrite (halvings_snoc _ _ _ Hx).
      replace (Z.of_nat (S k) + 1) with (Z.of_nat (S (S k))) by lia.
      rewrite IH. cbn [mbind result_bind].
      assert (Hm : m = S (Nat.min (length rest)
                            (Z.to_nat (iterationCount - Z.of_nat (S (S k)))))).
      { subst m. cbn [length]. lia. }
      rewrite Hm. cbn [length replicate]. do 3 f_equal.
      * repeat case_decide; lia.
      * f_equal. lia.
    + assert (Hm : m = 0%nat) by (subst m; lia).
      rewrite Hm. cbn [length replicate]. rewrite decide_False by lia.
      do 3 f_equal; [lia | f_equal; lia].
Qed.

(** X14: the controller along the loop.  [notHappy] lets the loop run
    [iterationCount] rounds.  The first [tessellate] reads the mesh file or
    takes the alpha shape and records 1 or the alpha value; every later
    one takes the Poisson surface and records half of the previous value;
    [alphaVals.back()] is never read on an empty vector.  It is, however,
    when [notHappy] is called twice before the first [tessellate]. *)
Theorem controller_rounds (iterationCount : Z) (inMeshFile : bool)
    (alpha : float) (alphas : list float) (Hcount : 1 <= iterationCount) :
  let m := Nat.min (length alphas) (Z.to_nat (iterationCount - 1)) in
  exists h,
    rounds iterationCount inMeshFile (alpha :: alphas) newController
    = Ok ((if inMeshFile then ReadMesh else AlphaShape) :: replicate m PoissonSurface, h) /\
    alphaVals h = halvings (if inMeshFile then f_of_int 1 else alpha) (S m) /\
    tessellate inMeshFile alpha
      (notHappy iterationCount (notHappy iterationCount newController).2).2
    = Abort OutOfBounds.
Proof.
  intros m.
  pose proof (rounds_later iterationCount inMeshFile alphas
                (if inMeshFile then f_of_int 1 else alpha) 0) as Hlater.
  cbv zeta in Hlater. cbn [halvings] in Hlater. change (Z.of_nat 1) with 1 in Hlater.
  change (Z.to_nat (iterationCount - 1)) with (Z.to_nat (iterationCount - 1)) in Hlater.
  fold m in Hlater.
  destruct inMeshFile; eexists;
    (split;
     [ cbn [rounds]; unfold notHappy, newController; cbn [iteration alphaVals];
       change (0 + 1) with 1;
       (destruct (Z.leb_spec 1 iterationCount); [|lia]);
       unfold tessellate;
       cbn [iteration alphaVals Z.leb Z.compare Pos.compare Pos.compare_cont app];
       cbn [mbind result_bind]; rewrite Hlater; reflexivity
     | split; reflexivity ]).
Qed.

End ControllerProperties.

(** ** The neighbor table and the density of [filterPoints] *)

Section NeighborTableProperties.
Context `{Fl : Floating} {PointRow NormalRow : Type}.

Lemma found_nonneg (results : list (Z * float)) :
  Forall (fun p => 0 <= p.1) (found results).
Proof.
  induction results as [|p rest IH]; cbn; [constructor |].
  destruct (Z.leb_spec 0 p.1); [by constructor | constructor].
Qed.

(** Only points with a smaller number are pushed. *)
Lemma pushed_smaller (radius : float) (i : nat) (results : list (Z * float)) :
  Forall (fun nb : Neighbor => 0 <= nb.1 < Z.of_nat i) (pushed radius i results).
Proof.
  unfold pushed. pose proof (found_nonneg results) as Hf.
  induction Hf as [|p l Hp _ IH]; cbn; [constructor |].
  destruct (Z.ltb_spec p.1 (Z.of_nat i)); cbn; [|done].
  destruct (f_leb p.2 radius); [|done]. constructor; [cbn; lia | done].
Qed.

Lemma prepare_app (radius : float) (search : nat -> list (Z * float))
    (l1 l2 : list nat) (t : NeighborTable) :
  prepare radius search (l1 ++ l2) t
  = prepare radius search l2 (prepare radius search l1 t).
Proof. revert t. induction l1 as [|i l1 IH]; intros t; cbn; [done | by rewrite IH]. Qed.

Lemma neighborsBelow_S (radius : float) (search : nat -> list (Z * float)) (k : nat) :
  neighborsBelow radius search (S k)
  = neighborsBelow radius search k ++ pushed radius k (search k).
Proof.
  unfold neighborsBelow. rewrite seq_S, bind_app. cbn. by rewrite app_nil_r.
Qed.

Lemma prepare_spec (radius : float) (search : nat -> list (Z * float)) (n k : nat) :
  (k <= n)%nat ->
  let t := prepare radius search (seq 0 k) (mkTable (replicate (n + 1) 0%nat) []) in
  neighbors t = neighborsBelow radius search k /\
  length (neighborBlocks t) = (n + 1)%nat /\
  forall i, (i < k)%nat ->
    neighborBlocks t !! i = Some (length (neighborsBelow radius search i)).
Proof.
  induction k as [|k IH]; intros Hk.
  - cbn. repeat split; [by rewrite length_replicate | intros; lia].
  - destruct IH as (Hn & Hl & Hb); [lia |].
    rewrite seq_S, prepare_app. cbn [prepare Nat.add neighbors neighborBlocks].
    rewrite Hn. repeat split.
    + by rewrite neighborsBelow_S.
    + by rewrite length_insert.
    + intros i Hi. destruct (decide (i = k)) as [-> | Hne].
      * rewrite list_lookup_insert_eq by lia. done.
      * rewrite list_lookup_insert_ne by lia. apply Hb. lia.
Qed.

Lemma neighborTable_spec (radius : float) (search : nat -> list (Z * float)) (n : nat) :
  neighbors (neighborTable radius search n) = neighborsBelow radius search n /\
  forall i, (i <= n)%nat ->
    neighborBlocks (neighborTable radius search n) !! i
    = Some (length (neighborsBelow radius search i)).
Proof.
  destruct (prepare_spec radius search n n) as (Hn & Hl & Hb); [lia |].
  unfold neighborTable. cbn [neighbors neighborBlocks]. split; [done |].
  intros i Hi. destruct (decide (i = n)) as [-> | Hne].
  - rewrite list_lookup_insert_eq by lia. by rewrite Hn.
  - rewrite list_lookup_insert_ne by lia. apply Hb. lia.
Qed.

Lemma neighborsBelow_le (radius : float) (search : nat -> list (Z * float)) (i n : nat) :
  (i <= n)%nat ->
  exists rest, neighborsBelow radius search n = neighborsBelow radius search i ++ rest.
Proof.
  induction 1 as [|n _ [rest IH]].
  - exists []. by rewrite app_nil_r.
  - rewrite neighborsBelow_S, IH. eexists. by rewrite <- app_assoc.
Qed.

(** The block of point [i] in the flat table is what was pushed for it. *)
Lemma block_pushed (radius : float) (search : nat -> list (Z * float)) (n i : nat) :
  (i < n)%nat ->
  block (neighborTable radius search n) i = pushed radius i (search i).
Proof.
  intros Hi. destruct (neighborTable_spec radius search n) as [Hn Hblocks].
  unfold block.
  pose proof (Hblocks i ltac:(lia)) as H1.
  pose proof (Hblocks (i + 1)%nat ltac:(lia)) as H2.
  rewrite (list_lookup_total_correct _ _ _ H1), (list_lookup_total_correct _ _ _ H2).
  rewrite Hn. destruct (neighborsBelow_le radius search (S i) n) as [rest ->]; [lia |].
  rewrite Nat.add_1_r, neighborsBelow_S, <- app_assoc.
  rewrite drop_app_length, length_app.
  replace (length (neighborsBelow radius search i) + length (pushed radius i (search i))
           - length (neighborsBelow radius search i))%nat
    with (length (pushed radius i (search i))) by lia.
  by rewrite take_app_length.
Qed.

(** X15: the flat neighbor table.  The block of point [i] in [neighbors],
    as delimited by [neighborBlocks], holds exactly the neighbors pushed
    for point [i], and these are points with a smaller number than [i]. *)
Theorem neighborTable_blocks (radius : float) (search : nat -> list (Z * float))
    (n i : nat) (Hi : (i < n)%nat) :
  block (neighborTable radius search n) i = pushed radius i (search i) /\
  Forall (fun nb : Neighbor => 0 <= nb.1 < Z.of_nat i)
    (block (neighborTable radius search n) i).
Proof.
  pose proof (block_pushed radius search n i Hi) as Hb.
  split; [done |]. rewrite Hb. apply pushed_smaller.
Qed.

End NeighborTableProperties.

Section SmallClouds.
Context `{Fl : Floating} {PointRow NormalRow : Type}.
Variable sortIdx : list float -> list nat.
Hypothesis sortIdx_permutation : forall d, sortIdx d ≡ₚ seq 0 (length d).

(** X16: a cloud of at most one point is filtered to the empty cloud: a
    single point has no point with a smaller number to be neighbor with,
    its score stays 0 + 0, and it is discarded as an outlier. *)
Theorem filterPoints_small_cloud (alpha : float) (search : nat -> list (Z * float))
    (points : list PointRow) (normals : list NormalRow)
    (Hzero : f_ltb (f_add f_zero f_zero) densityLimit = true)
    (Hrows : length normals = length points)
    (Hsmall : (length points <= 1)%nat) :
  filterPoints sortIdx alpha search points normals = ([], []).
Proof.
  destruct (filterPoints_gather sortIdx sortIdx_permutation alpha search points normals Hrows)
    as (ks & Hs & Hp & Hn & Hout).
  assert (Hks : ks = []).
  { destruct ks as [|k ks]; [done |]. exfalso.
    destruct (Forall2_cons_inv_l _ _ _ _ Hp) as (r & out & Hk & _ & _).
    pose proof (lookup_lt_Some _ _ _ Hk) as Hlt.
    assert (k = 0%nat) as -> by lia.
    apply (Hout 0%nat Hzero); [| lia | left].
    set (radius := d2f (d_div (f2d alpha) (d_of_int 4))).
    pose proof (block_pushed radius search (length points) 0 ltac:(lia)) as Hb.
    pose proof (pushed_smaller radius 0 (search 0%nat)) as Hsm.
    assert (Hnone : pushed radius 0 (search 0%nat) = []).
    { destruct (pushed radius 0 (search 0%nat)) as [|nb l]; [done |].
      apply Forall_cons in Hsm as [Hnb _]. lia. }
    split; [by rewrite Hb |].
    destruct (neighborTable_spec radius search (length points)) as [-> _].
    assert (length points = 1%nat) as -> by lia.
    rewrite neighborsBelow_S, Hnone. constructor. }
  subst ks. apply Forall2_nil_inv_l in Hp, Hn.
  destruct (filterPoints _ _ _ _ _) as [ps ns]. cbn in *. by subst.
Qed.

End SmallClouds.

Section DensityProperties.
Context `{Fl : Floating}.

Lemma normalize_clamped (score : list float) (normalizer : float) (l : list nat)
    (st : list float * double) (i : nat) :
  d_ltb (d_of_int 2) (f2d (d2f (d_of_int 2))) = false ->
  i ∈ l -> (i < length st.1)%nat ->
  d_ltb (d_of_int 2) (f2d ((foldl (normalize score normalizer) st l).1 !!! i)) = false.
Proof.
  intros Hclamp. revert st.
  induction l as [|x l IH] using rev_ind; intros st Hin Hlen.
  - by apply elem_of_nil in Hin.
  - rewrite foldl_app. cbn [foldl].
    pose proof (length_normalize score normalizer l st) as Hl.
    destruct (foldl (normalize score normalizer) st l) as [density change] eqn:E.
    cbn [fst] in Hl. unfold normalize. cbn [fst].
    destruct (decide (i = x)) as [<- | Hne].
    + rewrite list_lookup_total_insert_eq by lia.
      destruct (d_ltb (d_of_int 2) (f2d (f_mul (score !!! i) normalizer))) eqn:Hd; done.
    + rewrite list_lookup_total_insert_ne by done.
      apply elem_of_app in Hin as [Hin | Hin%list_elem_of_singleton]; [|done].
      specialize (IH st Hin Hlen). by rewrite E in IH.
Qed.

Lemma densityRound_clamped (t : NeighborTable) (n : nat) (density : list float) :
  d_ltb (d_of_int 2) (f2d (d2f (d_of_int 2))) = false ->
  length density = n ->
  Forall (fun d => d_ltb (d_of_int 2) (f2d d) = false) (densityRound t n density).1.1.
Proof.
  intros Hclamp Hlen.
  pose proof (length_densityRound t n density) as Hl.
  apply Forall_lookup. intros i d Hd.
  pose proof (lookup_lt_Some _ _ _ Hd) as Hi. rewrite Hl, Hlen in Hi.
  rewrite <- (list_lookup_total_correct _ _ _ Hd). clear Hd Hl.
  unfold densityRound.
  destruct (foldl (accumulatePoint _ _) _ _) as [score sum].
  pose proof (normalize_clamped score (d2f (d_div (d_of_int (Z.of_nat n)) sum))
                (seq 0 n) (density, d_of_int 0) i Hclamp) as H.
  destruct (foldl (normalize _ _) _ _) as [density' change]. cbn [fst] in *.
  apply H; [apply elem_of_seq; lia | lia].
Qed.

(** X17: clamping.  No entry of the density that the iteration scheme
    ends with is greater than 2. *)
Theorem density_clamped (more : nat) (t : NeighborTable) (n : nat)
    (density : list float)
    (Hclamp : d_ltb (d_of_int 2) (f2d (d2f (d_of_int 2))) = false)
    (Hlen : length density = n) :
  length (densityLoop more t n density).1 = n /\
  Forall (fun d => d_ltb (d_of_int 2) (f2d d) = false) (densityLoop more t n density).1.
Proof.
  split; [by rewrite length_densityLoop |].
  revert density Hlen. induction more as [|more IH]; intros density Hlen; cbn [densityLoop];
    pose proof (densityRound_clamped t n density Hclamp Hlen) as H;
    pose proof (length_densityRound t n density) as Hl;
    destruct (densityRound t n density) as [[density' score] change]; cbn [fst] in *.
  - done.
  - destruct (d_ltb epsilon change); [apply IH; congruence | done].
Qed.

End DensityProperties.

(** ** [filterFinest] *)

Section FinestFlags.
Context `{Fl : Floating} {Row : Type}.
Variable edge : Row -> Row -> float.

(** *** Flags *)

Lemma keep_nil_r {A} (flags : list bool) : keep flags (@nil A) = [].
Proof. by destruct flags. Qed.

Lemma keep_snoc {A} (flags : list bool) (b : bool) (l : list A) (x : A) :
  l !! length flags = Some x ->
  keep (flags ++ [b]) l = keep flags l ++ (if b then [x] else []).
Proof.
  revert l. induction flags as [|c flags IH]; intros [|y l] H; try done.
  - cbn in H. injection H as ->. cbn. destruct b; [|done]. by destruct l.
  - cbn in H. cbn [app keep]. rewrite (IH _ H). by destruct c.
Qed.

Lemma rank_le (flags : list bool) (i : nat) : (rank flags i <= i)%nat.
Proof.
  revert i. induction flags as [|b flags IH]; intros [|i]; cbn; try lia.
  specialize (IH i). destruct b; lia.
Qed.

Lemma rank_S (flags : list bool) (i : nat) (b : bool) :
  flags !! i = Some b ->
  rank flags (S i) = (rank flags i + if b then 1 else 0)%nat.
Proof.
  revert i. induction flags as [|c flags IH]; intros [|i] H; try done.
  - cbn in H. injection H as ->. destruct flags, b; cbn; lia.
  - cbn in H. cbn [rank]. rewrite (IH _ H). destruct c, b; lia.
Qed.

Lemma length_keep_take {A} (flags : list bool) (l : list A) (i : nat) :
  (i <= length l)%nat -> length (keep (take i flags) l) = rank flags i.
Proof.
  revert l i. induction flags as [|b flags IH]; intros l [|i] Hl; try done.
  destruct l as [|x l]; [cbn in Hl; lia |]. cbn in *.
  destruct b; cbn; rewrite IH; lia.
Qed.

Lemma rank_all_true (flags : list bool) (i : nat) :
  Forall (fun b => b = true) flags -> (i <= length flags)%nat -> rank flags i = i.
Proof.
  intros H. revert i. induction H as [|b flags -> _ IH]; intros [|i] Hi; cbn in *;
    try lia. rewrite IH; lia.
Qed.

Lemma keep_all_true {A} (flags : list bool) (l : list A) :
  Forall (fun b => b = true) flags -> length flags = length l -> keep flags l = l.
Proof.
  intros H. revert l. induction H as [|b flags -> _ IH]; intros [|x l] Hl; try done.
  cbn in *. rewrite IH; [done | lia].
Qed.

Lemma rank_lt (flags : list bool) (i k : nat) :
  flags !! i = Some true -> (i < k)%nat -> (rank flags i < rank flags k)%nat.
Proof.
  revert i k. induction flags as [|b flags IH]; intros [|i] [|k] H Hk; try done; try lia.
  - cbn in H. injection H as ->. cbn. lia.
  - cbn in H. cbn [rank]. specialize (IH i k H). lia.
Qed.

(** The row that a kept position is moved to. *)
Lemma keep_lookup_rank {A} (flags : list bool) (l : list A) (i : nat) (x : A) :
  flags !! i = Some true -> l !! i = Some x ->
  keep flags l !! rank flags i = Some x.
Proof.
  revert l i. induction flags as [|b flags IH]; intros [|y l] [|i] Hf Hl; try done.
  - cbn in Hf, Hl. injection Hf as ->. by injection Hl as ->.
  - cbn in Hf, Hl. cbn [keep rank]. destruct b; cbn; by apply IH.
Qed.

(** Every kept row comes from a flagged position. *)
Lemma keep_lookup_inv {A} (flags : list bool) (l : list A) (p : nat) (x : A) :
  keep flags l !! p = Some x ->
  exists i, flags !! i = Some true /\ l !! i = Some x /\ rank flags i = p.
Proof.
  revert l p. induction flags as [|b flags IH]; intros [|y l] p H; try done.
  cbn in H. destruct b.
  - destruct p as [|p]; cbn in H.
    + injection H as ->. by exists 0%nat.
    + destruct (IH _ _ H) as (i & Hf & Hl & Hr). exists (S i). cbn. by rewrite Hr.
  - destruct (IH _ _ H) as (i & Hf & Hl & Hr). exists (S i). by cbn.
Qed.

Lemma keep_sublist {A} (flags : list bool) (l : list A) : keep flags l `sublist_of` l.
Proof.
  revert l. induction flags as [|b flags IH]; intros [|x l]; cbn; try apply sublist_nil_l.
  destruct b; [by apply sublist_skip | by apply sublist_cons].
Qed.

End FinestFlags.

Section FinestMarking.
Context `{Fl : Floating} {Row : Type}.
Variable edge : Row -> Row -> float.

(** *** Marking *)

Lemma at_cases {A} (v : list A) (i : Z) :
  match at_ v i with
  | Ok a => 0 <= i < Z.of_nat (length v) /\ v !! Z.to_nat i = Some a
  | Abort fault => fault = OutOfBounds /\ ~ 0 <= i < Z.of_nat (length v)
  end.
Proof.
  unfold at_. destruct (Z.ltb_spec i 0); [split; [done | lia] |].
  destruct (v !! Z.to_nat i) eqn:E.
  - apply lookup_lt_Some in E. split; [lia | done].
  - apply lookup_ge_None in E. split; [done | lia].
Qed.

Lemma set_at_in {A} (v : list A) (i : Z) (a : A) :
  0 <= i < Z.of_nat (length v) -> set_at v i a = Ok (<[Z.to_nat i := a]> v).
Proof.
  intros H. unfold set_at.
  destruct (Z.ltb_spec i 0); [lia |].
  destruct (Z.leb_spec (Z.of_nat (length v)) i); [lia | done].
Qed.

Lemma cornersInRange_alt (n : nat) (f : Z * Z * Z) :
  cornersInRange n f <->
  0 <= f.1.1 < Z.of_nat n /\ 0 <= f.1.2 < Z.of_nat n /\ 0 <= f.2 < Z.of_nat n.
Proof.
  split.
  - intros H. repeat split;
      first [apply (H 0%nat); lia | apply (H 1%nat); lia | apply (H 2%nat); lia].
  - intros (H0 & H1 & H2) [|[|[|j]]] Hj; cbn; first [done | lia].
Qed.

Lemma fine_inRange (vs : list Row) (size : float) (f : Z * Z * Z) :
  fine edge vs size f = true -> cornersInRange (length vs) f.
Proof.
  unfold fine. intros H. apply cornersInRange_alt.
  pose proof (at_cases vs f.1.1) as H0. pose proof (at_cases vs f.1.2) as H1.
  pose proof (at_cases vs f.2) as H2.
  destruct (at_ vs f.1.1), (at_ vs f.1.2), (at_ vs f.2); try done. tauto.
Qed.

(** The loop over the edges stops with the value of [fine], or reads
    [mesh.vertices] outside its range. *)
Lemma goodEdges_cases (vs : list Row) (size : float) (f : Z * Z * Z) :
  match goodEdges edge vs size f [0; 1; 2]%nat with
  | Ok b => b = fine edge vs size f
  | Abort fault => fault = OutOfBounds /\ ~ cornersInRange (length vs) f
  end.
Proof.
  unfold fine. cbn [goodEdges corner]. change ((0 + 1) mod 3)%nat with 1%nat.
  change ((1 + 1) mod 3)%nat with 2%nat. change ((2 + 1) mod 3)%nat with 0%nat.
  cbn [corner]. pose proof (cornersInRange_alt (length vs) f) as Hr.
  pose proof (at_cases vs f.1.1) as H0. pose proof (at_cases vs f.1.2) as H1.
  pose proof (at_cases vs f.2) as H2.
  destruct (at_ vs f.1.1) as [a|], (at_ vs f.1.2) as [b|]; cbn [mbind result_bind];
    [| split; [tauto | rewrite Hr; tauto] | split; [tauto | rewrite Hr; tauto]
     | split; [tauto | rewrite Hr; tauto] ].
  destruct (f_ltb size (edge a b)); cbn [negb andb];
    [by destruct (at_ vs f.2) |].
  destruct (at_ vs f.2) as [c|]; cbn [mbind result_bind];
    [| split; [tauto | rewrite Hr; tauto]].
  destruct (f_ltb size (edge b c)); cbn [negb andb]; [done |].
  by destruct (f_ltb size (edge c a)).
Qed.

Lemma markCorners_spec (f : Z * Z * Z) (gv : list bool) :
  cornersInRange (length gv) f ->
  exists gv',
    markCorners f [0; 1; 2]%nat gv = Ok gv' /\
    length gv' = length gv /\
    forall v, gv' !! v = Some true <-> gv !! v = Some true \/ cornerOf f v.
Proof.
  intros H. apply cornersInRange_alt in H as (H0 & H1 & H2).
  cbn [markCorners corner].
  rewrite set_at_in by lia. cbn [mbind result_bind].
  rewrite set_at_in by (rewrite length_insert; lia). cbn [mbind result_bind].
  rewrite set_at_in by (rewrite !length_insert; lia).
  eexists. split; [done |]. split; [by rewrite !length_insert |].
  intros v. unfold cornerOf.
  destruct (decide (v = Z.to_nat f.2)) as [-> | Hc].
  { rewrite list_lookup_insert_eq by (rewrite !length_insert; lia).
    split; [|done]. intros _. right. exists 2%nat. cbn. split; lia. }
  rewrite list_lookup_insert_ne by done.
  destruct (decide (v = Z.to_nat f.1.2)) as [-> | Hb].
  { rewrite list_lookup_insert_eq by (rewrite !length_insert; lia).
    split; [|done]. intros _. right. exists 1%nat. cbn. split; lia. }
  rewrite list_lookup_insert_ne by done.
  destruct (decide (v = Z.to_nat f.1.1)) as [-> | Ha].
  { rewrite list_lookup_insert_eq by lia.
    split; [|done]. intros _. right. exists 0%nat. cbn. split; lia. }
  rewrite list_lookup_insert_ne by done.
  split; [by left |]. intros [? | (j & Hj & Hv)]; [done |].
  destruct j as [|[|[|j]]]; cbn in Hv; lia.
Qed.

(** The loop over the faces: the flags of the faces are the values of
    [fine], and a vertex is flagged when it is a corner of a fine face;
    the loop fails only by reading [mesh.vertices] outside its range. *)
Lemma markFaces_cases (vs : list Row) (size : float) (fs : list (Z * Z * Z))
    (i : nat) (gf gv : list bool) :
  length gv = length vs ->
  (i + length fs <= length gf)%nat ->
  match markFaces edge vs size fs (Z.of_nat i) gf gv with
  | Ok (gf', gv') =>
      gf' = take i gf ++ (fine edge vs size <$> fs) ++ drop (i + length fs) gf /\
      length gv' = length gv /\
      forall v, gv' !! v = Some true <->
                gv !! v = Some true \/
                exists f, f ∈ fs /\ fine edge vs size f = true /\ cornerOf f v
  | Abort fault =>
      fault = OutOfBounds /\ ~ Forall (cornersInRange (length vs)) fs
  end.
Proof.
  revert i gf gv. induction fs as [|f fs IH]; intros i gf gv Hgv Hgf.
  - cbn. rewrite Nat.add_0_r, take_drop. repeat split; [by left |].
    intros [? | (f & Hf & _)]; [done |]. by apply elem_of_nil in Hf.
  - cbn [markFaces length] in *.
    pose proof (goodEdges_cases vs size f) as Hedges.
    destruct (goodEdges edge vs size f [0; 1; 2]%nat) as [b | fault];
      cbn [mbind result_bind].
    2: { destruct Hedges as [-> Hout]. split; [done |]. intros H.
         apply Forall_cons in H as [H _]. done. }
    subst b.
    assert (Hmark : exists gv1,
              (if fine edge vs size f then markCorners f [0; 1; 2]%nat gv else Ok gv)
                = Ok gv1 /\
              length gv1 = length gv /\
              forall v, gv1 !! v = Some true <->
                        gv !! v = Some true \/ (fine edge vs size f = true /\ cornerOf f v)).
    { destruct (fine edge vs size f) eqn:Hfine.
      - destruct (markCorners_spec f gv) as (gv1 & -> & Hl & Hv).
        { rewrite Hgv. by apply (fine_inRange vs size). }
        exists gv1. repeat split; [done | |]; rewrite Hv; tauto.
      - exists gv. repeat split; [tauto |]. intros [? | [? _]]; done. }
    destruct Hmark as (gv1 & -> & Hl1 & Hv1). cbn [mbind result_bind].
    rewrite set_at_Ok by lia. cbn [mbind result_bind].
    replace (Z.of_nat i + 1) with (Z.of_nat (S i)) by lia.
    specialize (IH (S i) (<[i := fine edge vs size f]> gf) gv1).
    destruct (markFaces _ _ _ _ _ _ _) as [[gf' gv'] | fault].
    + destruct IH as (Hgf' & Hl' & Hv'); [congruence | rewrite length_insert; lia |].
      split; [|split; [congruence |]].
      * rewrite Hgf'. rewrite (take_S_r _ i (fine edge vs size f))
          by (apply list_lookup_insert_eq; lia).
        rewrite take_insert_ge by lia. rewrite <- app_assoc. cbn [fmap list_fmap app].
        rewrite drop_insert_lt by lia.
        by replace (S i + length fs)%nat with (i + S (length fs))%nat by lia.
      * intros v. rewrite Hv', Hv1. split.
        -- intros [[? | [Hf Hc]] | (g & Hg & Hfg & Hc)]; [by left | right.. ].
           ++ exists f. split; [left | done].
           ++ exists g. split; [by right | done].
        -- intros [? | (g & Hg & Hfg & Hc)]; [by left; left |].
           apply elem_of_cons in Hg as [-> | Hg]; [left; right; done |].
           right. by exists g.
    + destruct IH as [-> Hout]; [congruence | rewrite length_insert; lia |].
      split; [done |]. intros H. apply Forall_cons in H as [_ H]. done.
Qed.

End FinestMarking.

Section FinestVertices.
Context `{Fl : Floating} {Row : Type}.

(** *** Compacting the vertices *)

Lemma moveVertex_loop (gv : list bool) (vs : list Row) (k : nat) :
  length gv = length vs -> (k <= length vs)%nat ->
  exists vs' reindex,
    foldl (moveVertex gv) (vs, replicate (length vs) (-1), 0%nat) (seq 0 k)
      = (vs', reindex, rank gv k) /\
    length vs' = length vs /\ length reindex = length vs /\
    take (rank gv k) vs' = keep (take k gv) vs /\
    (forall j, (k <= j)%nat -> vs' !! j = vs !! j) /\
    (forall j, (j < k)%nat ->
       reindex !! j = Some (if (gv !!! j : bool) then Z.of_nat (rank gv j) else -1)) /\
    (forall j, (k <= j < length vs)%nat -> reindex !! j = Some (-1)).
Proof.
  intros Hgv. induction k as [|k IH]; intros Hk.
  - exists vs, (replicate (length vs) (-1)). cbn [seq foldl].
    assert (rank gv 0 = 0%nat) as -> by (by destruct gv).
    rewrite take_0. cbn [keep]. repeat split; try done.
    + by rewrite length_replicate.
    + intros; lia.
    + intros j Hj. apply lookup_replicate_2. lia.
  - destruct IH as (vs' & re & Hfold & Hlv & Hlr & Htake & Hrest & Hdone & Htodo); [lia |].
    rewrite seq_S, foldl_app, Hfold. cbn [foldl Nat.add]. unfold moveVertex.
    destruct (lookup_lt_is_Some_2 gv k) as [b Hb]; [lia |].
    destruct (lookup_lt_is_Some_2 vs k) as [r Hr]; [lia |].
    rewrite (list_lookup_total_correct _ _ _ Hb).
    rewrite (rank_S _ _ _ Hb), (take_S_r _ _ _ Hb).
    rewrite (keep_snoc _ _ _ r) by (rewrite length_take_le by lia; done).
    pose proof (rank_le gv k) as Hw.
    destruct b.
    + rewrite (Hrest k) by lia. rewrite Hr.
      eexists _, _. split; [by rewrite Nat.add_1_r |].
      assert (Hvs1 : forall vs1,
                vs1 = (if (rank gv k <? k)%nat then <[rank gv k := r]> vs' else vs') ->
                length vs1 = length vs /\
                take (rank gv k + 1) vs1 = keep (take k gv) vs ++ [r] /\
                forall j, (S k <= j)%nat -> vs1 !! j = vs !! j).
      { intros vs1 ->. destruct (Nat.ltb_spec (rank gv k) k) as [Hlt | Hge].
        - split; [by rewrite length_insert |]. split.
          + rewrite Nat.add_1_r, (take_S_r _ _ r) by (apply list_lookup_insert_eq; lia).
            by rewrite take_insert_ge, Htake by lia.
          + intros j Hj. rewrite list_lookup_insert_ne by lia. apply Hrest. lia.
        - assert (rank gv k = k) as Hwk by lia. split; [done |]. split.
          + rewrite Nat.add_1_r, Hwk, (take_S_r _ _ r) by (rewrite Hrest by lia; done).
            by rewrite <- Hwk at 1; rewrite Htake.
          + intros j Hj. apply Hrest. lia. }
      destruct (Hvs1 _ eq_refl) as (H1 & H2 & H3).
      split; [done |]. split; [by rewrite length_insert |]. split; [done |].
      split; [done |]. split.
      * intros j Hj. destruct (decide (j = k)) as [-> | Hne].
        -- rewrite list_lookup_insert_eq by lia.
           by rewrite (list_lookup_total_correct _ _ _ Hb).
        -- rewrite list_lookup_insert_ne by done. apply Hdone. lia.
      * intros j Hj. rewrite list_lookup_insert_ne by lia. apply Htodo. lia.
    + exists vs', re. rewrite Nat.add_0_r, app_nil_r.
      split; [done |]. repeat split; try done.
      * intros j Hj. apply Hrest. lia.
      * intros j Hj. destruct (decide (j = k)) as [-> | Hne].
        -- rewrite (list_lookup_total_correct _ _ _ Hb). apply Htodo. lia.
        -- apply Hdone. lia.
      * intros j Hj. apply Htodo. lia.
Qed.

End FinestVertices.

Section FinestFaces.
Context `{Fl : Floating}.

(** *** Compacting the faces *)

Lemma corner_setCorner (f : Z * Z * Z) (j j' : nat) (v : Z) :
  (j < 3)%nat -> (j' < 3)%nat ->
  corner (setCorner f j v) j' = if decide (j' = j) then v else corner f j'.
Proof.
  intros Hj Hj'. destruct f as [[a b] c].
  destruct j as [|[|[|j]]], j' as [|[|[|j']]]; cbn; try done; lia.
Qed.

(** One assignment [dst[j] = reindex[src[j]]]. *)
Lemma reindexCorners_step (gv : list bool) (reindex : list Z) (i w : nat)
    (j : nat) (rest : list nat) (fs : list (Z * Z * Z)) (src dst : Z * Z * Z) (r : Z) :
  fs !! i = Some src -> fs !! w = Some dst ->
  at_ gv (corner src j) = Ok true ->
  at_ reindex (corner src j) = Ok r -> 0 <= r ->
  reindexCorners gv reindex i w (j :: rest) fs
  = reindexCorners gv reindex i w rest (<[w := setCorner dst j r]> fs).
Proof.
  intros Hi Hw Hg Hr Hpos. cbn [reindexCorners].
  rewrite (at_lookup fs (Z.of_nat i) src) by (first [lia | by rewrite Nat2Z.id]).
  cbn [mbind result_bind]. rewrite Hg. cbn [mbind result_bind assert].
  rewrite Hr. cbn [mbind result_bind].
  destruct (Z.leb_spec 0 r); [|lia]. cbn [mbind result_bind assert].
  rewrite (at_lookup fs (Z.of_nat w) dst) by (first [lia | by rewrite Nat2Z.id]).
  cbn [mbind result_bind].
  rewrite set_at_Ok by (by eapply lookup_lt_Some). done.
Qed.

Lemma reindexCorners_spec (gv : list bool) (reindex : list Z) (i w : nat)
    (fs : list (Z * Z * Z)) (f : Z * Z * Z) :
  fs !! i = Some f -> (w <= i)%nat ->
  (forall j, (j < 3)%nat ->
     at_ gv (corner f j) = Ok true /\
     at_ reindex (corner f j) = Ok (Z.of_nat (rank gv (Z.to_nat (corner f j))))) ->
  reindexCorners gv reindex i w [0; 1; 2]%nat fs = Ok (<[w := reface gv f]> fs).
Proof.
  intros Hi Hw Hc.
  destruct (Hc 0%nat ltac:(lia)) as [Hg0 Hr0].
  destruct (Hc 1%nat ltac:(lia)) as [Hg1 Hr1].
  destruct (Hc 2%nat ltac:(lia)) as [Hg2 Hr2].
  pose proof (lookup_lt_Some _ _ _ Hi) as Hlen.
  destruct (lookup_lt_is_Some_2 fs w) as [d Hd]; [lia |].
  destruct f as [[a b] c], d as [[d0 d1] d2]. cbn [corner fst snd] in *.
  destruct (decide (w = i)) as [-> | Hne].
  - assert ((d0, d1, d2) = (a, b, c)) as [= -> -> ->] by congruence.
    erewrite (reindexCorners_step _ _ _ _ 0%nat);
      [| exact Hi | exact Hi | exact Hg0 | exact Hr0 | lia].
    cbn [setCorner fst snd].
    erewrite (reindexCorners_step _ _ _ _ 1%nat);
      [| by apply list_lookup_insert_eq | by apply list_lookup_insert_eq
       | exact Hg1 | exact Hr1 | lia].
    cbn [setCorner fst snd]. rewrite list_insert_insert_eq.
    erewrite (reindexCorners_step _ _ _ _ 2%nat);
      [| by apply list_lookup_insert_eq | by apply list_lookup_insert_eq
       | exact Hg2 | exact Hr2 | lia].
    cbn [setCorner fst snd reindexCorners]. by rewrite list_insert_insert_eq.
  - assert (Hwl : (w < length fs)%nat) by lia.
    erewrite (reindexCorners_step _ _ _ _ 0%nat);
      [| exact Hi | exact Hd | exact Hg0 | exact Hr0 | lia].
    cbn [setCorner fst snd].
    erewrite (reindexCorners_step _ _ _ _ 1%nat _ _ (a, b, c));
      [| rewrite list_lookup_insert_ne by done; exact Hi | by apply list_lookup_insert_eq
       | exact Hg1 | exact Hr1 | lia].
    cbn [setCorner fst snd]. rewrite list_insert_insert_eq.
    erewrite (reindexCorners_step _ _ _ _ 2%nat _ _ (a, b, c));
      [| rewrite list_lookup_insert_ne by done; exact Hi | by apply list_lookup_insert_eq
       | exact Hg2 | exact Hr2 | lia].
    cbn [setCorner fst snd reindexCorners]. by rewrite list_insert_insert_eq.
Qed.

Lemma compactFaces_loop (gf gv : list bool) (reindex : list Z)
    (fs0 : list (Z * Z * Z)) (m k : nat) (fs : list (Z * Z * Z)) :
  length gf = length fs0 ->
  (forall i f j, gf !! i = Some true -> fs0 !! i = Some f -> (j < 3)%nat ->
     at_ gv (corner f j) = Ok true /\
     at_ reindex (corner f j) = Ok (Z.of_nat (rank gv (Z.to_nat (corner f j))))) ->
  (k + m <= length fs0)%nat ->
  length fs = length fs0 ->
  take (rank gf k) fs = reface gv <$> keep (take k gf) fs0 ->
  (forall j, (k <= j)%nat -> fs !! j = fs0 !! j) ->
  exists fs',
    compactFaces gf gv reindex (seq k m) fs (rank gf k) = Ok (fs', rank gf (k + m)) /\
    length fs' = length fs0 /\
    take (rank gf (k + m)) fs' = reface gv <$> keep (take (k + m) gf) fs0 /\
    (forall j, (k + m <= j)%nat -> fs' !! j = fs0 !! j).
Proof.
  intros Hgf Hgood. revert k fs. induction m as [|m IH]; intros k fs Hk Hl Htake Hrest.
  - rewrite Nat.add_0_r. by exists fs.
  - cbn [seq compactFaces].
    destruct (lookup_lt_is_Some_2 gf k) as [b Hb]; [lia |].
    destruct (lookup_lt_is_Some_2 fs0 k) as [f Hf]; [lia |].
    rewrite (list_lookup_total_correct _ _ _ Hb).
    pose proof (rank_le gf k) as Hw.
    replace (k + S m)%nat with (S k + m)%nat by lia.
    destruct b.
    + rewrite (reindexCorners_spec gv reindex k (rank gf k) fs f);
        [| by rewrite Hrest by lia | lia | intros j Hj; by apply (Hgood k)].
      cbn [mbind result_bind].
      replace (S (rank gf k)) with (rank gf (S k))
        by (rewrite (rank_S _ _ _ Hb); lia).
      apply IH.
      * lia.
      * by rewrite length_insert.
      * rewrite (rank_S _ _ _ Hb), Nat.add_1_r.
        rewrite (take_S_r _ _ (reface gv f)) by (apply list_lookup_insert_eq; lia).
        rewrite take_insert_ge, Htake by lia.
        rewrite (take_S_r _ _ _ Hb).
        rewrite (keep_snoc _ _ _ f) by (rewrite length_take_le by lia; done).
        by rewrite fmap_app.
      * intros j Hj. rewrite list_lookup_insert_ne by lia. apply Hrest. lia.
    + replace (rank gf k) with (rank gf (S k))
        by (rewrite (rank_S _ _ _ Hb); lia).
      apply IH.
      * lia.
      * done.
      * rewrite (rank_S _ _ _ Hb), Nat.add_0_r, Htake.
        rewrite (take_S_r _ _ _ Hb).
        rewrite (keep_snoc _ _ _ f) by (rewrite length_take_le by lia; done).
        by rewrite app_nil_r.
      * intros j Hj. apply Hrest. lia.
Qed.

End FinestFaces.

Section FinestResult.
Context `{Fl : Floating} {Row : Type}.
Variable edge : Row -> Row -> float.

(** *** The result *)

Lemma rank_0 (flags : list bool) : rank flags 0 = 0%nat.
Proof. by destruct flags. Qed.

Lemma keep_fmap_filter {A} (p : A -> bool) (l : list A) :
  keep (p <$> l) l = filter (fun x => p x = true) l.
Proof.
  induction l as [|x l IH]; [done |]. cbn [fmap list_fmap keep].
  rewrite filter_cons, IH. destruct (p x); by destruct (decide _).
Qed.

Lemma filterFinest_closed (mesh : @Mesh Row) (size : float) :
  match markFaces edge (vertices mesh) size (faces mesh) 0
          (replicate (length (faces mesh)) true)
          (replicate (length (vertices mesh)) false) with
  | Ok (gf, gv) =>
      flagged edge mesh size gv /\
      filterFinest edge mesh size
      = Ok (mkMesh (keep gv (vertices mesh))
              (reface gv <$> filter (fun f => fine edge (vertices mesh) size f = true)
                               (faces mesh)))
  | Abort fault =>
      fault = OutOfBounds /\ ~ wellFormed mesh /\
      filterFinest edge mesh size = Abort fault
  end.
Proof.
  unfold filterFinest. destruct mesh as [vs fs]. cbn [vertices faces].
  pose proof (markFaces_cases edge vs size fs 0
                (replicate (length fs) true) (replicate (length vs) false)) as Hmark.
  change (Z.of_nat 0) with 0 in Hmark.
  destruct (markFaces _ _ _ _ _ _ _) as [[gf gv] | fault].
  2: { destruct Hmark as [-> Hout];
         [by rewrite length_replicate | rewrite length_replicate; lia |].
       done. }
  destruct Hmark as (Hgf & Hlgv & Hgv);
    [by rewrite length_replicate | rewrite length_replicate; lia |].
  rewrite take_0, drop_ge, app_nil_r in Hgf by (rewrite length_replicate; lia).
  cbn [app] in Hgf. subst gf. rewrite length_replicate in Hlgv.
  assert (Hflag : flagged edge (mkMesh vs fs) size gv).
  { split; [done |]. intros v. rewrite Hgv. cbn [vertices faces]. split.
    - intros [H | H]; [|done]. apply lookup_replicate in H as [[=] _].
    - intros H. by right. }
  split; [done |]. cbn [mbind result_bind].
  destruct (moveVertex_loop gv vs (length vs) Hlgv ltac:(lia))
    as (vs' & re & -> & Hlv & Hlr & Htake & _ & Hre & _).
  rewrite (take_ge gv) in Htake by lia.
  destruct (compactFaces_loop (fine edge vs size <$> fs) gv re fs (length fs) 0 fs)
    as (fs' & Hc & Hlf & Htakef & _).
  - by rewrite length_fmap.
  - intros i f j Hi Hf Hj. rewrite list_lookup_fmap, Hf in Hi. injection Hi as Hfine.
    pose proof (fine_inRange edge vs size f Hfine j Hj) as Hr.
    assert (Hg : gv !! Z.to_nat (corner f j) = Some true).
    { apply Hgv. right. exists f. split; [by eapply list_elem_of_lookup_2 |].
      split; [done |]. exists j. split; [done | lia]. }
    split; [by apply at_lookup; [lia |] |].
    apply at_lookup; [lia |]. rewrite Hre by lia.
    by rewrite (list_lookup_total_correct _ _ _ Hg).
  - lia.
  - done.
  - by rewrite rank_0, !take_0.
  - done.
  - rewrite rank_0 in Hc. cbn [Nat.add] in Hc. rewrite Hc. cbn [mbind result_bind].
    cbn [Nat.add] in Htakef. rewrite Htakef, Htake.
    rewrite (take_ge (fine edge vs size <$> fs)) by (rewrite length_fmap; lia).
    by rewrite keep_fmap_filter.
Qed.

(** A fine face after the filter: its corners point to the same rows, and it is fine
    in the filtered mesh. *)
Lemma reface_fine (mesh : @Mesh Row) (size : float) (gv : list bool) (f : Z * Z * Z) :
  flagged edge mesh size gv ->
  f ∈ faces mesh -> fine edge (vertices mesh) size f = true ->
  (forall j, (j < 3)%nat ->
     exists r, 0 <= corner f j /\
               vertices mesh !! Z.to_nat (corner f j) = Some r /\
               keep gv (vertices mesh) !! Z.to_nat (corner (reface gv f) j) = Some r) /\
  fine edge (keep gv (vertices mesh)) size (reface gv f) = true.
Proof.
  intros [Hl Hgv] Hin Hfine.
  assert (Hrows : forall j, (j < 3)%nat ->
     exists r, 0 <= corner f j /\
               vertices mesh !! Z.to_nat (corner f j) = Some r /\
               keep gv (vertices mesh) !! Z.to_nat (corner (reface gv f) j) = Some r).
  { intros j Hj.
    pose proof (fine_inRange edge _ size f Hfine j Hj) as Hr.
    destruct (lookup_lt_is_Some_2 (vertices mesh) (Z.to_nat (corner f j))) as [r Hrow];
      [lia |].
    exists r. split; [lia |]. split; [done |].
    assert (Hc : corner (reface gv f) j = Z.of_nat (rank gv (Z.to_nat (corner f j)))).
    { by destruct j as [|[|[|j]]]; [| | | lia]. }
    rewrite Hc, Nat2Z.id. apply keep_lookup_rank; [|done].
    apply Hgv. exists f. split; [done |]. split; [done |]. exists j. split; [done | lia]. }
  split; [done |].
  destruct (Hrows 0%nat ltac:(lia)) as (r0 & Hp0 & Ha0 & Hb0).
  destruct (Hrows 1%nat ltac:(lia)) as (r1 & Hp1 & Ha1 & Hb1).
  destruct (Hrows 2%nat ltac:(lia)) as (r2 & Hp2 & Ha2 & Hb2).
  cbn [corner] in *. unfold fine in *.
  rewrite (at_lookup _ _ _ Hp0 Ha0), (at_lookup _ _ _ Hp1 Ha1),
    (at_lookup _ _ _ Hp2 Ha2) in Hfine.
  rewrite (at_lookup _ _ r0), (at_lookup _ _ r1), (at_lookup _ _ r2);
    first [done | cbn; lia].
Qed.

End FinestResult.

Section FinestTheorems.
Context `{Fl : Floating} {Row : Type}.
Variable edge : Row -> Row -> float.

Lemma filterFinest_Ok (mesh mesh' : @Mesh Row) (size : float) :
  filterFinest edge mesh size = Ok mesh' ->
  exists gv,
    flagged edge mesh size gv /\
    mesh' = mkMesh (keep gv (vertices mesh))
              (reface gv <$> filter (fun f => fine edge (vertices mesh) size f = true)
                               (faces mesh)).
Proof.
  intros H. pose proof (filterFinest_closed edge mesh size) as Hc.
  destruct (markFaces _ _ _ _ _ _ _) as [[gf gv] | fault].
  - destruct Hc as [Hflag Hc]. exists gv. split; [done | congruence].
  - destruct Hc as (_ & _ & Hc). congruence.
Qed.

(** X18: [filterFinest] fails only by reading [mesh.vertices] at a corner
    that is not a vertex: it returns a mesh whenever every corner of every
    face is a vertex, and its two assertions never fail. *)
Theorem filterFinest_faults (mesh : @Mesh Row) (size : float) :
  (wellFormed mesh -> exists mesh', filterFinest edge mesh size = Ok mesh') /\
  (forall fault, filterFinest edge mesh size = Abort fault ->
     fault = OutOfBounds /\ ~ wellFormed mesh).
Proof.
  pose proof (filterFinest_closed edge mesh size) as Hc.
  destruct (markFaces _ _ _ _ _ _ _) as [[gf gv] | fault].
  - destruct Hc as [_ ->]. split; [by eexists | done].
  - destruct Hc as (-> & Hout & ->). split; [done |]. by intros fault [= <-].
Qed.

(** X19: the faces that [filterFinest] returns are the fine faces of the
    mesh, in their order; each corner of a returned face points to the
    same row as the corner of the face it comes from, and in the returned
    mesh every face is fine. *)
Theorem filterFinest_faces (mesh mesh' : @Mesh Row) (size : float)
    (Hrun : filterFinest edge mesh size = Ok mesh') :
  Forall2 (fun f f' => forall j, (j < 3)%nat ->
             exists r, vertices mesh !! Z.to_nat (corner f j) = Some r /\
                       vertices mesh' !! Z.to_nat (corner f' j) = Some r)
    (filter (fun f => fine edge (vertices mesh) size f = true) (faces mesh))
    (faces mesh') /\
  Forall (fun f' => fine edge (vertices mesh') size f' = true) (faces mesh').
Proof.
  destruct (filterFinest_Ok _ _ _ Hrun) as (gv & Hflag & ->). cbn [vertices faces].
  assert (Hall : Forall (fun f => f ∈ faces mesh /\ fine edge (vertices mesh) size f = true)
                   (filter (fun f => fine edge (vertices mesh) size f = true) (faces mesh))).
  { apply Forall_forall. intros f Hf. apply list_elem_of_filter in Hf. tauto. }
  split.
  - apply Forall2_fmap_r, Forall_Forall2_diag.
    eapply Forall_impl; [exact Hall |]. cbn beta. intros f [Hin Hfine] j Hj.
    destruct (reface_fine edge mesh size gv f Hflag Hin Hfine) as [Hrows _].
    destruct (Hrows j Hj) as (r & _ & H1 & H2). by exists r.
  - apply Forall_fmap. eapply Forall_impl; [exact Hall |]. cbn beta.
    intros f [Hin Hfine]. by apply (reface_fine edge mesh size gv f Hflag Hin Hfine).
Qed.

(** X20: the vertices that [filterFinest] returns are rows of the mesh in
    their order, and each of them is a corner of a returned face. *)
Theorem filterFinest_vertices (mesh mesh' : @Mesh Row) (size : float)
    (Hrun : filterFinest edge mesh size = Ok mesh') :
  vertices mesh' `sublist_of` vertices mesh /\
  forall p, (p < length (vertices mesh'))%nat ->
    exists f', f' ∈ faces mesh' /\ cornerOf f' p.
Proof.
  destruct (filterFinest_Ok _ _ _ Hrun) as (gv & Hflag & ->). cbn [vertices faces].
  split; [apply keep_sublist |].
  intros p Hp. destruct (lookup_lt_is_Some_2 _ _ Hp) as [r Hr].
  destruct (keep_lookup_inv _ _ _ _ Hr) as (i & Hi & _ & <-).
  destruct Hflag as [_ Hgv]. apply Hgv in Hi as (f & Hin & Hfine & j & Hj & Hc).
  exists (reface gv f). split.
  - apply list_elem_of_fmap. exists f. split; [done |].
    apply list_elem_of_filter. by split.
  - exists j. split; [done |].
    destruct j as [|[|[|j]]]; [| | | lia]; cbn [corner reface fst snd] in *;
      by rewrite Hc, Nat2Z.id.
Qed.

(** X21: [filterFinest] is idempotent: applied to its own result, with the
    same size, it returns that mesh as it is. *)
Theorem filterFinest_idempotent (mesh mesh' : @Mesh Row) (size : float)
    (Hrun : filterFinest edge mesh size = Ok mesh') :
  filterFinest edge mesh' size = Ok mesh'.
Proof.
  destruct (filterFinest_Ok _ _ _ Hrun) as (gv & Hflag & Hmesh').
  set (fs1 := filter (fun f => fine edge (vertices mesh) size f = true) (faces mesh)) in *.
  assert (Hfine' : Forall (fun f' => fine edge (vertices mesh') size f' = true)
                     (faces mesh')).
  { rewrite Hmesh'. cbn [vertices faces]. apply Forall_fmap, Forall_forall.
    intros f Hf. apply list_elem_of_filter in Hf as [Hfine Hin].
    by apply (reface_fine edge mesh size gv f Hflag Hin Hfine). }
  assert (Hused : forall p, (p < length (vertices mesh'))%nat ->
            exists f', f' ∈ faces mesh' /\ cornerOf f' p).
  { rewrite Hmesh'. cbn [vertices faces]. intros p Hp.
    destruct (lookup_lt_is_Some_2 _ _ Hp) as [r Hr].
    destruct (keep_lookup_inv _ _ _ _ Hr) as (i & Hi & _ & <-).
    destruct Hflag as [_ Hgv]. apply Hgv in Hi as (f & Hin & Hfine & j & Hj & Hc).
    exists (reface gv f). split.
    - apply list_elem_of_fmap. exists f. split; [done |].
      apply list_elem_of_filter. by split.
    - exists j. split; [done |].
      destruct j as [|[|[|j]]]; [| | | lia]; cbn [corner reface fst snd] in *;
        by rewrite Hc, Nat2Z.id. }
  clearbody fs1. clear Hrun Hflag.
  pose proof (filterFinest_closed edge mesh' size) as Hc.
  destruct (markFaces _ _ _ _ _ _ _) as [[gf2 gv2] | fault].
  2: { destruct Hc as (_ & Hout & _). exfalso. apply Hout.
       eapply Forall_impl; [exact Hfine' |]. cbn beta. intros f. apply fine_inRange. }
  destruct Hc as [[Hl2 Hgv2] ->].
  assert (Htrue : Forall (fun b => b = true) gv2).
  { apply Forall_lookup. intros p b Hb.
    pose proof (lookup_lt_Some _ _ _ Hb) as Hp. rewrite Hl2 in Hp.
    destruct (Hused p Hp) as (f' & Hin & Hcorner).
    assert (gv2 !! p = Some true); [|congruence].
    apply Hgv2. exists f'. split; [done |]. split; [|done].
    rewrite Forall_forall in Hfine'. by apply Hfine'. }
  rewrite keep_all_true by done.
  assert (Hfilter : filter (fun f => fine edge (vertices mesh') size f = true) (faces mesh')
                    = faces mesh').
  { clear -Hfine'. induction Hfine' as [|f l Hf _ IH]; [done |].
    by rewrite filter_cons_True, IH. }
  rewrite Hfilter.
  assert (Hre : reface gv2 <$> faces mesh' = faces mesh').
  { rewrite <- (list_fmap_id (faces mesh')) at 2. apply list_fmap_ext.
    intros i f Hf. cbn.
    pose proof (Forall_lookup_1 _ _ _ _ Hfine' Hf) as Hff. cbn beta in Hff.
    apply fine_inRange, cornersInRange_alt in Hff as (H0 & H1 & H2).
    destruct f as [[a b] c]. unfold reface. cbn [fst snd] in *.
    rewrite !rank_all_true by (first [done | lia]). f_equal; [f_equal |]; lia. }
  rewrite Hre. by destruct mesh'.
Qed.

End FinestTheorems.

(** ** The keys of the vote table *)

(** X22: [compact] converts its arguments to [unsigned short]: camera
    indices that differ by a multiple of 65536 give the same key, and the
    key is below 2^32. *)
Theorem compact_wraps (i j a b : Z) :
  compact (i + a * 2 ^ 16) (j + b * 2 ^ 16) = compact i j /\
  0 <= compact i j < 2 ^ 32.
Proof.
  unfold compact, to_ushort, short_bits. split.
  - by rewrite !Z.mod_add by lia.
  - apply Z.mod_pos_bound. lia.
Qed.

(** ** What [chooseSide] leaves alone *)

Section FrameProperties.
Context `{Fl : Floating} `{Ex : !Externals}.

Lemma subscript_lookup (w : gmap Z float) (k k' : Z) :
  k' <> k -> (subscript w k).2 !! k' = w !! k'.
Proof.
  intros Hne. unfold subscript. destruct (w !! k); [done |]. cbn.
  by rewrite lookup_insert_ne.
Qed.

Lemma subscript_keeps (w : gmap Z float) (k k' : Z) :
  is_Some (w !! k') -> is_Some ((subscript w k).2 !! k').
Proof.
  intros H. unfold subscript. destruct (w !! k) eqn:E; [done |]. cbn.
  destruct (decide (k' = k)) as [-> | Hne].
  - by rewrite E in H; destruct H.
  - by rewrite lookup_insert_ne.
Qed.

Lemma insert_keeps (w : gmap Z float) (k k' : Z) (v : float) :
  is_Some (w !! k') -> is_Some (<[k := v]> w !! k').
Proof.
  intros H. destruct (decide (k' = k)) as [-> | Hne].
  - by rewrite lookup_insert_eq.
  - by rewrite lookup_insert_ne.
Qed.

Lemma chooseSide_vote_frame (w : gmap Z float) (mainCamera : CameraLabel)
    (threshold : float) (sw : SideWeights) (idx : Z)
    (label : CameraLabel) (w' : gmap Z float) (drawn : CameraLabel) :
  chooseSide_vote w mainCamera threshold sw idx = Ok (label, w') ->
  at_ (side_labels sw) idx = Ok drawn ->
  (forall k, k <> compact (index mainCamera) (index drawn) ->
             k <> compact (index mainCamera) (index mainCamera) ->
             w' !! k = w !! k) /\
  (forall k, is_Some (w !! k) -> is_Some (w' !! k)).
Proof.
  unfold chooseSide_vote. intros H Hd. rewrite Hd in H. cbn [mbind result_bind] in H.
  set (key := compact (index mainCamera) (index drawn)) in *.
  set (diag := compact (index mainCamera) (index mainCamera)) in *.
  pose proof (subscript_lookup w key) as Hl1.
  pose proof (subscript_keeps w key) as Hk1.
  destruct (subscript w key) as [v w1]. cbn [snd] in Hl1, Hk1.
  destruct (f_leb f_one v).
  - injection H as <- <-. split; [intros k Hk _; by apply Hl1 | done].
  - apply bind_Ok in H as (add & _ & H).
    pose proof (subscript_lookup (<[diag := f_one]> w1) key) as Hl2.
    pose proof (subscript_keeps (<[diag := f_one]> w1) key) as Hk2.
    destruct (subscript (<[diag := f_one]> w1) key) as [v2 w2]. cbn [snd] in Hl2, Hk2.
    pose proof (subscript_lookup (<[key := f_add v2 add]> w2) key) as Hl3.
    pose proof (subscript_keeps (<[key := f_add v2 add]> w2) key) as Hk3.
    destruct (subscript (<[key := f_add v2 add]> w2) key) as [v3 w3].
    cbn [snd] in Hl3, Hk3.
    assert (w' = w3) as -> by (destruct (f_leb f_one v3); by injection H).
    split.
    + intros k Hk Hkd. rewrite Hl3, lookup_insert_ne, Hl2, lookup_insert_ne, Hl1 by done.
      done.
    + intros k Hk. by apply Hk3, insert_keeps, Hk2, insert_keeps, Hk1.
Qed.

(** X23: what [chooseSide] leaves alone.  A call that returns changes the
    table at most at two keys, the key of the main camera with the drawn
    side camera and the mark of the main camera; the drawn camera is one
    of the filtered cameras, other than the main camera; no key is ever
    removed; and the call returns the drawn label or the dummy label. *)
Theorem chooseSide_frame (w : gmap Z float) (mainCamera : CameraLabel)
    (threshold boost : float) (filteredCameras : LabelledCameras) (r : float)
    (label : CameraLabel) (w' : gmap Z float)
    (Hrun : chooseSide w mainCamera threshold boost filteredCameras r = Ok (label, w')) :
  exists drawn,
    drawn ∈ others mainCamera filteredCameras /\
    (label = drawn \/ label = dummyLabel) /\
    (forall k, k <> compact (index mainCamera) (index drawn) ->
               k <> compact (index mainCamera) (index mainCamera) ->
               w' !! k = w !! k) /\
    (forall k, is_Some (w !! k) -> is_Some (w' !! k)).
Proof.
  destruct (chooseSide_spec (fun l => l ∈ filteredCameras.*1) _ _ _ _ _ _ _ _ Hrun)
    as (sw & idx & drawn & _ & Hvote & Hdrawn & Hne & Hin).
  { apply Forall_forall. intros p Hp. apply list_elem_of_fmap. by exists p. }
  exists drawn. split; [|split].
  - unfold others. apply list_elem_of_filter. by split.
  - destruct (chooseSide_vote_spec _ _ _ _ _ _ _ Hvote) as (drawn' & Hd & Hcases).
    assert (drawn' = drawn) as -> by congruence. cbv zeta in Hcases.
    destruct Hcases as [(_ & -> & _) | (_ & add & _ & _ & _ & _ & [[_ ->] | [_ ->]])];
      auto.
  - by apply (chooseSide_vote_frame _ _ _ _ _ _ _ _ Hvote).
Qed.

End FrameProperties.

(** ** An iteration of the sampling loop *)

Section StepSafety.
Context `{Fl : Floating} `{Ex : !Externals}.

Lemma others_once (mainCamera : CameraLabel) (camera : Mat) (cams : LabelledCameras) :
  NoDup ((fun p => index p.1) <$> cams) ->
  (mainCamera, camera) ∈ cams ->
  S (length (others mainCamera cams)) = length cams.
Proof.
  induction cams as [|[label cam] cams IH]; intros Hnd Hin.
  - by apply elem_of_nil in Hin.
  - cbn [fmap list_fmap fst] in Hnd. apply NoDup_cons in Hnd as [Hout Hnd].
    rewrite others_cons. cbn [length].
    destruct (Z.eqb_spec (index label) (index mainCamera)) as [Heq | Hne].
    + f_equal. clear IH Hin Hnd. rewrite Heq in Hout.
      induction cams as [|[l c] cams IH]; [done |].
      rewrite others_cons. cbn [fmap list_fmap fst] in Hout.
      apply not_elem_of_cons in Hout as [Hne Hout].
      destruct (Z.eqb_spec (index l) (index mainCamera)); [congruence |].
      cbn [length]. by rewrite IH.
    + f_equal. apply IH; [done |].
      apply elem_of_cons in Hin as [[= <- <-] | Hin]; [done | done].
Qed.

Lemma writePair_total (chosen : list (Z * list Z)) (main side : Z) :
  exists chosen', writePair chosen main side = Ok chosen'.
Proof.
  unfold writePair.
  destruct (myFind_from_first chosen 0 main) as [[Hr _] | (p & e & Hr & Hp & _)];
    fold (myFind chosen main) in Hr; rewrite Hr.
  - by eexists.
  - destruct (Z.eqb_spec (0 + Z.of_nat p) (-1)) as [? | _]; [lia |].
    pose proof (lookup_lt_Some _ _ _ Hp) as Hlt.
    rewrite (at_lookup _ _ e) by (first [lia | by rewrite Z.add_0_l, Nat2Z.id]).
    cbn [mbind result_bind].
    destruct (_ =? -1); [|by eexists].
    rewrite Z.add_0_l, set_at_Ok by done. by eexists.
Qed.

(** X24: an iteration of the sampling loop is safe when its draws hit.
    Once [filterCameras] has returned, the iteration leaves the state as
    it is if fewer than two cameras see the point; otherwise
    [chooseMain], [chooseSide] and the write into the table run without
    a failed assertion and without leaving a vector, provided the value
    drawn for the main camera hits and, for whichever main camera is
    drawn, the value drawn for the side camera hits. *)
Theorem shotStep_safe (config : Configuration) (resolution : float)
    (cameras : list Mat) (st : Selection) (s : Shot) (filtered : LabelledCameras)
    (Hfilter : filterCameras (viewer s) (depth s) cameras = Ok filtered)
    (Hmain : (2 <= length filtered)%nat ->
       let weights := mainWeight (weights st) (cameraThreshold config)
                        (Z.of_nat (length filtered)) <$> filtered.*1 in
       hits (f_mul (rMain s) (foldl f_add f_zero weights)) (runningSums f_zero weights))
    (Hside : forall mainCamera, (2 <= length filtered)%nat ->
       mainCamera ∈ filtered.*1 ->
       let weights := sideWeight (weights st) mainCamera
                        (f_div (cameraThreshold config) (f_of_int 10))
                        (Z.of_nat (length filtered))
                        <$> others mainCamera filtered in
       hits (f_mul (rSide s) (foldl f_add f_zero weights)) (runningSums f_zero weights)) :
  exists st' picked,
    shotStep config resolution cameras st s = Ok (st', picked) /\
    ((length filtered < 2)%nat -> st' = st /\ picked = None).
Proof.
  unfold shotStep. rewrite Hfilter. cbn [mbind result_bind].
  destruct (Z.leb_spec 2 (Z.of_nat (length filtered))) as [Htwo | Hfew];
    [|exists st, None; by split].
  assert (Htwo' : (2 <= length filtered)%nat) by lia.
  specialize (Hmain Htwo').
  assert (Hsome : filtered <> []) by (destruct filtered; [cbn in Htwo'; lia | done]).
  unfold pickPair.
  destruct (chooseMain_unfold (weights st) filtered (cameraThreshold config) (rMain s) Hsome)
    as [Hlen ->].
  cbv zeta in Hmain.
  match goal with |- context [bisect (f_zero :: ?sums) ?choice] =>
    destruct (bisect_hits choice sums) as [Hhit _] end.
  destruct (Hhit Hmain) as (k & Hk & ->). clear Hhit.
  pose proof (drawnAt_lt _ _ _ Hk) as Hlt. rewrite Hlen in Hlt.
  destruct (lookup_lt_is_Some_2 filtered k Hlt) as [[mainCamera camera] Hat].
  rewrite (at_lookup _ _ (mainCamera, camera)) by (first [lia | by rewrite Nat2Z.id]).
  cbn [mbind result_bind fst].
  assert (Hin : (mainCamera, camera) ∈ filtered) by (by eapply list_elem_of_lookup_2).
  assert (Honce : S (length (others mainCamera filtered)) = length filtered).
  { apply (others_once _ camera); [|done].
    destruct (filterCameras_from_labels (viewer s) (depth s) cameras 0 [] [] filtered
                Hfilter) as [Hs _]; [done | constructor | constructor |].
    clear -Hs. induction Hs as [|x l Hs IH Hx]; constructor; [|done].
    intros Hin. rewrite Forall_forall in Hx. specialize (Hx x Hin). lia. }
  assert (Hm : mainCamera ∈ filtered.*1).
  { apply list_elem_of_fmap. by exists (mainCamera, camera). }
  specialize (Hside mainCamera Htwo' Hm). cbv zeta in Hside.
  destruct (chooseSide_unfold (weights st) mainCamera
              (f_div (f_mul (f_of_int shotCount)
                            (foldl f_add f_zero (unboostedMain <$> filtered.*1)))
                     resolution)
              (f_div (cameraThreshold config) (f_of_int 10))
              filtered (rSide s) Htwo' Honce) as [Hlen2 ->].
  match goal with |- context [bisect (f_zero :: ?sums) ?choice] =>
    destruct (bisect_hits choice sums) as [Hhit _] end.
  destruct (Hhit Hside) as (j & Hj & ->). clear Hhit.
  pose proof (drawnAt_lt _ _ _ Hj) as Hlt2. rewrite Hlen2 in Hlt2.
  destruct (lookup_lt_is_Some_2 _ j Hlt2) as [drawn Hdrawn].
  destruct (Z.leb_spec 0 (Z.of_nat j)); [|lia].
  destruct (Z.ltb_spec (Z.of_nat j)
              (Z.of_nat (length (others mainCamera filtered)))); [|lia].
  cbn [andb assert mbind result_bind].
  destruct (chooseSide_vote_total (weights st) mainCamera
              (f_div (f_mul (f_of_int shotCount)
                            (foldl f_add f_zero (unboostedMain <$> filtered.*1)))
                     resolution) _ _
              (foldl f_add f_zero (unboostedSide mainCamera
                                     <$> others mainCamera filtered))
              (Z.of_nat (length (others mainCamera filtered))) j drawn Hlen2 Hdrawn)
    as (label & w' & -> & _).
  cbn [mbind result_bind].
  destruct (index label =? index dummyLabel); cbn [mbind result_bind].
  - eexists _, _. split; [done | lia].
  - destruct (writePair_total (chosenCameras st) (index mainCamera) (index label))
      as [chosen' ->].
    cbn [mbind result_bind]. eexists _, _. split; [done | lia].
Qed.

End StepSafety.

(** ** The further properties at concrete inputs *)

Import FurtherExamples.

Lemma outcome_isOk {A} (r : result A) (d : A) : isOk r = true -> r = Ok (outcome r d).
Proof. by destruct r. Qed.

Lemma chooseMain_by_weight_witness :
  let weights := mainWeight ∅ (fl 1) 2 <$> twoLabels.*1 in
  let sums := runningSums f_zero weights in
  let choice := f_mul (ratio 1 4) (foldl f_add f_zero weights) in
  (hits choice sums ->
   exists k label camera,
     drawnAt choice sums k /\
     twoLabels !! k = Some (label, camera) /\
     chooseMain ∅ twoLabels (fl 1) (ratio 1 4)
       = Ok (label, foldl f_add f_zero (unboostedMain <$> twoLabels.*1))) /\
  (~ hits choice sums ->
   chooseMain ∅ twoLabels (fl 1) (ratio 1 4) = Abort OutOfBounds).
Proof.
  apply (chooseMain_by_weight (Fl := binary) (Ex := Examples.externals)
           ∅ twoLabels (fl 1) (ratio 1 4)).
  discriminate.
Defined.

Lemma chooseSide_main_absent_witness :
  chooseSide ∅ labelAbsent (fl 1) (fl 1) twoLabels (ratio 1 4) = Abort OutOfBounds.
Proof.
  apply (chooseSide_main_absent (Fl := binary) (Ex := Examples.externals)
           ∅ labelAbsent (fl 1) (fl 1) twoLabels (ratio 1 4)).
  - cbn. lia.
  - repeat constructor; cbn; lia.
Defined.

Lemma chooseSide_by_weight_witness :
  let weights := sideWeight ∅ label0 (fl 1) 2 <$> others label0 twoLabels in
  let sums := runningSums f_zero weights in
  let choice := f_mul (ratio 1 4) (foldl f_add f_zero weights) in
  (hits choice sums ->
   exists k drawn label w',
     drawnAt choice sums k /\
     others label0 twoLabels !! k = Some drawn /\
     chooseSide ∅ label0 (fl 1) (fl 1) twoLabels (ratio 1 4) = Ok (label, w') /\
     (label = drawn \/ label = dummyLabel)) /\
  (~ hits choice sums ->
   chooseSide ∅ label0 (fl 1) (fl 1) twoLabels (ratio 1 4) = Abort AssertionFailed).
Proof.
  apply (chooseSide_by_weight (Fl := binary) (Ex := Examples.externals)
           ∅ label0 (fl 1) (fl 1) twoLabels (ratio 1 4)).
  - cbn. lia.
  - reflexivity.
Defined.

Lemma filterCameras_labels_witness :
  let filtered := outcome (filterCameras viewerThrough emptyDepth threeCameras) [] in
  length filtered = 3%nat /\
  StronglySorted Z.lt ((fun p => index p.1) <$> filtered) /\
  Forall (fun p => 0 <= index p.1 < 3 /\
                   threeCameras !! Z.to_nat (index p.1) = Some p.2 /\
                   labelled viewerThrough emptyDepth p.2 p.1) filtered.
Proof.
  intros filtered. split; [vm_compute; reflexivity |].
  apply (filterCameras_labels (Fl := binary) (Ex := Examples.externals)
           viewerThrough emptyDepth threeCameras filtered).
  apply outcome_isOk. vm_compute. reflexivity.
Defined.

Lemma chooseCameras_indices_witness :
  chooseCameras config [fl 1; fl 1] threeCameras shotsA
    = Ok (4, [(0, [1; 2]); (1, [0; 2])]) /\
  0 <= 1 < 3 /\ Forall (fun side => 0 <= side < 3) [0; 2].
Proof.
  assert (Hrun : chooseCameras config [fl 1; fl 1] threeCameras shotsA
                 = Ok (4, [(0, [1; 2]); (1, [0; 2])])) by (vm_compute; reflexivity).
  split; [exact Hrun |].
  apply (chooseCameras_indices config [fl 1; fl 1] threeCameras shotsA
           4 [(0, [1; 2]); (1, [0; 2])] 1 [0; 2] Hrun).
  apply list_elem_of_further, list_elem_of_here.
Defined.

Lemma chooseCameras_sorted_witness :
  chooseCameras config [fl 1; fl 1] threeCameras shotsA
    = Ok (4, [(0, [1; 2]); (1, [0; 2])]) /\
  StronglySorted Z.lt [0; 1] /\
  Forall (fun e : Z * list Z => e.2 <> []) [(0, [1; 2]); (1, [0; 2])].
Proof.
  assert (Hrun : chooseCameras config [fl 1; fl 1] threeCameras shotsA
                 = Ok (4, [(0, [1; 2]); (1, [0; 2])])) by (vm_compute; reflexivity).
  split; [exact Hrun |].
  apply (chooseCameras_sorted config [fl 1; fl 1] threeCameras shotsA
           4 [(0, [1; 2]); (1, [0; 2])] Hrun).
Defined.

Lemma chooseCameras_count_witness :
  chooseCameras config [fl 1; fl 1] threeCameras shotsA
    = Ok (4, [(0, [1; 2]); (1, [0; 2])]) /\
  0 <= 4 <= 200 /\
  ((length threeCameras <= 1)%nat -> 4 = 0 /\ [(0, [1; 2]); (1, [0; 2])] = []).
Proof.
  assert (Hrun : chooseCameras config [fl 1; fl 1] threeCameras shotsA
                 = Ok (4, [(0, [1; 2]); (1, [0; 2])])) by (vm_compute; reflexivity).
  split; [exact Hrun |].
  apply (chooseCameras_count config [fl 1; fl 1] threeCameras shotsA
           4 [(0, [1; 2]); (1, [0; 2])] Hrun).
Defined.

Lemma cursor_enumerates_witness :
  exists c1 c2,
    mainCall 1 (mkCursor bundles 9 9) = Ok (7, c1) /\
    sideCall 0 c1 7 = Ok (default sentinel ([4] !! 0%nat), c2).
Proof.
  apply (cursor_enumerates (Fl := binary) (Ex := Examples.externals)
           (mkCursor bundles 9 9) 1 0 7 [4]).
  reflexivity.
Defined.

Lemma cursor_exhausted_witness :
  exists c1,
    mainCall 2 (mkCursor bundles 9 9) = Ok (sentinel, c1) /\
    beginSide c1 7 = Abort OutOfBounds /\
    nextSide c1 7 = Abort OutOfBounds.
Proof.
  apply (cursor_exhausted (Fl := binary) (Ex := Examples.externals)
           (mkCursor bundles 9 9) 2 7).
  cbn. lia.
Defined.

Lemma controller_rounds_witness :
  exists h,
    rounds 3 false [fl 8; fl 0; fl 0; fl 0; fl 0] newController
    = Ok (AlphaShape :: replicate 2 PoissonSurface, h) /\
    alphaVals h = halvings (fl 8) 3 /\
    tessellate false (fl 8) (notHappy 3 (notHappy 3 newController).2).2
    = Abort OutOfBounds.
Proof.
  apply (controller_rounds (Fl := binary) 3 false (fl 8) [fl 0; fl 0; fl 0; fl 0]).
  lia.
Defined.

Lemma neighborTable_blocks_witness :
  block (Fl := binary) (neighborTable (fl 1) search3 3) 1
    = pushed (fl 1) 1 (search3 1%nat) /\
  Forall (fun nb : Neighbor => 0 <= nb.1 < 1)
    (block (Fl := binary) (neighborTable (fl 1) search3 3) 1).
Proof.
  apply (neighborTable_blocks (Fl := binary) (fl 1) search3 3 1). lia.
Defined.

Lemma filterPoints_small_cloud_witness :
  filterPoints sortIdx_descending (fl 4) search3 [10] [20] = ([], []).
Proof.
  apply (filterPoints_small_cloud (Fl := binary) sortIdx_descending
           (fun d => merge_sort_Permutation _ (seq 0 (length d)))
           (fl 4) search3 [10] [20]).
  - vm_compute. reflexivity.
  - reflexivity.
  - cbn. lia.
Defined.

Lemma density_clamped_witness :
  let density :=
    (densityLoop 199 (neighborTable (fl 1) search3 3) 3 (replicate 3 f_one)).1 in
  length density = 3%nat /\
  Forall (fun d => d_ltb (d_of_int 2) (f2d d) = false) density.
Proof.
  apply (density_clamped (Fl := binary) 199
           (neighborTable (Fl := binary) (fl 1) search3 3) 3
           (replicate 3 f_one)).
  - vm_compute. reflexivity.
  - reflexivity.
Defined.

Lemma filterFinest_faces_witness :
  let mesh' := mkMesh [0; 1; 2] [(0, 1, 2); (2, 0, 1)] in
  filterFinest gap strip (fl 5) = Ok mesh' /\
  Forall2 (fun f f' => forall j, (j < 3)%nat ->
             exists r, vertices strip !! Z.to_nat (corner f j) = Some r /\
                       vertices mesh' !! Z.to_nat (corner f' j) = Some r)
    (filter (fun f => fine gap (vertices strip) (fl 5) f = true) (faces strip))
    (faces mesh') /\
  Forall (fun f' => fine gap (vertices mesh') (fl 5) f' = true) (faces mesh').
Proof.
  intros mesh'.
  assert (Hrun : filterFinest gap strip (fl 5) = Ok mesh') by (vm_compute; reflexivity).
  split; [exact Hrun |].
  apply (filterFinest_faces (Fl := binary) gap strip mesh' (fl 5) Hrun).
Defined.

Lemma filterFinest_vertices_witness :
  let mesh' := mkMesh [0; 1; 2] [(0, 1, 2); (2, 0, 1)] in
  filterFinest gap strip (fl 5) = Ok mesh' /\
  vertices mesh' `sublist_of` vertices strip /\
  forall p, (p < length (vertices mesh'))%nat ->
    exists f', f' ∈ faces mesh' /\ cornerOf f' p.
Proof.
  intros mesh'.
  assert (Hrun : filterFinest gap strip (fl 5) = Ok mesh') by (vm_compute; reflexivity).
  split; [exact Hrun |].
  apply (filterFinest_vertices (Fl := binary) gap strip mesh' (fl 5) Hrun).
Defined.

Lemma filterFinest_idempotent_witness :
  let mesh' := mkMesh [0; 1; 2] [(0, 1, 2); (2, 0, 1)] in
  filterFinest gap strip (fl 5) = Ok mesh' /\
  filterFinest gap mesh' (fl 5) = Ok mesh'.
Proof.
  intros mesh'.
  assert (Hrun : filterFinest gap strip (fl 5) = Ok mesh') by (vm_compute; reflexivity).
  split; [exact Hrun |].
  apply (filterFinest_idempotent (Fl := binary) gap strip mesh' (fl 5) Hrun).
Defined.

Lemma chooseSide_frame_witness :
  let run := outcome (chooseSide ∅ label0 (fl 1) (fl 1) twoLabels (ratio 1 4))
               (dummyLabel, ∅) in
  isOk (chooseSide ∅ label0 (fl 1) (fl 1) twoLabels (ratio 1 4)) = true /\
  exists drawn,
    drawn ∈ others label0 twoLabels /\
    (run.1 = drawn \/ run.1 = dummyLabel) /\
    (forall k, k <> compact (index label0) (index drawn) ->
               k <> compact (index label0) (index label0) ->
               run.2 !! k = (∅ : gmap Z float) !! k) /\
    (forall k, is_Some ((∅ : gmap Z float) !! k) -> is_Some (run.2 !! k)).
Proof.
  intros run.
  assert (Hok : isOk (chooseSide ∅ label0 (fl 1) (fl 1) twoLabels (ratio 1 4)) = true)
    by (vm_compute; reflexivity).
  split; [exact Hok |].
  apply (chooseSide_frame (Fl := binary) (Ex := Examples.externals)
           ∅ label0 (fl 1) (fl 1) twoLabels (ratio 1 4) run.1 run.2).
  by apply outcome_Ok.
Defined.

Lemma hits_check `{Fl : Floating} (choice : float) (sums : list float) :
  f_ltb choice f_zero = false ->
  existsb (fun x => f_ltb choice x) sums = true ->
  hits choice sums.
Proof.
  intros H0 Hex. split; [done |].
  apply existsb_exists in Hex as (x & Hin & Hx).
  apply Exists_exists. exists x. split; [by apply list_elem_of_In | done].
Qed.

Lemma shotStep_safe_witness :
  exists st' picked,
    shotStep config (fl 530) threeCameras (mkSelection ∅ 0 []) (shotsA 1)
      = Ok (st', picked) /\
    ((length seen < 2)%nat -> st' = mkSelection ∅ 0 [] /\ picked = None).
Proof.
  apply (shotStep_safe (Fl := binary) (Ex := Examples.externals)
           config (fl 530) threeCameras (mkSelection ∅ 0 []) (shotsA 1) seen).
  - exact (outcome_isOk (filterCameras viewerThrough emptyDepth threeCameras) [] eq_refl).
  - intros _. apply hits_check; vm_compute; reflexivity.
  - intros mainCamera _ Hin. unfold seen in Hin. cbn [fmap list_fmap fst] in Hin.
    repeat (apply elem_of_cons in Hin as [-> | Hin]);
      [apply hits_check; vm_compute; reflexivity .. | by apply elem_of_nil in Hin].
Defined.
